(** * NCHWc convolution and pooling front end (snchwc.cpp)

    A shallow embedding of the shape preprocessor, the work partitioner,
    the effective-kernel helper, the grouped-convolution state machine,
    the convolution and pooling executors and the algorithm selector of
    [onnxruntime/core/mlas/lib/snchwc.cpp], with the properties that the
    design document states about them.

    Conventions.
    - A [size_t] is a [Z] in [[0, 2^64)]; every [+], [-] and [*] of the
      source on [size_t] is written with its wrap-around ([SizeT.add],
      [SizeT.sub], [SizeT.mul]).  Division and remainder of unsigned
      values are [Z.div] and [Z.modulo]; a zero divisor is undefined in
      the source and is excluded by a hypothesis wherever it matters.
    - A [float*] is a [Z] counting elements from the start of an abstract
      buffer; a pointer that may be [nullptr] is an [option Z].
    - The fixed-size arrays of the work block are lists read with [!!!]
      and written with [<[i:=v]>].
    - The microkernels are external: an executor is modelled by the list
      of microkernel invocations it performs, in order. *)

From Stdlib Require Import ZArith Lia Bool List.
From stdpp Require Import base numbers list.

Local Open Scope Z_scope.

(** ** Unsigned 64-bit arithmetic *)

Module SizeT.

Definition modulus : Z := 2 ^ 64.

Definition wrap (x : Z) : Z := x mod modulus.

Definition add (a b : Z) : Z := wrap (a + b).
Definition sub (a b : Z) : Z := wrap (a - b).
Definition mul (a b : Z) : Z := wrap (a * b).

Definition InRange (x : Z) : Prop := 0 <= x < modulus.

End SizeT.

Infix "+%" := SizeT.add (at level 50, left associativity).
Infix "-%" := SizeT.sub (at level 50, left associativity).
Infix "*%" := SizeT.mul (at level 40, left associativity).

(** [size_t(x)] for an [int64_t] or [int32_t] value [x]. *)
Definition size_t (x : Z) : Z := SizeT.wrap x.

(** [uint32_t(x)] for an [int32_t] value [x]. *)
Definition uint32_t (x : Z) : Z := x mod 2 ^ 32.

(** ** Work blocks *)

Record MLAS_NCHWC_WORK_BLOCK := {
  tids : Z;
  BatchCount : Z;
  InputChannels : Z;
  InputShape : list Z;
  InputSize : Z;
  OutputChannels : Z;
  OutputShape : list Z;
  OutputSize : Z;
  KernelShape : list Z;
  DilationShape : list Z;
  Padding : list Z;
  StrideShape : list Z;
  OutputCountLeftPad : list Z;
  OutputCount : list Z;
  OutputCountRightPad : list Z
}.

(** The arrays of a work block have their declared sizes. *)
Definition WorkBlockShaped (wb : MLAS_NCHWC_WORK_BLOCK) : Prop :=
  length (InputShape wb) = 3%nat /\
  length (OutputShape wb) = 3%nat /\
  length (KernelShape wb) = 3%nat /\
  length (DilationShape wb) = 3%nat /\
  length (Padding wb) = 6%nat /\
  length (StrideShape wb) = 3%nat /\
  length (OutputCountLeftPad wb) = 3%nat /\
  length (OutputCount wb) = 3%nat /\
  length (OutputCountRightPad wb) = 3%nat.

(** ** Shape preprocessor: [MlasPrepareNchwcWorkBlock] *)

Definition SpanValue (DilationValue KernelValue : Z) : Z :=
  DilationValue *% (KernelValue -% 1) +% 1.

(** The first value given to the local [OutputCount]. *)
Definition OutputCountInterior (InputValue SpanV StrideValue : Z) : Z :=
  if SpanV <=? InputValue
  then (InputValue -% SpanV) / StrideValue +% 1
  else 0.

Definition OutputCountWithLeftPad
    (InputValue OutputValue SpanV PaddingLeftValue StrideValue : Z) : Z :=
  if SpanV <=? InputValue +% PaddingLeftValue
  then (InputValue +% PaddingLeftValue -% SpanV) / StrideValue +% 1
  else OutputValue.

(** Does the fix-up branch [OutputCountLeftPad == 0 && PaddingLeftValue > 0]
    run? *)
Definition FixupTaken (OutputCountLeftPad0 PaddingLeftValue : Z) : bool :=
  (OutputCountLeftPad0 =? 0) && (0 <? PaddingLeftValue).

Record DIMENSION_COUNTS := {
  dcLeftPad : Z;
  dcCount : Z;
  dcRightPad : Z
}.

(** Lines 168-200 of the loop body: the three counts stored for one
    dimension, from the sanitized values of that dimension. *)
Definition ComputeOutputCounts
    (InputValue OutputValue KernelValue DilationValue
     PaddingLeftValue StrideValue : Z) : DIMENSION_COUNTS :=
  let SpanV := SpanValue DilationValue KernelValue in
  let OutputCount0 := OutputCountInterior InputValue SpanV StrideValue in
  let WithLeftPad :=
    OutputCountWithLeftPad InputValue OutputValue SpanV
                           PaddingLeftValue StrideValue in
  let OutputCountLeftPad0 := WithLeftPad -% OutputCount0 in
  let '(LeftPad, Count) :=
    if FixupTaken OutputCountLeftPad0 PaddingLeftValue
    then (1, OutputCount0 -% 1)
    else (OutputCountLeftPad0, OutputCount0) in
  {| dcLeftPad := LeftPad;
     dcCount := Count;
     dcRightPad := OutputValue -% WithLeftPad |}.

(** The state carried by the loop over the dimensions: the work block
    and the locals [InputSize] and [OutputSize]. *)
Definition PREPARE_STATE : Type := MLAS_NCHWC_WORK_BLOCK * Z * Z.

(** One iteration of [for (dim = 0; dim < Dimensions; dim++)].  The shape
    pointers have already been advanced past the batch and channel counts. *)
Definition PrepareDimension
    (Dimensions : nat)
    (pInputShape : list Z) (pKernelShape pDilationShape pPadding
     pStrideShape : option (list Z)) (pOutputShape : list Z)
    (st : PREPARE_STATE) (dim : nat) : PREPARE_STATE :=
  let '(wb, InputSize0, OutputSize0) := st in
  let InputValue := size_t (pInputShape !!! dim) in
  let OutputValue := size_t (pOutputShape !!! dim) in
  let KernelValue :=
    match pKernelShape with
    | Some k => size_t (k !!! dim)
    | None => InputValue
    end in
  let DilationValue :=
    match pDilationShape with
    | Some d => size_t (d !!! dim)
    | None => 1
    end in
  let PaddingLeftValue :=
    match pPadding with
    | Some p => size_t (p !!! dim)
    | None => 0
    end in
  let PaddingRightValue :=
    match pPadding with
    | Some p => size_t (p !!! (dim + Dimensions)%nat)
    | None => 0
    end in
  let StrideValue :=
    match pStrideShape with
    | Some s => size_t (s !!! dim)
    | None => 1
    end in
  let counts :=
    ComputeOutputCounts InputValue OutputValue KernelValue DilationValue
                        PaddingLeftValue StrideValue in
  ({| tids := tids wb;
      BatchCount := BatchCount wb;
      InputChannels := InputChannels wb;
      InputShape := <[dim := InputValue]> (InputShape wb);
      InputSize := InputSize wb;
      OutputChannels := OutputChannels wb;
      OutputShape := <[dim := OutputValue]> (OutputShape wb);
      OutputSize := OutputSize wb;
      KernelShape := <[dim := KernelValue]> (KernelShape wb);
      DilationShape := <[dim := DilationValue]> (DilationShape wb);
      Padding :=
        <[(dim + Dimensions)%nat := PaddingRightValue]>
          (<[dim := PaddingLeftValue]> (Padding wb));
      StrideShape := <[dim := StrideValue]> (StrideShape wb);
      OutputCountLeftPad :=
        <[dim := dcLeftPad counts]> (OutputCountLeftPad wb);
      OutputCount := <[dim := dcCount counts]> (OutputCount wb);
      OutputCountRightPad :=
        <[dim := dcRightPad counts]> (OutputCountRightPad wb) |},
   InputSize0 *% InputValue,
   OutputSize0 *% OutputValue).

(** [WorkBlock] is the caller's block, whose shape fields are not
    initialised; the routine fills the first [Dimensions] entries. *)
Definition MlasPrepareNchwcWorkBlock
    (WorkBlock : MLAS_NCHWC_WORK_BLOCK) (Dimensions : nat)
    (pInputShape : list Z) (pKernelShape pDilationShape pPadding
     pStrideShape : option (list Z)) (pOutputShape : list Z)
    : MLAS_NCHWC_WORK_BLOCK :=
  let wb0 :=
    {| tids := tids WorkBlock;
       BatchCount := size_t (pInputShape !!! 0%nat);
       InputChannels := size_t (pInputShape !!! 1%nat);
       InputShape := InputShape WorkBlock;
       InputSize := InputSize WorkBlock;
       OutputChannels := size_t (pOutputShape !!! 1%nat);
       OutputShape := OutputShape WorkBlock;
       OutputSize := OutputSize WorkBlock;
       KernelShape := KernelShape WorkBlock;
       DilationShape := DilationShape WorkBlock;
       Padding := Padding WorkBlock;
       StrideShape := StrideShape WorkBlock;
       OutputCountLeftPad := OutputCountLeftPad WorkBlock;
       OutputCount := OutputCount WorkBlock;
       OutputCountRightPad := OutputCountRightPad WorkBlock |} in
  let '(wb, InputSize1, OutputSize1) :=
    fold_left
      (PrepareDimension Dimensions (drop 2 pInputShape) pKernelShape
         pDilationShape pPadding pStrideShape (drop 2 pOutputShape))
      (seq 0 Dimensions) (wb0, 1, 1) in
  {| tids := tids wb;
     BatchCount := BatchCount wb;
     InputChannels := InputChannels wb;
     InputShape := InputShape wb;
     InputSize := InputSize1;
     OutputChannels := OutputChannels wb;
     OutputShape := OutputShape wb;
     OutputSize := OutputSize1;
     KernelShape := KernelShape wb;
     DilationShape := DilationShape wb;
     Padding := Padding wb;
     StrideShape := StrideShape wb;
     OutputCountLeftPad := OutputCountLeftPad wb;
     OutputCount := OutputCount wb;
     OutputCountRightPad := OutputCountRightPad wb |}.

(** The with-left-pad count as the design document words it:
    [max(0, floor((IH + PL - Span)/SH) + 1)] clamped to [OH]. *)
Definition WithLeftPad_spec (IH OH Span PL SH : Z) : Z :=
  Z.min OH (Z.max 0 ((IH + PL - Span) / SH + 1)).

(** The output length that matches an input length, the paddings, the
    span of the dilated kernel and the stride. *)
Definition MatchingOutput (IH PL PR Span SH : Z) : Z :=
  (IH + PL + PR - Span) / SH + 1.

(** ** Base algorithm: [MLAS_NCHWC_NN_ALGORITHM] *)

Definition HeightShapeIndex : nat := 0.
Definition WidthShapeIndex : nat := 1.

(** The constants captured from the work block by the constructor. *)
Definition InputHeight (wb : MLAS_NCHWC_WORK_BLOCK) : Z :=
  InputShape wb !!! HeightShapeIndex.
Definition InputWidth (wb : MLAS_NCHWC_WORK_BLOCK) : Z :=
  InputShape wb !!! WidthShapeIndex.
Definition OutputHeight (wb : MLAS_NCHWC_WORK_BLOCK) : Z :=
  OutputShape wb !!! HeightShapeIndex.
Definition OutputWidth (wb : MLAS_NCHWC_WORK_BLOCK) : Z :=
  OutputShape wb !!! WidthShapeIndex.
Definition KernelHeight (wb : MLAS_NCHWC_WORK_BLOCK) : Z :=
  KernelShape wb !!! HeightShapeIndex.
Definition KernelWidth (wb : MLAS_NCHWC_WORK_BLOCK) : Z :=
  KernelShape wb !!! WidthShapeIndex.
Definition KernelSize (wb : MLAS_NCHWC_WORK_BLOCK) : Z :=
  KernelHeight wb *% KernelWidth wb.
Definition DilationHeight (wb : MLAS_NCHWC_WORK_BLOCK) : Z :=
  DilationShape wb !!! HeightShapeIndex.
Definition DilationWidth (wb : MLAS_NCHWC_WORK_BLOCK) : Z :=
  DilationShape wb !!! WidthShapeIndex.
Definition PaddingLeftY (wb : MLAS_NCHWC_WORK_BLOCK) : Z :=
  Padding wb !!! HeightShapeIndex.
Definition PaddingLeftX (wb : MLAS_NCHWC_WORK_BLOCK) : Z :=
  Padding wb !!! WidthShapeIndex.
Definition StrideHeight (wb : MLAS_NCHWC_WORK_BLOCK) : Z :=
  StrideShape wb !!! HeightShapeIndex.
Definition StrideWidth (wb : MLAS_NCHWC_WORK_BLOCK) : Z :=
  StrideShape wb !!! WidthShapeIndex.
Definition OutputCountLeftPadY (wb : MLAS_NCHWC_WORK_BLOCK) : Z :=
  OutputCountLeftPad wb !!! HeightShapeIndex.
Definition OutputCountY (wb : MLAS_NCHWC_WORK_BLOCK) : Z :=
  OutputCount wb !!! HeightShapeIndex.
Definition OutputCountLeftPadX (wb : MLAS_NCHWC_WORK_BLOCK) : Z :=
  OutputCountLeftPad wb !!! WidthShapeIndex.
Definition OutputCountX (wb : MLAS_NCHWC_WORK_BLOCK) : Z :=
  OutputCount wb !!! WidthShapeIndex.
Definition OutputCountRightPadX (wb : MLAS_NCHWC_WORK_BLOCK) : Z :=
  OutputCountRightPad wb !!! WidthShapeIndex.

(** [PartitionWork]: the pair [(WorkIndex, WorkRemaining)] written through
    the two out-parameters.  [Index] and [tids] are [int32_t]. *)
Definition PartitionWork (Index : Z) (wb : MLAS_NCHWC_WORK_BLOCK)
    (TotalWork : Z) : Z * Z :=
  let WorkPerThread := TotalWork / size_t (tids wb) in
  let WorkPerThreadExtra := TotalWork mod size_t (tids wb) in
  if uint32_t Index <? WorkPerThreadExtra
  then ((WorkPerThread +% 1) *% size_t Index, WorkPerThread +% 1)
  else (WorkPerThread *% size_t Index +% WorkPerThreadExtra, WorkPerThread).

(** ** Effective kernel: [MLAS_NCHWC_CONV_ALGORITHM::ComputeEffectiveKernel] *)

(** The values of the in-out parameter [*filter] and of the out-parameters
    [*ih] and [*EffectiveKernelHeight]. *)
Record EFFECTIVE_KERNEL := {
  ek_filter : Z;
  ek_ih : Z;
  ek_EffectiveKernelHeight : Z
}.

(** [n] iterations of [for (kh = 0; kh < KernelHeight; kh++)]. *)
Fixpoint EffectiveKernelWalk (n : nat)
    (InputHeightV DilationHeightV FilterStride : Z)
    (ihStep : Z) (ek : EFFECTIVE_KERNEL) : EFFECTIVE_KERNEL :=
  match n with
  | O => ek
  | S n' =>
      let ek1 :=
        if InputHeightV <=? ihStep then
          let ek0 :=
            if ihStep =? ek_ih ek
            then {| ek_filter := ek_filter ek + FilterStride;
                    ek_ih := ek_ih ek +% DilationHeightV;
                    ek_EffectiveKernelHeight := ek_EffectiveKernelHeight ek |}
            else ek in
          {| ek_filter := ek_filter ek0;
             ek_ih := ek_ih ek0;
             ek_EffectiveKernelHeight := ek_EffectiveKernelHeight ek0 -% 1 |}
        else ek in
      EffectiveKernelWalk n' InputHeightV DilationHeightV FilterStride
        (ihStep +% DilationHeightV) ek1
  end.

(** Is the output row outside the interior rows?  The subtraction wraps for
    [ph < OutputCountLeftPadY]. *)
Definition InPadRegion (wb : MLAS_NCHWC_WORK_BLOCK) (ph : Z) : bool :=
  OutputCountY wb <=? ph -% OutputCountLeftPadY wb.

Definition ComputeEffectiveKernel (wb : MLAS_NCHWC_WORK_BLOCK)
    (ph FilterStride filter : Z) : EFFECTIVE_KERNEL :=
  let ih := ph *% StrideHeight wb -% PaddingLeftY wb in
  let ek := {| ek_filter := filter;
               ek_ih := ih;
               ek_EffectiveKernelHeight := KernelHeight wb |} in
  if InPadRegion wb ph
  then EffectiveKernelWalk (Z.to_nat (KernelHeight wb)) (InputHeight wb)
         (DilationHeight wb) FilterStride ih ek
  else ek.

(** *** The closed-form trimming of the design notes

    [ih_trim_top = max(0, ceil((PL - ph*SH)/DH))]; the notes do not define
    [ih_trim_bot], which is taken to be the number of kernel rows whose
    input row index [ph*SH - PL + kh*DH] is at or beyond [IH]. *)

Definition ceil_div (a b : Z) : Z := - ((- a) / b).

Definition ih_trim_top (ph SH PL DH : Z) : Z :=
  Z.max 0 (ceil_div (PL - ph * SH) DH).

Definition ih_trim_bot (ph SH PL DH KH IH : Z) : Z :=
  Z.of_nat
    (length
       (List.filter (fun kh : Z => IH <=? ph * SH - PL + kh * DH)
               (map Z.of_nat (seq 0 (Z.to_nat KH))))).

(** The triple [(ih, KHeff, filter-advance)] of the closed form, the
    advance counted in elements for a filter row of [FilterStride]. *)
Definition ClosedFormTrim (ph SH PL DH KH IH FilterStride : Z) : Z * Z * Z :=
  let top := ih_trim_top ph SH PL DH in
  let bot := ih_trim_bot ph SH PL DH KH IH in
  (ph * SH - PL + top * DH, KH - top - bot, top * FilterStride).

(** The same triple for the walk of the source. *)
Definition WalkTrim (wb : MLAS_NCHWC_WORK_BLOCK)
    (ph FilterStride filter : Z) : Z * Z * Z :=
  let ek := ComputeEffectiveKernel wb ph FilterStride filter in
  (ek_ih ek, ek_EffectiveKernelHeight ek, ek_filter ek - filter).

(** ** Convolution work block and algorithm state *)

(** Modelled from the spec: the kinds of the activation record (its
    declaration is in a header that is not part of the sources); the
    floating-point parameters of the kinds are left out. *)
Inductive MLAS_ACTIVATION_KIND :=
| MlasIdentityActivation
| MlasReluActivation
| MlasLeakyReluActivation
| MlasClipActivation
| MlasLogisticActivation
| MlasTanhActivation
| MlasHardSigmoidActivation.

Definition ActivationKind_eqb (a b : MLAS_ACTIVATION_KIND) : bool :=
  match a, b with
  | MlasIdentityActivation, MlasIdentityActivation
  | MlasReluActivation, MlasReluActivation
  | MlasLeakyReluActivation, MlasLeakyReluActivation
  | MlasClipActivation, MlasClipActivation
  | MlasLogisticActivation, MlasLogisticActivation
  | MlasTanhActivation, MlasTanhActivation
  | MlasHardSigmoidActivation, MlasHardSigmoidActivation => true
  | _, _ => false
  end.

(** Modelled from the spec: the pooling kinds. *)
Inductive MLAS_POOLING_KIND :=
| MlasMaximumPooling
| MlasAveragePoolingExcludePad
| MlasAveragePoolingIncludePad.

Record MLAS_NCHWC_CONV_WORK_BLOCK := {
  ConvBase : MLAS_NCHWC_WORK_BLOCK;
  WorkBlock_Input : Z;
  WorkBlock_Filter : Z;
  WorkBlock_Bias : option Z;
  WorkBlock_Activation : MLAS_ACTIVATION_KIND;
  WorkBlock_Output : Z;
  GroupCount : Z;
  ZeroMode : bool
}.

Record MLAS_NCHWC_POOL_WORK_BLOCK := {
  PoolBase : MLAS_NCHWC_WORK_BLOCK;
  PoolBlock_Input : Z;
  PoolBlock_Output : Z;
  PoolingKind : MLAS_POOLING_KIND
}.

(** The mutable fields of [MLAS_NCHWC_GROUPED_CONV_ALGORITHM] (with the
    buffer pointers of [MLAS_NCHWC_CONV_ALGORITHM]). *)
Record GROUPED_CONV_STATE := {
  Input : Z;
  Filter : Z;
  Bias : option Z;
  Output : Z;
  ph : Z;
  FilterSet : Z;
  Group : Z;
  WorkRemaining : Z;
  FilterCount : Z
}.

(** [if (Bias != nullptr) Bias += n]. *)
Definition AdvanceBias (b : option Z) (n : Z) : option Z :=
  match b with
  | Some p => Some (p + n)
  | None => None
  end.

Definition FilterSetSize : Z := 4.

Section GroupedConv.

Variable BlockSize : Z.
Variable WorkBlock : MLAS_NCHWC_CONV_WORK_BLOCK.

Let wb := ConvBase WorkBlock.

Definition FilterSetCount : Z :=
  (OutputChannels wb +% (BlockSize *% FilterSetSize) -% 1)
    / (BlockSize *% FilterSetSize).

(** The value that [ComputeFilterCount] gives to [FilterCount]. *)
Definition ComputeFilterCount (FilterSetV : Z) : Z :=
  Z.min FilterSetSize
        (OutputChannels wb / BlockSize -% FilterSetV *% FilterSetSize).

Definition PrepareWork (Index : Z) : GROUPED_CONV_STATE :=
  let TotalWork :=
    BatchCount wb *% GroupCount WorkBlock *% FilterSetCount
      *% OutputHeight wb in
  let '(WorkIndex, WorkRemaining0) := PartitionWork Index wb TotalWork in
  let ph0 := WorkIndex mod OutputHeight wb in
  let BatchGroupFilterSet := WorkIndex / OutputHeight wb in
  let FilterSet0 := BatchGroupFilterSet mod FilterSetCount in
  let BatchGroup := BatchGroupFilterSet / FilterSetCount in
  let Group0 := BatchGroup mod GroupCount WorkBlock in
  {| Input :=
       WorkBlock_Input WorkBlock
         + BatchGroup *% InputChannels wb *% InputSize wb;
     Filter :=
       WorkBlock_Filter WorkBlock
         + Group0 *% OutputChannels wb *% InputChannels wb *% KernelSize wb
         + BlockSize *% FilterSet0 *% FilterSetSize *% InputChannels wb
             *% KernelSize wb;
     Bias :=
       AdvanceBias
         (AdvanceBias (WorkBlock_Bias WorkBlock)
                      (Group0 *% OutputChannels wb))
         (BlockSize *% FilterSet0 *% FilterSetSize);
     Output :=
       WorkBlock_Output WorkBlock
         + BatchGroup *% OutputChannels wb *% OutputSize wb
         + BlockSize *% FilterSet0 *% FilterSetSize *% OutputSize wb;
     ph := ph0;
     FilterSet := FilterSet0;
     Group := Group0;
     WorkRemaining := WorkRemaining0;
     FilterCount := ComputeFilterCount FilterSet0 |}.

Definition CompleteWork (WorkThisIteration : Z) (st : GROUPED_CONV_STATE)
    : GROUPED_CONV_STATE :=
  let WorkRemaining1 := WorkRemaining st -% WorkThisIteration in
  let ph1 := ph st +% WorkThisIteration in
  if ph1 =? OutputHeight wb then
    let BlockedFilterCount := BlockSize *% FilterCount st in
    let Output1 := Output st + BlockedFilterCount *% OutputSize wb in
    let Filter1 :=
      Filter st + BlockedFilterCount *% InputChannels wb *% KernelSize wb in
    let Bias1 := AdvanceBias (Bias st) BlockedFilterCount in
    let FilterSet1 := FilterSet st +% 1 in
    if FilterSet1 =? FilterSetCount then
      let Input2 := Input st + InputChannels wb *% InputSize wb in
      let Group1 := Group st +% 1 in
      if Group1 =? GroupCount WorkBlock then
        {| Input := Input2;
           Filter := WorkBlock_Filter WorkBlock;
           Bias := WorkBlock_Bias WorkBlock;
           Output := Output1;
           ph := 0;
           FilterSet := 0;
           Group := 0;
           WorkRemaining := WorkRemaining1;
           FilterCount := ComputeFilterCount 0 |}
      else
        {| Input := Input2;
           Filter := Filter1;
           Bias := Bias1;
           Output := Output1;
           ph := 0;
           FilterSet := 0;
           Group := Group1;
           WorkRemaining := WorkRemaining1;
           FilterCount := ComputeFilterCount 0 |}
    else
      {| Input := Input st;
         Filter := Filter1;
         Bias := Bias1;
         Output := Output1;
         ph := 0;
         FilterSet := FilterSet1;
         Group := Group st;
         WorkRemaining := WorkRemaining1;
         FilterCount := ComputeFilterCount FilterSet1 |}
  else
    {| Input := Input st;
       Filter := Filter st;
       Bias := Bias st;
       Output := Output st;
       ph := ph1;
       FilterSet := FilterSet st;
       Group := Group st;
       WorkRemaining := WorkRemaining1;
       FilterCount := FilterCount st |}.

End GroupedConv.

(** ** Microkernel invocations *)

(** The arguments of a call of the NCHWc or NCHW convolution microkernel,
    in the order of the call. *)
Record CONV_KERNEL_ARGS := {
  ck_Input : Z;
  ck_Filter : Z;
  ck_Output : Z;
  ck_StrideWidthBytes : Z;
  ck_DilationWidthBytes : Z;
  ck_FilterCount : Z;
  ck_InputStrideBytes : Z;
  ck_FilterStrideBytes : Z;
  ck_OutputStrideBytes : Z;
  ck_EffectiveKernelHeight : Z;
  ck_KernelWidth : Z;
  ck_InputBase : Z;
  ck_InputWidthBytes : Z;
  ck_DilatedInputWidthBytes : Z;
  ck_OutputCountLeftPadX : Z;
  ck_OutputCountX : Z;
  ck_OutputCountRightPadX : Z;
  ck_Bias : option Z;
  ck_KernelFlags : Z
}.

(** The arguments of a call of the pointwise convolution microkernel. *)
Record POINTWISE_KERNEL_ARGS := {
  pw_Input : Z;
  pw_Filter : Z;
  pw_Output : Z;
  pw_StrideWidthBytes : Z;
  pw_InputChannelBlocks : Z;
  pw_FilterCount : Z;
  pw_InputStrideBytes : Z;
  pw_FilterStrideBytes : Z;
  pw_OutputStrideBytes : Z;
  pw_OutputThisIteration : Z;
  pw_Bias : option Z;
  pw_KernelFlags : Z
}.

(** The arguments of a call of a pooling microkernel. *)
Record POOL_KERNEL_ARGS := {
  pk_Input : Z;
  pk_Output : Z;
  pk_StrideWidthBytes : Z;
  pk_DilationWidthBytes : Z;
  pk_InputStrideBytes : Z;
  pk_KernelSize : Z;
  pk_EffectiveKernelHeight : Z;
  pk_KernelWidth : Z;
  pk_InputBase : Z;
  pk_InputWidthBytes : Z;
  pk_DilatedInputWidthBytes : Z;
  pk_OutputCountLeftPadX : Z;
  pk_OutputCountX : Z;
  pk_OutputCountRightPadX : Z
}.

(** What an executor does, in order.  [ConvKernel ic step a] and
    [PointwiseKernel ic step a] are microkernel calls made while the
    input-channel loop variable is [ic] and its increment is [step];
    [DoActivation] is the call of [MlasActivation] on the tile just
    written; [PoolKernel kind row a] is a call of the pooling microkernel
    selected by [kind], made for output row [row]. *)
Inductive KERNEL_EVENT :=
| ConvKernel (ic step : Z) (a : CONV_KERNEL_ARGS)
| PointwiseKernel (ic step : Z) (a : POINTWISE_KERNEL_ARGS)
| DoActivation (output FilterCountV BlockedOutputWidth : Z)
| PoolKernel (kind : MLAS_POOLING_KIND) (row : Z) (a : POOL_KERNEL_ARGS).

(** ** Loops whose trip count is not a counter bound

    [while fuel s] runs [body] from [s] as long as [cond] holds and
    collects the events; it is [None] when [fuel] iterations do not reach
    a state where [cond] fails, or when a body fails. *)
Section While.

Context {St Ev : Type}.
Variable cond : St -> bool.
Variable body : St -> option (St * list Ev).

Fixpoint while (fuel : nat) (s : St) : option (St * list Ev) :=
  if cond s then
    match fuel with
    | O => None
    | S fuel' =>
        match body s with
        | Some (s1, es1) =>
            match while fuel' s1 with
            | Some (s2, es2) => Some (s2, es1 ++ es2)
            | None => None
            end
        | None => None
        end
    end
  else Some (s, []).

End While.

Definition sizeof_float : Z := 4.

Definition MaximumInputChannelBatch : Z := 128.

(** ** Convolution executors *)

Section ConvExecutors.

Variable BlockSize : Z.
Variable WorkBlock : MLAS_NCHWC_CONV_WORK_BLOCK.

Let wb := ConvBase WorkBlock.

(** The flag word built at the head of each input-channel iteration;
    [FinalWriter] is the test [ic + step == InputChannels]. *)
Definition ConvKernelFlags (ic : Z) (FinalWriter : bool) (BiasV : option Z)
    : Z :=
  let KernelFlags0 := 0 in
  let KernelFlags1 :=
    if negb (ic =? 0) || negb (ZeroMode WorkBlock)
    then Z.lor KernelFlags0 1
    else KernelFlags0 in
  if FinalWriter then
    let KernelFlags2 :=
      match BiasV with
      | Some _ => Z.lor KernelFlags1 2
      | None => KernelFlags1
      end in
    if ActivationKind_eqb (WorkBlock_Activation WorkBlock) MlasReluActivation
    then Z.lor KernelFlags2 4
    else if negb (ActivationKind_eqb (WorkBlock_Activation WorkBlock)
                                     MlasIdentityActivation)
    then Z.lor KernelFlags2 8
    else KernelFlags2
  else KernelFlags1.

(** [if ((KernelFlags & 8) != 0) DoActivation(...)]. *)
Definition FusedActivation (KernelFlags output FilterCountV Width : Z)
    : list KERNEL_EVENT :=
  if negb (Z.land KernelFlags 8 =? 0)
  then [DoActivation output FilterCountV Width]
  else [].

(** *** [MLAS_NCHWC_CONV_NCHWC_ALGORITHM::Execute] *)

Definition Nchwc_StrideWidthBytes : Z :=
  BlockSize *% StrideWidth wb *% sizeof_float.
Definition Nchwc_DilationWidthBytes : Z :=
  BlockSize *% DilationWidth wb *% sizeof_float.
Definition Nchwc_FilterStrideBytes : Z :=
  BlockSize *% InputChannels wb *% KernelSize wb *% sizeof_float.
Definition Nchwc_OutputStrideBytes : Z :=
  BlockSize *% OutputSize wb *% sizeof_float.
Definition Nchwc_InputWidthBytes : Z :=
  BlockSize *% InputWidth wb *% sizeof_float.
Definition Nchwc_DilatedInputWidthBytes : Z :=
  BlockSize *% DilationHeight wb *% InputWidth wb *% sizeof_float.
Definition Nchwc_InputStrideBytes : Z :=
  Nchwc_DilatedInputWidthBytes -% KernelWidth wb *% Nchwc_DilationWidthBytes.
Definition BlockedOutputWidth : Z := BlockSize *% OutputWidth wb.

(** [n] iterations of [for (work = 0; work < WorkThisIteration; work++)]. *)
Fixpoint NchwcRows (st : GROUPED_CONV_STATE) (ic KernelFlags input : Z)
    (n : nat) (work output : Z) : list KERNEL_EVENT :=
  match n with
  | O => []
  | S n' =>
      let ek :=
        ComputeEffectiveKernel wb (ph st +% work)
          (BlockSize *% BlockSize *% KernelWidth wb)
          (Filter st + BlockSize *% ic *% KernelSize wb) in
      ConvKernel ic BlockSize
        {| ck_Input :=
             input + BlockSize *% (ek_ih ek *% InputWidth wb
                                   -% PaddingLeftX wb);
           ck_Filter := ek_filter ek;
           ck_Output := output;
           ck_StrideWidthBytes := Nchwc_StrideWidthBytes;
           ck_DilationWidthBytes := Nchwc_DilationWidthBytes;
           ck_FilterCount := FilterCount st;
           ck_InputStrideBytes := Nchwc_InputStrideBytes;
           ck_FilterStrideBytes := Nchwc_FilterStrideBytes;
           ck_OutputStrideBytes := Nchwc_OutputStrideBytes;
           ck_EffectiveKernelHeight := ek_EffectiveKernelHeight ek;
           ck_KernelWidth := KernelWidth wb;
           ck_InputBase :=
             input + BlockSize *% (ek_ih ek *% InputWidth wb);
           ck_InputWidthBytes := Nchwc_InputWidthBytes;
           ck_DilatedInputWidthBytes := Nchwc_DilatedInputWidthBytes;
           ck_OutputCountLeftPadX := OutputCountLeftPadX wb;
           ck_OutputCountX := OutputCountX wb;
           ck_OutputCountRightPadX := OutputCountRightPadX wb;
           ck_Bias := Bias st;
           ck_KernelFlags := KernelFlags |}
        :: FusedActivation KernelFlags output (FilterCount st)
             BlockedOutputWidth
        ++ NchwcRows st ic KernelFlags input n' (work +% 1)
             (output + BlockedOutputWidth)
  end.

(** The body of [for (ic = 0; ic < InputChannels; ic += BlockSize)]. *)
Definition NchwcChannelBody (st : GROUPED_CONV_STATE)
    (WorkThisIteration : Z) (ic : Z) : option (Z * list KERNEL_EVENT) :=
  let KernelFlags :=
    ConvKernelFlags ic (ic +% BlockSize =? InputChannels wb) (Bias st) in
  Some (ic +% BlockSize,
        NchwcRows st ic KernelFlags (Input st + ic *% InputSize wb)
          (Z.to_nat WorkThisIteration) 0
          (Output st + ph st *% BlockedOutputWidth)).

(** The body of [while (WorkRemaining > 0)]. *)
Definition NchwcBody (st : GROUPED_CONV_STATE)
    : option (GROUPED_CONV_STATE * list KERNEL_EVENT) :=
  let WorkThisIteration :=
    Z.min (WorkRemaining st) (OutputHeight wb -% ph st) in
  match while (fun ic => ic <? InputChannels wb)
              (NchwcChannelBody st WorkThisIteration)
              (Z.to_nat (InputChannels wb)) 0 with
  | Some (_, es) =>
      Some (CompleteWork BlockSize WorkBlock WorkThisIteration st, es)
  | None => None
  end.

Definition WorkLeft (st : GROUPED_CONV_STATE) : bool :=
  0 <? WorkRemaining st.

Definition NchwcExecute (Index : Z) : option (list KERNEL_EVENT) :=
  let st0 := PrepareWork BlockSize WorkBlock Index in
  match while WorkLeft NchwcBody (Z.to_nat (WorkRemaining st0)) st0 with
  | Some (_, es) => Some es
  | None => None
  end.

(** *** [MLAS_NCHWC_CONV_NCHW_ALGORITHM::Execute] *)

Definition Nchw_StrideWidthBytes : Z := StrideWidth wb *% sizeof_float.
Definition Nchw_DilationWidthBytes : Z := DilationWidth wb *% sizeof_float.
Definition Nchw_FilterStrideBytes : Z :=
  BlockSize *% InputChannels wb *% KernelSize wb *% sizeof_float.
Definition Nchw_OutputStrideBytes : Z :=
  BlockSize *% OutputSize wb *% sizeof_float.
Definition Nchw_InputWidthBytes : Z := InputWidth wb *% sizeof_float.
Definition Nchw_DilatedInputWidthBytes : Z :=
  DilationHeight wb *% InputWidth wb *% sizeof_float.
Definition Nchw_InputStrideBytes : Z :=
  Nchw_DilatedInputWidthBytes -% KernelWidth wb *% Nchw_DilationWidthBytes.

(** [n] iterations of [for (icc = 0; icc < InputChannels; icc += 1)]. *)
Fixpoint NchwChannels (st : GROUPED_CONV_STATE) (ih EffectiveKernelHeight
    output : Z) (n : nat) (icc input filter : Z) : list KERNEL_EVENT :=
  match n with
  | O => []
  | S n' =>
      let KernelFlags :=
        ConvKernelFlags icc (icc +% 1 =? InputChannels wb) (Bias st) in
      ConvKernel icc 1
        {| ck_Input := input + (ih *% InputWidth wb -% PaddingLeftX wb);
           ck_Filter := filter;
           ck_Output := output;
           ck_StrideWidthBytes := Nchw_StrideWidthBytes;
           ck_DilationWidthBytes := Nchw_DilationWidthBytes;
           ck_FilterCount := FilterCount st;
           ck_InputStrideBytes := Nchw_InputStrideBytes;
           ck_FilterStrideBytes := Nchw_FilterStrideBytes;
           ck_OutputStrideBytes := Nchw_OutputStrideBytes;
           ck_EffectiveKernelHeight := EffectiveKernelHeight;
           ck_KernelWidth := KernelWidth wb;
           ck_InputBase := input + ih *% InputWidth wb;
           ck_InputWidthBytes := Nchw_InputWidthBytes;
           ck_DilatedInputWidthBytes := Nchw_DilatedInputWidthBytes;
           ck_OutputCountLeftPadX := OutputCountLeftPadX wb;
           ck_OutputCountX := OutputCountX wb;
           ck_OutputCountRightPadX := OutputCountRightPadX wb;
           ck_Bias := Bias st;
           ck_KernelFlags := KernelFlags |}
        :: FusedActivation KernelFlags output (FilterCount st)
             BlockedOutputWidth
        ++ NchwChannels st ih EffectiveKernelHeight output n' (icc +% 1)
             (input + InputSize wb) (filter + BlockSize *% KernelSize wb)
  end.

Definition NchwBody (st : GROUPED_CONV_STATE)
    : option (GROUPED_CONV_STATE * list KERNEL_EVENT) :=
  let ek :=
    ComputeEffectiveKernel wb (ph st) (BlockSize *% KernelWidth wb)
      (Filter st) in
  Some (CompleteWork BlockSize WorkBlock 1 st,
        NchwChannels st (ek_ih ek) (ek_EffectiveKernelHeight ek)
          (Output st + BlockSize *% ph st *% OutputWidth wb)
          (Z.to_nat (InputChannels wb)) 0 (Input st) (ek_filter ek)).

Definition NchwExecute (Index : Z) : option (list KERNEL_EVENT) :=
  let st0 := PrepareWork BlockSize WorkBlock Index in
  match while WorkLeft NchwBody (Z.to_nat (WorkRemaining st0)) st0 with
  | Some (_, es) => Some es
  | None => None
  end.

(** *** [MLAS_NCHWC_CONV_POINTWISE_ALGORITHM::Execute] *)

Definition Pointwise_StrideWidthBytes : Z :=
  BlockSize *% StrideWidth wb *% sizeof_float.
Definition Pointwise_InputStrideBytes : Z :=
  BlockSize *% InputSize wb *% sizeof_float.
Definition Pointwise_FilterStrideBytes : Z :=
  BlockSize *% InputChannels wb *% sizeof_float.
Definition Pointwise_OutputStrideBytes : Z :=
  BlockSize *% OutputSize wb *% sizeof_float.

(** The state of the input-channel loop: [ic], [input] and [filter]. *)
Definition POINTWISE_CHANNEL_STATE : Type := Z * Z * Z.

(** The body of [for (ic = 0; ic < InputChannels; ic += InputChannelBatch)]. *)
Definition PointwiseChannelBody (st : GROUPED_CONV_STATE)
    (OutputThisIteration output : Z) (cs : POINTWISE_CHANNEL_STATE)
    : option (POINTWISE_CHANNEL_STATE * list KERNEL_EVENT) :=
  let '(ic, input, filter) := cs in
  let InputChannelBatch :=
    Z.min (InputChannels wb -% ic) MaximumInputChannelBatch in
  let KernelFlags :=
    ConvKernelFlags ic (ic +% InputChannelBatch =? InputChannels wb)
      (Bias st) in
  Some ((ic +% InputChannelBatch,
         input + MaximumInputChannelBatch *% InputSize wb,
         filter + BlockSize *% MaximumInputChannelBatch),
        PointwiseKernel ic InputChannelBatch
          {| pw_Input := input;
             pw_Filter := filter;
             pw_Output := output;
             pw_StrideWidthBytes := Pointwise_StrideWidthBytes;
             pw_InputChannelBlocks := InputChannelBatch / BlockSize;
             pw_FilterCount := FilterCount st;
             pw_InputStrideBytes := Pointwise_InputStrideBytes;
             pw_FilterStrideBytes := Pointwise_FilterStrideBytes;
             pw_OutputStrideBytes := Pointwise_OutputStrideBytes;
             pw_OutputThisIteration := OutputThisIteration;
             pw_Bias := Bias st;
             pw_KernelFlags := KernelFlags |}
          :: FusedActivation KernelFlags output (FilterCount st)
               (BlockSize *% OutputThisIteration)).

Definition PointwiseBody (st : GROUPED_CONV_STATE)
    : option (GROUPED_CONV_STATE * list KERNEL_EVENT) :=
  let WorkThisIteration :=
    if (StrideHeight wb =? 1) && (StrideWidth wb =? 1)
    then Z.min (WorkRemaining st) (OutputHeight wb -% ph st)
    else 1 in
  let OutputThisIteration := WorkThisIteration *% OutputWidth wb in
  match while (fun cs : POINTWISE_CHANNEL_STATE =>
                 cs.1.1 <? InputChannels wb)
              (PointwiseChannelBody st OutputThisIteration
                 (Output st + BlockSize *% ph st *% OutputWidth wb))
              (Z.to_nat (InputChannels wb))
              (0,
               Input st
                 + BlockSize *% (ph st *% StrideHeight wb *% InputWidth wb),
               Filter st) with
  | Some (_, es) =>
      Some (CompleteWork BlockSize WorkBlock WorkThisIteration st, es)
  | None => None
  end.

Definition PointwiseExecute (Index : Z) : option (list KERNEL_EVENT) :=
  let st0 := PrepareWork BlockSize WorkBlock Index in
  match while WorkLeft PointwiseBody (Z.to_nat (WorkRemaining st0)) st0 with
  | Some (_, es) => Some es
  | None => None
  end.

End ConvExecutors.

(** ** Pooling executor: [MLAS_NCHWC_POOL_ALGORITHM::Execute] *)

Record POOL_STATE := {
  pool_ph : Z;
  pool_Input : Z;
  pool_Output : Z;
  pool_WorkRemaining : Z
}.

(** [n] iterations of the walk over the kernel rows, on the pair
    [(ih, EffectiveKernelHeight)]; the pooling executor has its own copy of
    the walk, without a filter pointer. *)
Fixpoint PoolKernelWalk (n : nat) (InputHeightV DilationHeightV : Z)
    (ihStep : Z) (ihk : Z * Z) : Z * Z :=
  match n with
  | O => ihk
  | S n' =>
      let ihk1 :=
        if InputHeightV <=? ihStep then
          let ih1 :=
            if ihStep =? ihk.1 then ihk.1 +% DilationHeightV else ihk.1 in
          (ih1, ihk.2 -% 1)
        else ihk in
      PoolKernelWalk n' InputHeightV DilationHeightV
        (ihStep +% DilationHeightV) ihk1
  end.

Section PoolExecutor.

Variable BlockSize : Z.
Variable WorkBlock : MLAS_NCHWC_POOL_WORK_BLOCK.

Let wb := PoolBase WorkBlock.

Definition Pool_StrideWidthBytes : Z :=
  BlockSize *% StrideWidth wb *% sizeof_float.
Definition Pool_DilationWidthBytes : Z :=
  BlockSize *% DilationWidth wb *% sizeof_float.
Definition Pool_InputWidthBytes : Z :=
  BlockSize *% InputWidth wb *% sizeof_float.
Definition Pool_DilatedInputWidthBytes : Z :=
  BlockSize *% DilationHeight wb *% InputWidth wb *% sizeof_float.
Definition Pool_InputStrideBytes : Z :=
  Pool_DilatedInputWidthBytes -% KernelWidth wb *% Pool_DilationWidthBytes.

Definition PoolWorkLeft (st : POOL_STATE) : bool :=
  0 <? pool_WorkRemaining st.

Definition PoolPrepare (Index : Z) : POOL_STATE :=
  let TotalWork :=
    (BatchCount wb *% InputChannels wb +% BlockSize -% 1) / BlockSize
      *% OutputHeight wb in
  let '(WorkIndex, WorkRemaining0) := PartitionWork Index wb TotalWork in
  let ph0 := WorkIndex mod OutputHeight wb in
  let BatchChannel := WorkIndex / OutputHeight wb in
  {| pool_ph := ph0;
     pool_Input :=
       PoolBlock_Input WorkBlock + BatchChannel *% BlockSize *% InputSize wb;
     pool_Output :=
       PoolBlock_Output WorkBlock
         + WorkIndex *% BlockSize *% OutputWidth wb;
     pool_WorkRemaining := WorkRemaining0 |}.

(** The body of [while (WorkRemaining > 0)]. *)
Definition PoolBody (st : POOL_STATE)
    : option (POOL_STATE * list KERNEL_EVENT) :=
  let ih0 := pool_ph st *% StrideHeight wb -% PaddingLeftY wb in
  let '(ih, EffectiveKernelHeight) :=
    if InPadRegion wb (pool_ph st)
    then PoolKernelWalk (Z.to_nat (KernelHeight wb)) (InputHeight wb)
           (DilationHeight wb) ih0 (ih0, KernelHeight wb)
    else (ih0, KernelHeight wb) in
  let call :=
    PoolKernel (PoolingKind WorkBlock) (pool_ph st)
      {| pk_Input :=
           pool_Input st
             + BlockSize *% (ih *% InputWidth wb -% PaddingLeftX wb);
         pk_Output := pool_Output st;
         pk_StrideWidthBytes := Pool_StrideWidthBytes;
         pk_DilationWidthBytes := Pool_DilationWidthBytes;
         pk_InputStrideBytes := Pool_InputStrideBytes;
         pk_KernelSize := KernelSize wb;
         pk_EffectiveKernelHeight := EffectiveKernelHeight;
         pk_KernelWidth := KernelWidth wb;
         pk_InputBase := pool_Input st + BlockSize *% (ih *% InputWidth wb);
         pk_InputWidthBytes := Pool_InputWidthBytes;
         pk_DilatedInputWidthBytes := Pool_DilatedInputWidthBytes;
         pk_OutputCountLeftPadX := OutputCountLeftPadX wb;
         pk_OutputCountX := OutputCountX wb;
         pk_OutputCountRightPadX := OutputCountRightPadX wb |} in
  let Output1 := pool_Output st + BlockSize *% OutputWidth wb in
  let WorkRemaining1 := pool_WorkRemaining st -% 1 in
  let ph1 := pool_ph st +% 1 in
  Some (if ph1 =? OutputHeight wb
        then {| pool_ph := 0;
                pool_Input := pool_Input st + BlockSize *% InputSize wb;
                pool_Output := Output1;
                pool_WorkRemaining := WorkRemaining1 |}
        else {| pool_ph := ph1;
                pool_Input := pool_Input st;
                pool_Output := Output1;
                pool_WorkRemaining := WorkRemaining1 |},
        [call]).

Definition PoolExecute (Index : Z) : option (list KERNEL_EVENT) :=
  let st0 := PoolPrepare Index in
  match while PoolWorkLeft PoolBody
              (Z.to_nat (pool_WorkRemaining st0)) st0 with
  | Some (_, es) => Some es
  | None => None
  end.

End PoolExecutor.

(** ** Depthwise executor: [MLAS_NCHWC_CONV_DEPTHWISE_ALGORITHM::Execute] *)

(** The arguments of a call of the depthwise convolution microkernel, in
    the order of the call. *)
Record DEPTHWISE_KERNEL_ARGS := {
  dw_Input : Z;
  dw_Filter : Z;
  dw_Output : Z;
  dw_StrideWidthBytes : Z;
  dw_DilationWidthBytes : Z;
  dw_InputStrideBytes : Z;
  dw_EffectiveKernelHeight : Z;
  dw_KernelWidth : Z;
  dw_InputBase : Z;
  dw_InputWidthBytes : Z;
  dw_DilatedInputWidthBytes : Z;
  dw_OutputCountLeftPadX : Z;
  dw_OutputCountX : Z;
  dw_OutputCountRightPadX : Z;
  dw_Bias : option Z;
  dw_KernelFlags : Z
}.

(** What the depthwise executor does, in order: a microkernel call made
    for output row [row], or the call of [MlasActivation] on the row just
    written. *)
Inductive DEPTHWISE_EVENT :=
| DepthwiseKernel (row : Z) (a : DEPTHWISE_KERNEL_ARGS)
| DepthwiseActivation (output FilterCountV BlockedOutputWidthV : Z).

(** The locals [ph], [Group] and [WorkRemaining] of [Execute] and the
    buffer pointers of the algorithm object. *)
Record DEPTHWISE_STATE := {
  dws_ph : Z;
  dws_Group : Z;
  dws_Input : Z;
  dws_Output : Z;
  dws_Filter : Z;
  dws_Bias : option Z;
  dws_WorkRemaining : Z
}.

Section DepthwiseExecutor.

Variable BlockSize : Z.
Variable WorkBlock : MLAS_NCHWC_CONV_WORK_BLOCK.

Let wb := ConvBase WorkBlock.

Definition GroupBlockCount : Z :=
  (GroupCount WorkBlock +% BlockSize -% 1) / BlockSize.

Definition Depthwise_StrideWidthBytes : Z :=
  BlockSize *% StrideWidth wb *% sizeof_float.
Definition Depthwise_DilationWidthBytes : Z :=
  BlockSize *% DilationWidth wb *% sizeof_float.
Definition Depthwise_InputWidthBytes : Z :=
  BlockSize *% InputWidth wb *% sizeof_float.
Definition Depthwise_DilatedInputWidthBytes : Z :=
  BlockSize *% DilationHeight wb *% InputWidth wb *% sizeof_float.
Definition Depthwise_InputStrideBytes : Z :=
  Depthwise_DilatedInputWidthBytes
    -% KernelWidth wb *% Depthwise_DilationWidthBytes.
Definition Depthwise_BlockedOutputWidth : Z := BlockSize *% OutputWidth wb.

Definition DepthwiseWorkLeft (st : DEPTHWISE_STATE) : bool :=
  0 <? dws_WorkRemaining st.

(** The code before the loop: the partition of the work and the decoding
    of the starting work index. *)
Definition DepthwisePrepare (Index : Z) : DEPTHWISE_STATE :=
  let TotalWork := BatchCount wb *% GroupBlockCount *% OutputHeight wb in
  let '(WorkIndex, WorkRemaining0) := PartitionWork Index wb TotalWork in
  let ph0 := WorkIndex mod OutputHeight wb in
  let BatchGroup := WorkIndex / OutputHeight wb in
  let Group0 := BatchGroup mod GroupBlockCount in
  {| dws_ph := ph0;
     dws_Group := Group0;
     dws_Input :=
       WorkBlock_Input WorkBlock + BatchGroup *% BlockSize *% InputSize wb;
     dws_Output :=
       WorkBlock_Output WorkBlock + WorkIndex *% BlockSize *% OutputWidth wb;
     dws_Filter :=
       WorkBlock_Filter WorkBlock + Group0 *% BlockSize *% KernelSize wb;
     dws_Bias := AdvanceBias (WorkBlock_Bias WorkBlock) (BlockSize *% Group0);
     dws_WorkRemaining := WorkRemaining0 |}.

(** The flag word of the depthwise executor: there is no input-channel
    loop, so no test of a channel index. *)
Definition DepthwiseKernelFlags (BiasV : option Z) : Z :=
  let KernelFlags0 := 0 in
  let KernelFlags1 :=
    if negb (ZeroMode WorkBlock)
    then Z.lor KernelFlags0 1
    else KernelFlags0 in
  let KernelFlags2 :=
    match BiasV with
    | Some _ => Z.lor KernelFlags1 2
    | None => KernelFlags1
    end in
  if ActivationKind_eqb (WorkBlock_Activation WorkBlock) MlasReluActivation
  then Z.lor KernelFlags2 4
  else if negb (ActivationKind_eqb (WorkBlock_Activation WorkBlock)
                                   MlasIdentityActivation)
  then Z.lor KernelFlags2 8
  else KernelFlags2.

(** The microkernel call of one loop iteration and the activation call
    that may follow it. *)
Definition DepthwiseCalls (st : DEPTHWISE_STATE) : list DEPTHWISE_EVENT :=
  let ek :=
    ComputeEffectiveKernel wb (dws_ph st) (BlockSize *% KernelWidth wb)
      (dws_Filter st) in
  let KernelFlags := DepthwiseKernelFlags (dws_Bias st) in
  DepthwiseKernel (dws_ph st)
    {| dw_Input :=
         dws_Input st
           + BlockSize *% (ek_ih ek *% InputWidth wb -% PaddingLeftX wb);
       dw_Filter := ek_filter ek;
       dw_Output := dws_Output st;
       dw_StrideWidthBytes := Depthwise_StrideWidthBytes;
       dw_DilationWidthBytes := Depthwise_DilationWidthBytes;
       dw_InputStrideBytes := Depthwise_InputStrideBytes;
       dw_EffectiveKernelHeight := ek_EffectiveKernelHeight ek;
       dw_KernelWidth := KernelWidth wb;
       dw_InputBase := dws_Input st + BlockSize *% (ek_ih ek *% InputWidth wb);
       dw_InputWidthBytes := Depthwise_InputWidthBytes;
       dw_DilatedInputWidthBytes := Depthwise_DilatedInputWidthBytes;
       dw_OutputCountLeftPadX := OutputCountLeftPadX wb;
       dw_OutputCountX := OutputCountX wb;
       dw_OutputCountRightPadX := OutputCountRightPadX wb;
       dw_Bias := dws_Bias st;
       dw_KernelFlags := KernelFlags |}
    :: (if negb (Z.land KernelFlags 8 =? 0)
        then [DepthwiseActivation (dws_Output st) 1
                Depthwise_BlockedOutputWidth]
        else []).

(** The state after one loop iteration. *)
Definition DepthwiseAdvance (st : DEPTHWISE_STATE) : DEPTHWISE_STATE :=
  let Output1 := dws_Output st + Depthwise_BlockedOutputWidth in
  let WorkRemaining1 := dws_WorkRemaining st -% 1 in
  let ph1 := dws_ph st +% 1 in
  if ph1 =? OutputHeight wb then
    let Input1 := dws_Input st + BlockSize *% InputSize wb in
    let Filter1 := dws_Filter st + BlockSize *% KernelSize wb in
    let Bias1 := AdvanceBias (dws_Bias st) BlockSize in
    let Group1 := dws_Group st +% 1 in
    if Group1 =? GroupBlockCount then
      {| dws_ph := 0;
         dws_Group := 0;
         dws_Input := Input1;
         dws_Output := Output1;
         dws_Filter := WorkBlock_Filter WorkBlock;
         dws_Bias := WorkBlock_Bias WorkBlock;
         dws_WorkRemaining := WorkRemaining1 |}
    else
      {| dws_ph := 0;
         dws_Group := Group1;
         dws_Input := Input1;
         dws_Output := Output1;
         dws_Filter := Filter1;
         dws_Bias := Bias1;
         dws_WorkRemaining := WorkRemaining1 |}
  else
    {| dws_ph := ph1;
       dws_Group := dws_Group st;
       dws_Input := dws_Input st;
       dws_Output := Output1;
       dws_Filter := dws_Filter st;
       dws_Bias := dws_Bias st;
       dws_WorkRemaining := WorkRemaining1 |}.

(** The body of [while (WorkRemaining > 0)]. *)
Definition DepthwiseBody (st : DEPTHWISE_STATE)
    : option (DEPTHWISE_STATE * list DEPTHWISE_EVENT) :=
  Some (DepthwiseAdvance st, DepthwiseCalls st).

Definition DepthwiseExecute (Index : Z) : option (list DEPTHWISE_EVENT) :=
  let st0 := DepthwisePrepare Index in
  match while DepthwiseWorkLeft DepthwiseBody
              (Z.to_nat (dws_WorkRemaining st0)) st0 with
  | Some (_, es) => Some es
  | None => None
  end.

End DepthwiseExecutor.

(** ** Entry points: [MlasNchwcConv] and [MlasNchwcPool] *)

(** The instances of [MlasNchwcThreaded] handed to the thread pool. *)
Inductive THREADED_ROUTINE :=
| MLAS_NCHWC_CONV_POINTWISE_ALGORITHM
| MLAS_NCHWC_CONV_NCHWC_ALGORITHM
| MLAS_NCHWC_CONV_DEPTHWISE_ALGORITHM
| MLAS_NCHWC_CONV_NCHW_ALGORITHM
| MLAS_NCHWC_POOL_ALGORITHM.

Definition SetChannels (wb : MLAS_NCHWC_WORK_BLOCK)
    (InputChannelsV OutputChannelsV : Z) : MLAS_NCHWC_WORK_BLOCK :=
  {| tids := tids wb;
     BatchCount := BatchCount wb;
     InputChannels := InputChannelsV;
     InputShape := InputShape wb;
     InputSize := InputSize wb;
     OutputChannels := OutputChannelsV;
     OutputShape := OutputShape wb;
     OutputSize := OutputSize wb;
     KernelShape := KernelShape wb;
     DilationShape := DilationShape wb;
     Padding := Padding wb;
     StrideShape := StrideShape wb;
     OutputCountLeftPad := OutputCountLeftPad wb;
     OutputCount := OutputCount wb;
     OutputCountRightPad := OutputCountRightPad wb |}.

Definition SetThreads (wb : MLAS_NCHWC_WORK_BLOCK) (tidsV : Z)
    : MLAS_NCHWC_WORK_BLOCK :=
  {| tids := tidsV;
     BatchCount := BatchCount wb;
     InputChannels := InputChannels wb;
     InputShape := InputShape wb;
     InputSize := InputSize wb;
     OutputChannels := OutputChannels wb;
     OutputShape := OutputShape wb;
     OutputSize := OutputSize wb;
     KernelShape := KernelShape wb;
     DilationShape := DilationShape wb;
     Padding := Padding wb;
     StrideShape := StrideShape wb;
     OutputCountLeftPad := OutputCountLeftPad wb;
     OutputCount := OutputCount wb;
     OutputCountRightPad := OutputCountRightPad wb |}.

(** The selection of [MlasNchwcConv], on the work block in which the
    channel counts have been divided by the group count. *)
Definition SelectConvAlgorithm (BlockSize : Z)
    (wb : MLAS_NCHWC_WORK_BLOCK) : THREADED_ROUTINE :=
  if BlockSize <=? InputChannels wb then
    if (KernelShape wb !!! 0%nat =? 1) && (KernelShape wb !!! 1%nat =? 1)
       && (Padding wb !!! 0%nat =? 0) && (Padding wb !!! 1%nat =? 0)
       && (Padding wb !!! 2%nat =? 0) && (Padding wb !!! 3%nat =? 0)
    then MLAS_NCHWC_CONV_POINTWISE_ALGORITHM
    else MLAS_NCHWC_CONV_NCHWC_ALGORITHM
  else if (InputChannels wb =? 1) && (OutputChannels wb =? 1)
  then MLAS_NCHWC_CONV_DEPTHWISE_ALGORITHM
  else MLAS_NCHWC_CONV_NCHW_ALGORITHM.

(** [MlasNchwcConv] up to the hand-over to the thread pool: the routine
    and the work block given to [MlasExecuteThreaded].  [BlockSize] is the
    value of [MlasNchwcGetBlockSize()], [MaximumThreadCount] the value of
    [MlasGetMaximumThreadCount(ThreadPool)], and [WorkBlock0] the contents
    of the local work block before it is written. *)
Definition MlasNchwcConv (BlockSize MaximumThreadCount : Z)
    (WorkBlock0 : MLAS_NCHWC_WORK_BLOCK) (Dimensions : nat)
    (pInputShape : list Z) (pKernelShape pDilationShape pPadding
     pStrideShape : option (list Z)) (pOutputShape : list Z)
    (GroupCountV InputV FilterV : Z) (BiasV : option Z) (OutputV : Z)
    (ActivationV : MLAS_ACTIVATION_KIND) (ZeroModeV : bool)
    : THREADED_ROUTINE * MLAS_NCHWC_CONV_WORK_BLOCK :=
  let wb1 :=
    MlasPrepareNchwcWorkBlock WorkBlock0 Dimensions pInputShape pKernelShape
      pDilationShape pPadding pStrideShape pOutputShape in
  let wb2 :=
    SetChannels wb1 (InputChannels wb1 / GroupCountV)
                (OutputChannels wb1 / GroupCountV) in
  let ThreadedRoutine := SelectConvAlgorithm BlockSize wb2 in
  (ThreadedRoutine,
   {| ConvBase := SetThreads wb2 MaximumThreadCount;
      WorkBlock_Input := InputV;
      WorkBlock_Filter := FilterV;
      WorkBlock_Bias := BiasV;
      WorkBlock_Activation := ActivationV;
      WorkBlock_Output := OutputV;
      GroupCount := GroupCountV;
      ZeroMode := ZeroModeV |}).

Definition MlasNchwcPool (MaximumThreadCount : Z)
    (WorkBlock0 : MLAS_NCHWC_WORK_BLOCK) (PoolingKindV : MLAS_POOLING_KIND)
    (Dimensions : nat)
    (pInputShape : list Z) (pKernelShape pDilationShape pPadding
     pStrideShape : option (list Z)) (pOutputShape : list Z)
    (InputV OutputV : Z)
    : THREADED_ROUTINE * MLAS_NCHWC_POOL_WORK_BLOCK :=
  let wb1 :=
    MlasPrepareNchwcWorkBlock WorkBlock0 Dimensions pInputShape pKernelShape
      pDilationShape pPadding pStrideShape pOutputShape in
  (MLAS_NCHWC_POOL_ALGORITHM,
   {| PoolBase := SetThreads wb1 MaximumThreadCount;
      PoolBlock_Input := InputV;
      PoolBlock_Output := OutputV;
      PoolingKind := PoolingKindV |}).

(** * Vocabulary of the properties *)

(** ** What the preprocessor stores for a dimension *)

Section StoredValues.

Variable Dimensions : nat.
Variables pInputShape pOutputShape : list Z.
Variables pKernelShape pDilationShape pPadding pStrideShape : option (list Z).

(** The sanitized values of dimension [dim], from the arguments (the
    shape pointers being past the batch and channel counts). *)
Definition ArgInput (dim : nat) : Z := size_t (pInputShape !!! dim).
Definition ArgOutput (dim : nat) : Z := size_t (pOutputShape !!! dim).
Definition ArgKernel (dim : nat) : Z :=
  match pKernelShape with
  | Some k => size_t (k !!! dim)
  | None => ArgInput dim
  end.
Definition ArgDilation (dim : nat) : Z :=
  match pDilationShape with
  | Some d => size_t (d !!! dim)
  | None => 1
  end.
Definition ArgPaddingLeft (dim : nat) : Z :=
  match pPadding with
  | Some p => size_t (p !!! dim)
  | None => 0
  end.
Definition ArgPaddingRight (dim : nat) : Z :=
  match pPadding with
  | Some p => size_t (p !!! (dim + Dimensions)%nat)
  | None => 0
  end.
Definition ArgStride (dim : nat) : Z :=
  match pStrideShape with
  | Some s => size_t (s !!! dim)
  | None => 1
  end.

Definition ArgCounts (dim : nat) : DIMENSION_COUNTS :=
  ComputeOutputCounts (ArgInput dim) (ArgOutput dim) (ArgKernel dim)
    (ArgDilation dim) (ArgPaddingLeft dim) (ArgStride dim).

(** Dimension [dim] of [wb] holds the sanitized values and their counts. *)
Definition DimensionStored (wb : MLAS_NCHWC_WORK_BLOCK) (dim : nat) : Prop :=
  InputShape wb !!! dim = ArgInput dim /\
  OutputShape wb !!! dim = ArgOutput dim /\
  KernelShape wb !!! dim = ArgKernel dim /\
  DilationShape wb !!! dim = ArgDilation dim /\
  Padding wb !!! dim = ArgPaddingLeft dim /\
  Padding wb !!! (dim + Dimensions)%nat = ArgPaddingRight dim /\
  StrideShape wb !!! dim = ArgStride dim /\
  OutputCountLeftPad wb !!! dim = dcLeftPad (ArgCounts dim) /\
  OutputCount wb !!! dim = dcCount (ArgCounts dim) /\
  OutputCountRightPad wb !!! dim = dcRightPad (ArgCounts dim).

End StoredValues.

(** Kernel extent [dim] and padding entry [i] as [MlasNchwcConv] stores
    them for a two-dimensional convolution, from its arguments. *)
Definition StoredKernel (pInputShape : list Z) (pKernelShape : option (list Z))
    (dim : nat) : Z :=
  match pKernelShape with
  | Some k => size_t (k !!! dim)
  | None => size_t (pInputShape !!! (2 + dim)%nat)
  end.

Definition StoredPadding (pPadding : option (list Z)) (i : nat) : Z :=
  match pPadding with
  | Some p => size_t (p !!! i)
  | None => 0
  end.

(** ** Ranges of work *)

(** The first work item and the number of work items of thread [i]. *)
Definition WorkStart (wb : MLAS_NCHWC_WORK_BLOCK) (W i : Z) : Z :=
  (PartitionWork i wb W).1.
Definition WorkCount (wb : MLAS_NCHWC_WORK_BLOCK) (W i : Z) : Z :=
  (PartitionWork i wb W).2.

(** ** Kernel rows *)

(** Number of the rows [s], [s + d], ... ([m] of them) at or beyond [IH]. *)
Fixpoint RowsBeyond (m : nat) (IH d s : Z) : Z :=
  match m with
  | O => 0
  | S m' => (if IH <=? s then 1 else 0) + RowsBeyond m' IH d (s + d)
  end.

(** ** The flag word *)

(** What the flag word of a call made at input-channel index [ic], with
    loop increment [step] and bias argument [bias], has to satisfy: bit 0
    exactly when this is not the first channel step or the output is
    accumulated into; bits 1, 2 and 3 only on the call with
    [ic + step = InputChannels], bit 1 only with a bias pointer, bit 2
    only for ReLU, bit 3 only for a kind that is neither identity nor
    ReLU. *)
Definition FlagsContract (WorkBlock : MLAS_NCHWC_CONV_WORK_BLOCK)
    (ic step : Z) (bias : option Z) (KernelFlags : Z) : Prop :=
  (Z.testbit KernelFlags 0 = true <->
     ic <> 0 \/ ZeroMode WorkBlock = false) /\
  (Z.testbit KernelFlags 1 = true ->
     ic + step = InputChannels (ConvBase WorkBlock) /\ bias <> None) /\
  (Z.testbit KernelFlags 2 = true ->
     ic + step = InputChannels (ConvBase WorkBlock) /\
     WorkBlock_Activation WorkBlock = MlasReluActivation) /\
  (Z.testbit KernelFlags 3 = true ->
     ic + step = InputChannels (ConvBase WorkBlock) /\
     WorkBlock_Activation WorkBlock <> MlasIdentityActivation /\
     WorkBlock_Activation WorkBlock <> MlasReluActivation).

(** A bias pointer of the algorithm is null exactly when the caller's is. *)
Definition BiasAsSupplied (WorkBlock : MLAS_NCHWC_CONV_WORK_BLOCK)
    (bias : option Z) : Prop :=
  bias = None <-> WorkBlock_Bias WorkBlock = None.

Definition EventFlagsContract (WorkBlock : MLAS_NCHWC_CONV_WORK_BLOCK)
    (e : KERNEL_EVENT) : Prop :=
  match e with
  | ConvKernel ic step a =>
      FlagsContract WorkBlock ic step (ck_Bias a) (ck_KernelFlags a) /\
      BiasAsSupplied WorkBlock (ck_Bias a)
  | PointwiseKernel ic step a =>
      FlagsContract WorkBlock ic step (pw_Bias a) (pw_KernelFlags a) /\
      BiasAsSupplied WorkBlock (pw_Bias a)
  | DoActivation _ _ _ => True
  | PoolKernel _ _ _ => True
  end.

(** ** The grouped state machine *)

(** The filter and bias pointers are where the group and the filter set
    say: at the filters and biases of output channel
    [Group * OutputChannels + BlockSize * FilterSetSize * FilterSet]. *)
Definition FirstChannel (BlockSize : Z)
    (WorkBlock : MLAS_NCHWC_CONV_WORK_BLOCK) (st : GROUPED_CONV_STATE) : Z :=
  Group st * OutputChannels (ConvBase WorkBlock)
  + BlockSize * FilterSetSize * FilterSet st.

Definition Positioned (BlockSize : Z)
    (WorkBlock : MLAS_NCHWC_CONV_WORK_BLOCK) (st : GROUPED_CONV_STATE)
    : Prop :=
  let wb := ConvBase WorkBlock in
  Filter st =
    WorkBlock_Filter WorkBlock
    + FirstChannel BlockSize WorkBlock st * InputChannels wb * KernelSize wb /\
  Bias st =
    AdvanceBias (WorkBlock_Bias WorkBlock)
                (FirstChannel BlockSize WorkBlock st) /\
  FilterCount st = ComputeFilterCount BlockSize WorkBlock (FilterSet st) /\
  0 <= FilterSet st < FilterSetCount BlockSize WorkBlock /\
  0 <= Group st < GroupCount WorkBlock.

(** The output row and the work counter of the grouped state machine are
    in range. *)
Definition Progress (WorkBlock : MLAS_NCHWC_CONV_WORK_BLOCK)
    (st : GROUPED_CONV_STATE) : Prop :=
  0 <= ph st < OutputHeight (ConvBase WorkBlock) /\
  0 <= WorkRemaining st < SizeT.modulus.

(** ** The pooling divisor *)

(** An event is a call of the pooling microkernel of the work block's
    kind whose kernel-size argument is [KernelHeight * KernelWidth]. *)
Definition PoolDivisorContract (WorkBlock : MLAS_NCHWC_POOL_WORK_BLOCK)
    (e : KERNEL_EVENT) : Prop :=
  match e with
  | PoolKernel kind row a =>
      kind = PoolingKind WorkBlock /\
      pk_KernelSize a =
        KernelHeight (PoolBase WorkBlock) *% KernelWidth (PoolBase WorkBlock)
  | _ => False
  end.

(** ** Examples *)

(** A work block whose arrays hold zeros. *)
Definition ExampleBlock : MLAS_NCHWC_WORK_BLOCK :=
  {| tids := 1; BatchCount := 0; InputChannels := 0;
     InputShape := [0; 0; 0]; InputSize := 0; OutputChannels := 0;
     OutputShape := [0; 0; 0]; OutputSize := 0;
     KernelShape := [0; 0; 0]; DilationShape := [0; 0; 0];
     Padding := [0; 0; 0; 0; 0; 0]; StrideShape := [0; 0; 0];
     OutputCountLeftPad := [0; 0; 0]; OutputCount := [0; 0; 0];
     OutputCountRightPad := [0; 0; 0] |}.

(** A 9x9 input, a 7x7 kernel, stride 2 and padding 3 on every side: the
    matching output is 5x5. *)
Definition StridedExample : MLAS_NCHWC_WORK_BLOCK :=
  MlasPrepareNchwcWorkBlock ExampleBlock 2 [1; 8; 9; 9] (Some [7; 7]) None
    (Some [3; 3; 3; 3]) (Some [2; 2]) [1; 8; 5; 5].

(** A 5x5 input, a 2x2 kernel with dilation 6, stride 1 and padding 3 on
    every side: the matching output is 5x5. *)
Definition DilatedExample : MLAS_NCHWC_WORK_BLOCK :=
  MlasPrepareNchwcWorkBlock ExampleBlock 2 [1; 8; 5; 5] (Some [2; 2])
    (Some [6; 6]) (Some [3; 3; 3; 3]) (Some [1; 1]) [1; 8; 5; 5].

(** A grouped convolution: 16 input and 16 output channels in 2 groups,
    a 9x9 input, a 7x7 kernel, stride 2, padding 3, with block size 8. *)
Definition GroupedExample : MLAS_NCHWC_CONV_WORK_BLOCK :=
  (MlasNchwcConv 8 1 ExampleBlock 2 [1; 16; 9; 9] (Some [7; 7]) None
     (Some [3; 3; 3; 3]) (Some [2; 2]) [1; 16; 5; 5] 2 0 100000
     (Some 200000) 300000 MlasIdentityActivation true).2.

(** An average pooling with a 7x7 window over [StridedExample]. *)
Definition PoolExample : MLAS_NCHWC_POOL_WORK_BLOCK :=
  {| PoolBase := StridedExample;
     PoolBlock_Input := 0;
     PoolBlock_Output := 100000;
     PoolingKind := MlasAveragePoolingExcludePad |}.

(** ** The arguments of the preprocessor *)

(** An optional array argument that, when supplied, has at least [n]
    entries. *)
Definition HasEntries (n : nat) (p : option (list Z)) : Prop :=
  match p with
  | Some l => (n <= length l)%nat
  | None => True
  end.

(** No stride that the preprocessor divides by is zero. *)
Definition StridesNonzero (Dimensions : nat) (pStrideShape : option (list Z))
    : Prop :=
  match pStrideShape with
  | Some s => ~ In 0 (map size_t (take Dimensions s))
  | None => True
  end.

(** What [MlasPrepareNchwcWorkBlock] needs of its arguments: the arrays of
    the work block hold the [Dimensions] dimensions, every array argument
    has the entries that the loop reads, and no stride is zero. *)
Definition ArgumentsValid (Dimensions : nat) (pInputShape : list Z)
    (pKernelShape pDilationShape pPadding pStrideShape : option (list Z))
    (pOutputShape : list Z) : Prop :=
  (Dimensions <= 3)%nat /\
  (2 + Dimensions <= length pInputShape)%nat /\
  (2 + Dimensions <= length pOutputShape)%nat /\
  HasEntries Dimensions pKernelShape /\
  HasEntries Dimensions pDilationShape /\
  HasEntries (2 * Dimensions) pPadding /\
  HasEntries Dimensions pStrideShape /\
  StridesNonzero Dimensions pStrideShape.

(** ** The sizes and the arrays of a prepared work block *)

(** The product of a list of extents. *)
Definition SizeProduct (l : list Z) : Z := fold_right Z.mul 1 l.

(** The first [n] entries of a work-block array after the preprocessor
    has run, and the array as a whole: the entries from [n] on are the
    caller's. *)
Definition Filled (n : nat) (values old : list Z) : list Z :=
  take n values ++ drop n old.

(** ** Work items and the state of the grouped executors *)

(** The work items [start], [start + 1], ... ([count] of them). *)
Definition WorkItems (start count : Z) : list Z :=
  map (fun k : nat => start + Z.of_nat k) (seq 0 (Z.to_nat count)).

(** The number of work items of a grouped convolution: one per batch
    image, group, filter set and output row. *)
Definition GroupedTotalWork (BlockSize : Z)
    (WorkBlock : MLAS_NCHWC_CONV_WORK_BLOCK) : Z :=
  BatchCount (ConvBase WorkBlock) * GroupCount WorkBlock
  * FilterSetCount BlockSize WorkBlock * OutputHeight (ConvBase WorkBlock).

(** The state of the grouped state machine that stands at work item [w]
    with [remaining] items to go: the output row, the filter set and the
    group are the digits of [w], and the pointers are at the input of the
    image and group, at the filters and biases of the group and filter
    set, and at the output of the image, group and filter set. *)
Definition GroupedStateAt (BlockSize : Z)
    (WorkBlock : MLAS_NCHWC_CONV_WORK_BLOCK) (w remaining : Z)
    : GROUPED_CONV_STATE :=
  let wb := ConvBase WorkBlock in
  let fset := w / OutputHeight wb mod FilterSetCount BlockSize WorkBlock in
  let image := w / OutputHeight wb / FilterSetCount BlockSize WorkBlock in
  let group := image mod GroupCount WorkBlock in
  let first := BlockSize * FilterSetSize * fset in
  {| Input :=
       WorkBlock_Input WorkBlock + image * InputChannels wb * InputSize wb;
     Filter :=
       WorkBlock_Filter WorkBlock
       + (group * OutputChannels wb + first) * InputChannels wb
         * KernelSize wb;
     Bias :=
       AdvanceBias (WorkBlock_Bias WorkBlock)
                   (group * OutputChannels wb + first);
     Output :=
       WorkBlock_Output WorkBlock
       + (image * OutputChannels wb + first) * OutputSize wb;
     ph := w mod OutputHeight wb;
     FilterSet := fset;
     Group := group;
     WorkRemaining := remaining;
     FilterCount := ComputeFilterCount BlockSize WorkBlock fset |}.

(** The tensors of a grouped convolution fit in the address space: the
    shape values are positive, the output channels of a group are
    [Blocks] blocks, and the element counts of the filter, input and
    output tensors and the number of work items are below [2^64]. *)
Definition GroupedShapeFits (BlockSize : Z)
    (WorkBlock : MLAS_NCHWC_CONV_WORK_BLOCK) (Blocks : Z) : Prop :=
  let wb := ConvBase WorkBlock in
  1 <= BlockSize /\ 1 <= Blocks /\
  OutputChannels wb = BlockSize * Blocks /\
  1 <= InputChannels wb /\ 1 <= KernelSize wb /\
  1 <= GroupCount WorkBlock /\ 1 <= BatchCount wb /\
  1 <= OutputHeight wb /\ 1 <= InputSize wb /\ 1 <= OutputSize wb /\
  GroupCount WorkBlock * OutputChannels wb * InputChannels wb * KernelSize wb
    + 4 * BlockSize < SizeT.modulus /\
  BatchCount wb * GroupCount WorkBlock * InputChannels wb * InputSize wb
    < SizeT.modulus /\
  BatchCount wb * GroupCount WorkBlock * OutputChannels wb * OutputSize wb
    < SizeT.modulus /\
  GroupedTotalWork BlockSize WorkBlock < SizeT.modulus.

(** ** Traces by work item *)

(** The calls of one iteration of the NCHW executor. *)
Definition NchwRowCalls (BlockSize : Z)
    (WorkBlock : MLAS_NCHWC_CONV_WORK_BLOCK) (st : GROUPED_CONV_STATE)
    : list KERNEL_EVENT :=
  let wb := ConvBase WorkBlock in
  let ek :=
    ComputeEffectiveKernel wb (ph st) (BlockSize *% KernelWidth wb)
      (Filter st) in
  NchwChannels BlockSize WorkBlock st (ek_ih ek) (ek_EffectiveKernelHeight ek)
    (Output st + BlockSize *% ph st *% OutputWidth wb)
    (Z.to_nat (InputChannels wb)) 0 (Input st) (ek_filter ek).

(** The calls that the NCHW executor makes for work item [w]. *)
Definition NchwCallsFor (BlockSize : Z)
    (WorkBlock : MLAS_NCHWC_CONV_WORK_BLOCK) (w : Z) : list KERNEL_EVENT :=
  NchwRowCalls BlockSize WorkBlock (GroupedStateAt BlockSize WorkBlock w 0).

(** The traces of the threads [0], [1], ... ([Threads] of them), one
    after the other; [None] when a thread does not run to completion. *)
Definition ThreadTraces {Ev : Type} (Execute : Z -> option (list Ev))
    (Threads : Z) : option (list Ev) :=
  fold_right
    (fun Index rest =>
       match Execute Index, rest with
       | Some es, Some others => Some (es ++ others)
       | _, _ => None
       end)
    (Some []) (WorkItems 0 Threads).

(** A convolution of a 3-channel 9x9 image to 8 channels with a 3x3
    kernel, stride 2 and padding 1, with block size 8, a ReLU and two
    threads: the input is not blocked, and the output is 5x5. *)
Definition NchwExample : MLAS_NCHWC_CONV_WORK_BLOCK :=
  (MlasNchwcConv 8 2 ExampleBlock 2 [1; 3; 9; 9] (Some [3; 3]) None
     (Some [1; 1; 1; 1]) (Some [2; 2]) [1; 8; 5; 5] 1 0 100000
     (Some 200000) 300000 MlasReluActivation true).2.

(** The input-channel index of a convolution microkernel call. *)
Definition EventChannel (e : KERNEL_EVENT) : option Z :=
  match e with
  | ConvKernel ic _ _ => Some ic
  | PointwiseKernel ic _ _ => Some ic
  | _ => None
  end.

(** ** The states and calls of the pooling and depthwise loops *)

(** *** Pooling *)

(** The number of work items of a pooling: one per block of batch and
    channel and output row. *)
Definition PoolTotalWork (BlockSize : Z)
    (WorkBlock : MLAS_NCHWC_POOL_WORK_BLOCK) : Z :=
  let wb := PoolBase WorkBlock in
  (BatchCount wb * InputChannels wb + BlockSize - 1) / BlockSize
  * OutputHeight wb.

(** The state of the pooling loop that stands at work item [w]. *)
Definition PoolStateAt (BlockSize : Z)
    (WorkBlock : MLAS_NCHWC_POOL_WORK_BLOCK) (w remaining : Z) : POOL_STATE :=
  let wb := PoolBase WorkBlock in
  {| pool_ph := w mod OutputHeight wb;
     pool_Input :=
       PoolBlock_Input WorkBlock
       + w / OutputHeight wb * BlockSize * InputSize wb;
     pool_Output :=
       PoolBlock_Output WorkBlock + w * BlockSize * OutputWidth wb;
     pool_WorkRemaining := remaining |}.

(** The call of one iteration of the pooling loop. *)
Definition PoolRowCalls (BlockSize : Z)
    (WorkBlock : MLAS_NCHWC_POOL_WORK_BLOCK) (st : POOL_STATE)
    : list KERNEL_EVENT :=
  match PoolBody BlockSize WorkBlock st with
  | Some (_, es) => es
  | None => []
  end.

(** The call that the pooling executor makes for work item [w]. *)
Definition PoolCallsFor (BlockSize : Z)
    (WorkBlock : MLAS_NCHWC_POOL_WORK_BLOCK) (w : Z) : list KERNEL_EVENT :=
  PoolRowCalls BlockSize WorkBlock (PoolStateAt BlockSize WorkBlock w 0).

(** The tensors of a pooling fit in the address space. *)
Definition PoolShapeFits (BlockSize : Z)
    (WorkBlock : MLAS_NCHWC_POOL_WORK_BLOCK) : Prop :=
  let wb := PoolBase WorkBlock in
  let Blocks := (BatchCount wb * InputChannels wb + BlockSize - 1) / BlockSize in
  1 <= BlockSize /\ 0 <= BatchCount wb /\ 0 <= InputChannels wb /\
  1 <= OutputHeight wb /\ 1 <= InputSize wb /\ 1 <= OutputWidth wb /\
  BatchCount wb * InputChannels wb + BlockSize < SizeT.modulus /\
  Blocks * BlockSize * InputSize wb < SizeT.modulus /\
  PoolTotalWork BlockSize WorkBlock * BlockSize * OutputWidth wb
    < SizeT.modulus.

(** The average pooling of [PoolExample], as [MlasNchwcPool] hands it to
    two threads. *)
Definition ThreadedPoolExample : MLAS_NCHWC_POOL_WORK_BLOCK :=
  (MlasNchwcPool 2 ExampleBlock MlasAveragePoolingExcludePad 2 [1; 8; 9; 9]
     (Some [7; 7]) None (Some [3; 3; 3; 3]) (Some [2; 2]) [1; 8; 5; 5]
     0 100000).2.

(** *** Depthwise convolution *)

(** The number of work items of a depthwise convolution: one per batch
    image, block of groups and output row. *)
Definition DepthwiseTotalWork (BlockSize : Z)
    (WorkBlock : MLAS_NCHWC_CONV_WORK_BLOCK) : Z :=
  BatchCount (ConvBase WorkBlock) * GroupBlockCount BlockSize WorkBlock
  * OutputHeight (ConvBase WorkBlock).

(** The state of the depthwise loop that stands at work item [w]. *)
Definition DepthwiseStateAt (BlockSize : Z)
    (WorkBlock : MLAS_NCHWC_CONV_WORK_BLOCK) (w remaining : Z)
    : DEPTHWISE_STATE :=
  let wb := ConvBase WorkBlock in
  let image := w / OutputHeight wb in
  let group := image mod GroupBlockCount BlockSize WorkBlock in
  {| dws_ph := w mod OutputHeight wb;
     dws_Group := group;
     dws_Input := WorkBlock_Input WorkBlock + image * BlockSize * InputSize wb;
     dws_Output := WorkBlock_Output WorkBlock + w * BlockSize * OutputWidth wb;
     dws_Filter :=
       WorkBlock_Filter WorkBlock + group * BlockSize * KernelSize wb;
     dws_Bias := AdvanceBias (WorkBlock_Bias WorkBlock) (BlockSize * group);
     dws_WorkRemaining := remaining |}.

(** The calls that the depthwise executor makes for work item [w]. *)
Definition DepthwiseCallsFor (BlockSize : Z)
    (WorkBlock : MLAS_NCHWC_CONV_WORK_BLOCK) (w : Z)
    : list DEPTHWISE_EVENT :=
  DepthwiseCalls BlockSize WorkBlock
    (DepthwiseStateAt BlockSize WorkBlock w 0).

(** The tensors of a depthwise convolution fit in the address space. *)
Definition DepthwiseShapeFits (BlockSize : Z)
    (WorkBlock : MLAS_NCHWC_CONV_WORK_BLOCK) : Prop :=
  let wb := ConvBase WorkBlock in
  let Blocks := GroupBlockCount BlockSize WorkBlock in
  1 <= BlockSize /\ 1 <= GroupCount WorkBlock /\ 0 <= BatchCount wb /\
  1 <= OutputHeight wb /\ 1 <= InputSize wb /\ 1 <= OutputWidth wb /\
  1 <= KernelSize wb /\
  GroupCount WorkBlock + BlockSize < SizeT.modulus /\
  Blocks * BlockSize * KernelSize wb < SizeT.modulus /\
  BatchCount wb * Blocks * BlockSize * InputSize wb < SizeT.modulus /\
  DepthwiseTotalWork BlockSize WorkBlock * BlockSize * OutputWidth wb
    < SizeT.modulus.

(** A depthwise convolution: 16 groups of one input and one output
    channel, a 9x9 input, a 3x3 kernel, stride 1, padding 1, with block
    size 8, a ReLU and two threads. *)
Definition DepthwiseExample : MLAS_NCHWC_CONV_WORK_BLOCK :=
  (MlasNchwcConv 8 2 ExampleBlock 2 [1; 16; 9; 9] (Some [3; 3]) None
     (Some [1; 1; 1; 1]) (Some [1; 1]) [1; 16; 9; 9] 16 0 100000
     (Some 200000) 300000 MlasReluActivation true).2.

(** What a call of the depthwise executor has to satisfy: each flag bit
    says exactly what it stands for, and the activation call is made for
    one filter block, for an activation that the microkernel does not
    fuse. *)
Definition DepthwiseEventContract (WorkBlock : MLAS_NCHWC_CONV_WORK_BLOCK)
    (e : DEPTHWISE_EVENT) : Prop :=
  let kind := WorkBlock_Activation WorkBlock in
  match e with
  | DepthwiseKernel row a =>
      (Z.testbit (dw_KernelFlags a) 0 = true <-> ZeroMode WorkBlock = false) /\
      (Z.testbit (dw_KernelFlags a) 1 = true <-> dw_Bias a <> None) /\
      (Z.testbit (dw_KernelFlags a) 2 = true <-> kind = MlasReluActivation) /\
      (Z.testbit (dw_KernelFlags a) 3 = true <->
         kind <> MlasIdentityActivation /\ kind <> MlasReluActivation) /\
      0 <= dw_KernelFlags a < 16 /\
      BiasAsSupplied WorkBlock (dw_Bias a)
  | DepthwiseActivation _ FilterCountV _ =>
      FilterCountV = 1 /\
      kind <> MlasIdentityActivation /\ kind <> MlasReluActivation
  end.

(** ** The flag word, bit by bit *)

(** The flag word of a call made at input-channel index [ic] with loop
    increment [step] and bias argument [bias], bit by bit: every bit is
    set exactly when its condition holds, and no other bit is set. *)
Definition FlagsExact (WorkBlock : MLAS_NCHWC_CONV_WORK_BLOCK)
    (ic step : Z) (bias : option Z) (KernelFlags : Z) : Prop :=
  let final := ic + step = InputChannels (ConvBase WorkBlock) in
  let kind := WorkBlock_Activation WorkBlock in
  (Z.testbit KernelFlags 0 = true <->
     ic <> 0 \/ ZeroMode WorkBlock = false) /\
  (Z.testbit KernelFlags 1 = true <-> final /\ bias <> None) /\
  (Z.testbit KernelFlags 2 = true <-> final /\ kind = MlasReluActivation) /\
  (Z.testbit KernelFlags 3 = true <->
     final /\ kind <> MlasIdentityActivation /\ kind <> MlasReluActivation) /\
  0 <= KernelFlags < 16.

(** What an event of a grouped executor has to satisfy for the flag word
    to be exact: a microkernel call carries the exact flag word and the
    caller's bias pointer or none, and [MlasActivation] is called only for
    an activation that the microkernel does not fuse. *)
Definition EventFlagsExact (WorkBlock : MLAS_NCHWC_CONV_WORK_BLOCK)
    (e : KERNEL_EVENT) : Prop :=
  match e with
  | ConvKernel ic step a =>
      FlagsExact WorkBlock ic step (ck_Bias a) (ck_KernelFlags a) /\
      BiasAsSupplied WorkBlock (ck_Bias a)
  | PointwiseKernel ic step a =>
      FlagsExact WorkBlock ic step (pw_Bias a) (pw_KernelFlags a) /\
      BiasAsSupplied WorkBlock (pw_Bias a)
  | DoActivation _ _ _ =>
      WorkBlock_Activation WorkBlock <> MlasIdentityActivation /\
      WorkBlock_Activation WorkBlock <> MlasReluActivation
  | PoolKernel _ _ _ => False
  end.

(** * Properties *)

Ltac by_computation :=
  first [ lia | vm_compute; repeat split; first [ congruence | lia ] ].

(** ** Arithmetic modulo [2^64] *)

Lemma modulus_eq : SizeT.modulus = 18446744073709551616.
Proof. reflexivity. Qed.

Lemma wrap_range x : 0 <= SizeT.wrap x < SizeT.modulus.
Proof. unfold SizeT.wrap. apply Z.mod_pos_bound. rewrite modulus_eq. lia. Qed.

Lemma wrap_small x : 0 <= x < SizeT.modulus -> SizeT.wrap x = x.
Proof. intros H. unfold SizeT.wrap. now apply Z.mod_small. Qed.

Lemma wrap_shift x k : SizeT.wrap (x + k * SizeT.modulus) = SizeT.wrap x.
Proof. unfold SizeT.wrap. apply Z_mod_plus_full. Qed.

Lemma wrap_borrow x :
  - SizeT.modulus <= x < 0 -> SizeT.wrap x = x + SizeT.modulus.
Proof.
  intros H. rewrite <- (wrap_shift x 1). apply wrap_small. lia.
Qed.

Lemma wrap_carry x :
  SizeT.modulus <= x < 2 * SizeT.modulus -> SizeT.wrap x = x - SizeT.modulus.
Proof.
  intros H. rewrite <- (wrap_shift x (-1)). apply wrap_small. lia.
Qed.

Lemma wrap_decompose x : exists k, SizeT.wrap x = x + k * SizeT.modulus.
Proof.
  exists (- (x / SizeT.modulus)). unfold SizeT.wrap.
  rewrite Z.mod_eq by (rewrite modulus_eq; lia). lia.
Qed.

Lemma wrap_wrap x : SizeT.wrap (SizeT.wrap x) = SizeT.wrap x.
Proof. apply wrap_small, wrap_range. Qed.

Lemma wrap_add_l x y : SizeT.wrap (SizeT.wrap x + y) = SizeT.wrap (x + y).
Proof.
  destruct (wrap_decompose x) as [k ->].
  replace (x + k * SizeT.modulus + y) with (x + y + k * SizeT.modulus) by lia.
  apply wrap_shift.
Qed.

Lemma div_range a b :
  0 <= a < SizeT.modulus -> 0 < b -> 0 <= a / b < SizeT.modulus.
Proof.
  intros Ha Hb. split.
  - apply Z.div_pos; lia.
  - apply Z.le_lt_trans with a; [|lia]. apply Z.div_le_upper_bound; nia.
Qed.

Lemma wrap_cases x :
  - SizeT.modulus <= x < 2 * SizeT.modulus ->
  (x < 0 /\ SizeT.wrap x = x + SizeT.modulus) \/
  (0 <= x < SizeT.modulus /\ SizeT.wrap x = x) \/
  (SizeT.modulus <= x /\ SizeT.wrap x = x - SizeT.modulus).
Proof.
  intros H.
  destruct (Z_lt_dec x 0); [left; split; [lia | apply wrap_borrow; lia] |].
  destruct (Z_lt_dec x SizeT.modulus);
    [right; left; split; [lia | apply wrap_small; lia] |].
  right; right; split; [lia | apply wrap_carry; lia].
Qed.

Lemma div_bounds a b : 0 <= a -> 0 < b -> b * (a / b) <= a < b * (a / b) + b.
Proof.
  intros Ha Hb. pose proof (Z.mul_div_le a b Hb).
  pose proof (Z.mul_succ_div_gt a b Hb). lia.
Qed.

Lemma SpanValue_range DH KH : SizeT.InRange (SpanValue DH KH).
Proof. apply wrap_range. Qed.

Lemma OutputCountInterior_range IH Span SH :
  SizeT.InRange (OutputCountInterior IH Span SH).
Proof.
  unfold OutputCountInterior. destruct (Span <=? IH).
  - apply wrap_range.
  - unfold SizeT.InRange. rewrite modulus_eq. lia.
Qed.

Lemma OutputCountWithLeftPad_range IH OH Span PL SH :
  SizeT.InRange OH -> SizeT.InRange (OutputCountWithLeftPad IH OH Span PL SH).
Proof.
  intros H. unfold OutputCountWithLeftPad. destruct (Span <=? _).
  - apply wrap_range.
  - exact H.
Qed.

(** The interior count is zero only when the span does not fit, apart from
    a single wrap-around of the [+ 1]. *)
Lemma OutputCountInterior_zero IH Span SH :
  SizeT.InRange IH -> SizeT.InRange Span -> 1 <= SH ->
  OutputCountInterior IH Span SH = 0 ->
  IH < Span \/ (IH = SizeT.modulus - 1 /\ Span = 0 /\ SH = 1).
Proof.
  unfold SizeT.InRange, OutputCountInterior. intros HI HS Hs.
  destruct (Z.leb_spec Span IH) as [Hle|Hlt]; [|lia].
  unfold SizeT.sub, SizeT.add. rewrite (wrap_small (IH - Span)) by lia.
  pose proof (div_bounds (IH - Span) SH ltac:(lia) ltac:(lia)) as Hq.
  assert (0 <= (IH - Span) / SH <= IH - Span) by nia.
  destruct (wrap_cases ((IH - Span) / SH + 1)) as [[? ->]|[[? ->]|[? ->]]];
    try lia.
  intros Hz. right.
  assert (SH = 1) by (pose proof modulus_eq; nia). subst SH. lia.
Qed.

Lemma OutputCountWithLeftPad_zero IH OH Span PL SH :
  SizeT.InRange IH -> SizeT.InRange Span -> SizeT.InRange PL -> 1 <= SH ->
  1 <= OH ->
  OutputCountWithLeftPad IH OH Span PL SH = 0 ->
  IH +% PL = SizeT.modulus - 1 /\ Span = 0 /\ SH = 1.
Proof.
  unfold SizeT.InRange, OutputCountWithLeftPad. intros HI HS HP Hs HO.
  pose proof (wrap_range (IH + PL)) as Hr. fold (IH +% PL) in Hr.
  destruct (Z.leb_spec Span (IH +% PL)) as [Hle|Hlt]; [|lia].
  unfold SizeT.sub at 1. unfold SizeT.add at 1.
  rewrite (wrap_small (IH +% PL - Span)) by lia.
  pose proof (div_bounds (IH +% PL - Span) SH ltac:(lia) ltac:(lia)) as Hq.
  assert (0 <= (IH +% PL - Span) / SH <= IH +% PL - Span) by nia.
  destruct (wrap_cases ((IH +% PL - Span) / SH + 1))
    as [[? ->]|[[? ->]|[? ->]]];
    try lia.
  intros Hz.
  assert (SH = 1) by (pose proof modulus_eq; nia). subst SH. lia.
Qed.

Lemma sub_zero_eq a b :
  SizeT.InRange a -> SizeT.InRange b -> a -% b = 0 -> a = b.
Proof.
  unfold SizeT.InRange, SizeT.sub. intros Ha Hb.
  destruct (wrap_cases (a - b)) as [[? ->]|[[? ->]|[? ->]]]; lia.
Qed.

Lemma FixupTaken_true L PL : FixupTaken L PL = true <-> L = 0 /\ 0 < PL.
Proof.
  unfold FixupTaken. rewrite andb_true_iff, Z.eqb_eq, Z.ltb_lt. tauto.
Qed.

(** The fix-up of one dimension: when the branch runs the interior count
    is at least 1, so its decrement stays in range. *)
Lemma ComputeOutputCounts_fixup IH OH KH DH PL SH :
  SizeT.InRange IH -> SizeT.InRange OH -> SizeT.InRange PL ->
  1 <= SH -> 1 <= OH ->
  let Span := SpanValue DH KH in
  let Count0 := OutputCountInterior IH Span SH in
  let WithLeftPad := OutputCountWithLeftPad IH OH Span PL SH in
  FixupTaken (WithLeftPad -% Count0) PL = true ->
  1 <= Count0 /\
  dcCount (ComputeOutputCounts IH OH KH DH PL SH) = Count0 - 1 /\
  0 <= dcCount (ComputeOutputCounts IH OH KH DH PL SH).
Proof.
  intros HI HO HP Hs HO1 Span Count0 WithLeftPad Hfix.
  pose proof (SpanValue_range DH KH) as HS. fold Span in HS.
  pose proof (OutputCountInterior_range IH Span SH) as HC. fold Count0 in HC.
  pose proof (OutputCountWithLeftPad_range IH OH Span PL SH HO) as HW.
  fold WithLeftPad in HW.
  apply FixupTaken_true in Hfix as Hfix'. destruct Hfix' as [Hz Hpl].
  apply sub_zero_eq in Hz; [|assumption..].
  assert (Hpos : 1 <= Count0).
  { destruct (Z.eq_dec Count0 0) as [Hc0|]; [|unfold SizeT.InRange in HC; lia].
    exfalso.
    assert (Hw0 : WithLeftPad = 0) by lia.
    apply OutputCountWithLeftPad_zero in Hw0 as (Hsum & Hsp & Hst);
      [|assumption..].
    apply OutputCountInterior_zero in Hc0 as [Hlt|(Hih & _ & _)];
      [| |assumption..].
    - unfold SizeT.InRange in HI. lia.
    - unfold SizeT.add in Hsum. unfold SizeT.InRange in HP.
      destruct (wrap_cases (IH + PL)) as [[? E]|[[? E]|[? E]]]; lia. }
  unfold ComputeOutputCounts. fold Span Count0 WithLeftPad. rewrite Hfix.
  cbn [dcCount]. unfold SizeT.sub. rewrite wrap_small.
  - lia.
  - unfold SizeT.InRange in HC. lia.
Qed.

(** ** What [MlasPrepareNchwcWorkBlock] stores *)

Section PrepareStored.

Variable Dimensions : nat.
Variables pInputShape pOutputShape : list Z.
Variables pKernelShape pDilationShape pPadding pStrideShape : option (list Z).

Local Abbreviation Stored :=
  (DimensionStored Dimensions pInputShape pOutputShape pKernelShape
     pDilationShape pPadding pStrideShape).

Let step :=
  PrepareDimension Dimensions pInputShape pKernelShape pDilationShape
    pPadding pStrideShape pOutputShape.

Lemma PrepareDimension_shaped st dim :
  WorkBlockShaped st.1.1 -> WorkBlockShaped (step st dim).1.1.
Proof.
  destruct st as [[wb a] b]. unfold WorkBlockShaped, step, PrepareDimension.
  cbn. rewrite !length_insert. tauto.
Qed.

Lemma PrepareDimension_channels st dim :
  BatchCount (step st dim).1.1 = BatchCount st.1.1 /\
  InputChannels (step st dim).1.1 = InputChannels st.1.1 /\
  OutputChannels (step st dim).1.1 = OutputChannels st.1.1 /\
  tids (step st dim).1.1 = tids st.1.1.
Proof. destruct st as [[wb a] b]. cbn. tauto. Qed.

Lemma PrepareDimension_stored st dim :
  WorkBlockShaped st.1.1 -> (dim < Dimensions <= 3)%nat ->
  Stored (step st dim).1.1 dim.
Proof.
  destruct st as [[wb a] b]. unfold WorkBlockShaped. cbn [fst].
  intros (H1 & H2 & H3 & H4 & H5 & H6 & H7 & H8 & H9) Hd.
  unfold DimensionStored, step, PrepareDimension. cbn.
  rewrite !list_lookup_total_insert_eq by (rewrite ?length_insert; lia).
  rewrite list_lookup_total_insert_ne by lia.
  rewrite !list_lookup_total_insert_eq by lia.
  repeat split; reflexivity.
Qed.

Lemma PrepareDimension_kept st dim d :
  (d < dim)%nat -> (dim < Dimensions)%nat ->
  Stored st.1.1 d -> Stored (step st dim).1.1 d.
Proof.
  destruct st as [[wb a] b]. cbn [fst]. intros Hd Hdim.
  unfold DimensionStored, step, PrepareDimension. cbn.
  rewrite !list_lookup_total_insert_ne by lia. tauto.
Qed.

Lemma Prepare_loop_invariant st0 k :
  WorkBlockShaped st0.1.1 -> (k <= Dimensions <= 3)%nat ->
  let st := fold_left step (seq 0 k) st0 in
  WorkBlockShaped st.1.1 /\
  (forall d, (d < k)%nat -> Stored st.1.1 d) /\
  BatchCount st.1.1 = BatchCount st0.1.1 /\
  InputChannels st.1.1 = InputChannels st0.1.1 /\
  OutputChannels st.1.1 = OutputChannels st0.1.1 /\
  tids st.1.1 = tids st0.1.1.
Proof.
  intros Hshape. induction k as [|k IH]; intros Hk; cbn zeta.
  - cbn. split; [assumption|]. split; [intros d Hd; lia | tauto].
  - rewrite seq_S, fold_left_app. cbn [fold_left Nat.add].
    cbn zeta in IH. destruct IH as (IHs & IHd & IHc); [lia|].
    set (st := fold_left step (seq 0 k) st0) in *.
    split; [now apply PrepareDimension_shaped|]. split.
    + intros d Hd. destruct (Nat.eq_dec d k) as [->|Hne].
      * apply PrepareDimension_stored; [assumption|lia].
      * apply PrepareDimension_kept; [lia|lia|]. apply IHd. lia.
    + pose proof (PrepareDimension_channels st k). intuition congruence.
Qed.

End PrepareStored.

Lemma MlasPrepareNchwcWorkBlock_stored WorkBlock Dimensions pInputShape
    pKernelShape pDilationShape pPadding pStrideShape pOutputShape dim :
  WorkBlockShaped WorkBlock -> (dim < Dimensions <= 3)%nat ->
  let wb :=
    MlasPrepareNchwcWorkBlock WorkBlock Dimensions pInputShape pKernelShape
      pDilationShape pPadding pStrideShape pOutputShape in
  DimensionStored Dimensions (drop 2 pInputShape) (drop 2 pOutputShape)
    pKernelShape pDilationShape pPadding pStrideShape wb dim /\
  BatchCount wb = size_t (pInputShape !!! 0%nat) /\
  InputChannels wb = size_t (pInputShape !!! 1%nat) /\
  OutputChannels wb = size_t (pOutputShape !!! 1%nat).
Proof.
  intros Hs Hd. unfold MlasPrepareNchwcWorkBlock.
  match goal with
  | |- context [fold_left ?f (seq 0 Dimensions) ?s0] =>
      pose proof (Prepare_loop_invariant Dimensions (drop 2 pInputShape)
                    (drop 2 pOutputShape) pKernelShape pDilationShape
                    pPadding pStrideShape s0 Dimensions) as Hinv;
      destruct (fold_left f (seq 0 Dimensions) s0) as [[wb a] b] eqn:E
  end.
  cbn zeta in Hinv. cbn [fst] in Hinv.
  destruct Hinv as (_ & Hst & Hb & Hi & Ho & _); [exact Hs | lia |].
  cbn in Hb, Hi, Ho. cbn zeta. split; [|cbn; auto].
  specialize (Hst dim ltac:(lia)). unfold DimensionStored in *. cbn. exact Hst.
Qed.

(** ** The three counts of one dimension *)

Lemma SpanValue_exact DH KH :
  1 <= KH < SizeT.modulus -> 0 <= DH ->
  DH * (KH - 1) + 1 < SizeT.modulus ->
  SpanValue DH KH = DH * (KH - 1) + 1.
Proof.
  intros HK HD Hlt. unfold SpanValue, SizeT.add, SizeT.mul, SizeT.sub.
  rewrite (wrap_small (KH - 1)) by lia.
  rewrite (wrap_small (DH * (KH - 1))) by nia.
  apply wrap_small. nia.
Qed.

Lemma OutputCountInterior_exact IH Span SH :
  0 <= IH < SizeT.modulus -> 1 <= Span -> 1 <= SH ->
  OutputCountInterior IH Span SH =
  if Span <=? IH then (IH - Span) / SH + 1 else 0.
Proof.
  intros HI HS Hs. unfold OutputCountInterior.
  destruct (Z.leb_spec Span IH) as [Hle|Hlt]; [|reflexivity].
  unfold SizeT.sub, SizeT.add. rewrite (wrap_small (IH - Span)) by lia.
  pose proof (div_bounds (IH - Span) SH ltac:(lia) ltac:(lia)).
  apply wrap_small. nia.
Qed.

Lemma OutputCountWithLeftPad_exact IH OH Span PL SH :
  0 <= IH -> 0 <= PL -> IH + PL < SizeT.modulus -> 1 <= Span -> 1 <= SH ->
  OutputCountWithLeftPad IH OH Span PL SH =
  if Span <=? IH + PL then (IH + PL - Span) / SH + 1 else OH.
Proof.
  intros HI HP Hlt HS Hs. unfold OutputCountWithLeftPad.
  unfold SizeT.add, SizeT.sub. rewrite !(wrap_small (IH + PL)) by lia.
  destruct (Z.leb_spec Span (IH + PL)) as [Hle|Hgt]; [|reflexivity].
  rewrite (wrap_small (IH + PL - Span)) by lia.
  pose proof (div_bounds (IH + PL - Span) SH ltac:(lia) ltac:(lia)).
  apply wrap_small. nia.
Qed.

(** In machine arithmetic the three counts always add up to the output
    length. *)
Lemma ComputeOutputCounts_sum_wrapped IH OH KH DH PL SH :
  SizeT.InRange OH ->
  let c := ComputeOutputCounts IH OH KH DH PL SH in
  SizeT.wrap (dcLeftPad c + dcCount c + dcRightPad c) = OH /\
  0 <= dcLeftPad c /\ 0 <= dcCount c /\ 0 <= dcRightPad c.
Proof.
  intros HO. unfold ComputeOutputCounts.
  set (Span := SpanValue DH KH).
  set (C0 := OutputCountInterior IH Span SH).
  set (W := OutputCountWithLeftPad IH OH Span PL SH).
  destruct (FixupTaken (W -% C0) PL) eqn:Hfix; cbn.
  - apply FixupTaken_true in Hfix as [Hz _]. unfold SizeT.sub in *.
    pose proof (wrap_range (C0 - 1)). pose proof (wrap_range (OH - W)).
    split; [|lia].
    destruct (wrap_decompose (W - C0)) as [k1 E1].
    destruct (wrap_decompose (C0 - 1)) as [k2 E2].
    destruct (wrap_decompose (OH - W)) as [k3 E3].
    rewrite E2, E3.
    replace (1 + (C0 - 1 + k2 * SizeT.modulus) + (OH - W + k3 * SizeT.modulus))
      with (OH + (k1 + k2 + k3) * SizeT.modulus) by lia.
    rewrite wrap_shift. now apply wrap_small.
  - unfold SizeT.sub in *.
    pose proof (wrap_range (W - C0)). pose proof (wrap_range (OH - W)).
    pose proof (OutputCountInterior_range IH Span SH) as HC. fold C0 in HC.
    unfold SizeT.InRange in HC. split; [|lia].
    destruct (wrap_decompose (W - C0)) as [k1 E1].
    destruct (wrap_decompose (OH - W)) as [k3 E3].
    rewrite E1, E3.
    replace (W - C0 + k1 * SizeT.modulus + C0 + (OH - W + k3 * SizeT.modulus))
      with (OH + (k1 + k3) * SizeT.modulus) by lia.
    rewrite wrap_shift. now apply wrap_small.
Qed.

(** When the dilated kernel fits in the padded input and the output length
    is the matching one, nothing wraps and the counts add up exactly. *)
Lemma ComputeOutputCounts_sum_exact IH OH KH DH PL PR SH :
  0 <= IH -> 1 <= KH < SizeT.modulus -> 1 <= DH -> 1 <= SH ->
  0 <= PL -> 0 <= PR ->
  IH + PL + PR < SizeT.modulus ->
  DH * (KH - 1) + 1 <= IH + PL + PR ->
  OH = MatchingOutput IH PL PR (DH * (KH - 1) + 1) SH ->
  let c := ComputeOutputCounts IH OH KH DH PL SH in
  dcLeftPad c + dcCount c + dcRightPad c = OH /\
  dcLeftPad c <= OH /\ dcCount c <= OH /\ dcRightPad c <= OH.
Proof.
  intros HI HK HD Hs HP HR Hlt Hfit ->. unfold ComputeOutputCounts.
  rewrite SpanValue_exact by lia.
  set (Span := DH * (KH - 1) + 1) in *.
  assert (HS : 1 <= Span) by (unfold Span; nia).
  rewrite OutputCountInterior_exact by lia.
  rewrite OutputCountWithLeftPad_exact by lia.
  unfold MatchingOutput.
  pose proof (div_bounds (IH + PL + PR - Span) SH ltac:(lia) ltac:(lia)) as B3.
  set (q3 := (IH + PL + PR - Span) / SH) in *.
  assert (Hq3 : 0 <= q3 /\ q3 + 1 < SizeT.modulus) by nia.
  destruct (Z.leb_spec Span (IH + PL)) as [Hle2|Hgt2].
  - pose proof (div_bounds (IH + PL - Span) SH ltac:(lia) ltac:(lia)) as B2.
    set (q2 := (IH + PL - Span) / SH) in *.
    assert (Hq2 : 0 <= q2 <= q3) by nia.
    destruct (Z.leb_spec Span IH) as [Hle1|Hgt1].
    + pose proof (div_bounds (IH - Span) SH ltac:(lia) ltac:(lia)) as B1.
      set (q1 := (IH - Span) / SH) in *.
      assert (Hq1 : 0 <= q1 <= q2) by nia.
      unfold SizeT.sub. rewrite !(wrap_small (q2 + 1 - (q1 + 1))) by lia.
      destruct (FixupTaken _ PL) eqn:Hfix;
        [apply FixupTaken_true in Hfix|];
        cbn [dcLeftPad dcCount dcRightPad]; unfold SizeT.sub;
        rewrite !wrap_small by lia; lia.
    + unfold SizeT.sub. rewrite !(wrap_small (q2 + 1 - 0)) by lia.
      unfold FixupTaken. replace (q2 + 1 - 0 =? 0) with false
        by (symmetry; apply Z.eqb_neq; lia).
      cbn [andb dcLeftPad dcCount dcRightPad]. unfold SizeT.sub.
      rewrite !wrap_small by lia. lia.
  - destruct (Z.leb_spec Span IH) as [Hle1|Hgt1]; [lia|].
    unfold SizeT.sub. rewrite !(wrap_small (q3 + 1 - 0)) by lia.
    unfold FixupTaken. replace (q3 + 1 - 0 =? 0) with false
      by (symmetry; apply Z.eqb_neq; lia).
    cbn [andb dcLeftPad dcCount dcRightPad]. unfold SizeT.sub.
    rewrite !wrap_small by lia. lia.
Qed.

Lemma size_t_range x : SizeT.InRange (size_t x).
Proof. apply wrap_range. Qed.

Lemma add_add_wrap a b c : a +% b +% c = SizeT.wrap (a + b + c).
Proof. unfold SizeT.add. apply wrap_add_l. Qed.

(** ** The partition of the output positions *)

(** C2.  For every dimension [dim] that [MlasPrepareNchwcWorkBlock] fills,
    the three stored counts add up to the stored output length in
    [size_t] arithmetic and none is negative.  When moreover the dilated
    kernel fits in the padded input and the output length is the matching
    one, [floor((IH + PL + PR - Span)/SH) + 1], no operation of the
    computation wraps: the sum is exact and every count is between 0 and
    the output length, also when the fix-up branch has run. *)
Theorem PartitionSum WorkBlock Dimensions pInputShape pKernelShape
    pDilationShape pPadding pStrideShape pOutputShape dim :
  WorkBlockShaped WorkBlock -> (dim < Dimensions <= 3)%nat ->
  let wb :=
    MlasPrepareNchwcWorkBlock WorkBlock Dimensions pInputShape pKernelShape
      pDilationShape pPadding pStrideShape pOutputShape in
  let IH := InputShape wb !!! dim in
  let OH := OutputShape wb !!! dim in
  let KH := KernelShape wb !!! dim in
  let DH := DilationShape wb !!! dim in
  let SH := StrideShape wb !!! dim in
  let PL := Padding wb !!! dim in
  let PR := Padding wb !!! (dim + Dimensions)%nat in
  let Lpad := OutputCountLeftPad wb !!! dim in
  let Mid := OutputCount wb !!! dim in
  let Rpad := OutputCountRightPad wb !!! dim in
  1 <= IH -> 1 <= KH -> 1 <= DH -> 1 <= SH -> 0 <= PL -> 0 <= PR ->
  (Lpad +% Mid +% Rpad = OH /\ 0 <= Lpad /\ 0 <= Mid /\ 0 <= Rpad) /\
  (IH + PL + PR < SizeT.modulus ->
   DH * (KH - 1) + 1 <= IH + PL + PR ->
   OH = MatchingOutput IH PL PR (DH * (KH - 1) + 1) SH ->
   Lpad + Mid + Rpad = OH /\ Lpad <= OH /\ Mid <= OH /\ Rpad <= OH).
Proof.
  intros Hshape Hdim wb.
  destruct (MlasPrepareNchwcWorkBlock_stored WorkBlock Dimensions pInputShape
              pKernelShape pDilationShape pPadding pStrideShape pOutputShape
              dim Hshape Hdim) as [Hst _].
  fold wb in Hst.
  destruct Hst as (EI & EO & EK & ED & EPL & EPR & ES & EL & EC & ER).
  intros IH OH KH DH SH PL PR Lpad Mid Rpad HI HK HD HS HPL HPR.
  unfold ArgCounts in EL, EC, ER.
  rewrite <- EI, <- EO, <- EK, <- ED, <- EPL, <- ES in EL, EC, ER.
  fold IH OH KH DH SH PL in EL, EC, ER. fold Lpad in EL. fold Mid in EC.
  fold Rpad in ER. rewrite EL, EC, ER.
  assert (HOr : SizeT.InRange OH)
    by (unfold OH; rewrite EO; apply size_t_range).
  assert (HKr : SizeT.InRange KH).
  { unfold KH. rewrite EK. unfold ArgKernel, ArgInput.
    destruct pKernelShape; apply size_t_range. }
  split.
  - rewrite add_add_wrap.
    apply (ComputeOutputCounts_sum_wrapped IH OH KH DH PL SH HOr).
  - intros Hlt Hfit HOH.
    apply (ComputeOutputCounts_sum_exact IH OH KH DH PL PR SH);
      unfold SizeT.InRange in *; try lia; assumption.
Qed.

Lemma PartitionSum_witness :
  let wb :=
    MlasPrepareNchwcWorkBlock ExampleBlock 2 [1; 8; 5; 5] (Some [3; 3]) None
      (Some [1; 1; 1; 1]) (Some [2; 2]) [1; 8; 3; 3] in
  OutputCountLeftPad wb !!! 0%nat + OutputCount wb !!! 0%nat
    + OutputCountRightPad wb !!! 0%nat = 3.
Proof.
  refine (proj1
    (proj2
      (PartitionSum ExampleBlock 2 [1; 8; 5; 5] (Some [3; 3]) None
         (Some [1; 1; 1; 1]) (Some [2; 2]) [1; 8; 3; 3] 0 _ _ _ _ _ _ _ _)
      _ _ _)); by_computation.
Defined.

(** C9.  For a dimension with a stored output length of at least 1 and a
    nonzero stride: whenever the fix-up branch runs (the left-pad count is
    0 and the left padding is positive), the interior count at that point
    is at least 1, so the decrement does not wrap; the stored left-pad
    count is 1 and the stored interior count is the decremented value,
    which is not negative. *)
Theorem Fixup_decrement_never_wraps WorkBlock Dimensions pInputShape
    pKernelShape pDilationShape pPadding pStrideShape pOutputShape dim :
  WorkBlockShaped WorkBlock -> (dim < Dimensions <= 3)%nat ->
  let wb :=
    MlasPrepareNchwcWorkBlock WorkBlock Dimensions pInputShape pKernelShape
      pDilationShape pPadding pStrideShape pOutputShape in
  let IH := InputShape wb !!! dim in
  let OH := OutputShape wb !!! dim in
  let SH := StrideShape wb !!! dim in
  let PL := Padding wb !!! dim in
  let Span := SpanValue (DilationShape wb !!! dim) (KernelShape wb !!! dim) in
  let Count0 := OutputCountInterior IH Span SH in
  let WithLeftPad := OutputCountWithLeftPad IH OH Span PL SH in
  1 <= SH -> 1 <= OH ->
  FixupTaken (WithLeftPad -% Count0) PL = true ->
  1 <= Count0 /\
  OutputCountLeftPad wb !!! dim = 1 /\
  OutputCount wb !!! dim = Count0 - 1 /\
  0 <= OutputCount wb !!! dim.
Proof.
  intros Hshape Hdim wb.
  destruct (MlasPrepareNchwcWorkBlock_stored WorkBlock Dimensions pInputShape
              pKernelShape pDilationShape pPadding pStrideShape pOutputShape
              dim Hshape Hdim) as [Hst _].
  fold wb in Hst.
  destruct Hst as (EI & EO & EK & ED & EPL & EPR & ES & EL & EC & ER).
  intros IH OH SH PL Span Count0 WithLeftPad HS HO Hfix.
  unfold ArgCounts in EL, EC.
  rewrite <- EI, <- EO, <- EK, <- ED, <- EPL, <- ES in EL, EC.
  fold IH OH SH PL in EL, EC.
  assert (HIr : SizeT.InRange IH)
    by (unfold IH; rewrite EI; apply size_t_range).
  assert (HOr : SizeT.InRange OH)
    by (unfold OH; rewrite EO; apply size_t_range).
  assert (HPr : SizeT.InRange PL).
  { unfold PL. rewrite EPL. unfold ArgPaddingLeft.
    destruct pPadding; [apply size_t_range|]. unfold SizeT.InRange.
    rewrite modulus_eq. lia. }
  destruct (ComputeOutputCounts_fixup IH OH (KernelShape wb !!! dim)
              (DilationShape wb !!! dim) PL SH HIr HOr HPr HS HO Hfix)
    as (H1 & H2 & H3).
  rewrite EC, EL. repeat split; try assumption.
  unfold ComputeOutputCounts. fold Span Count0 WithLeftPad. now rewrite Hfix.
Qed.

Lemma Fixup_decrement_never_wraps_witness :
  let wb :=
    MlasPrepareNchwcWorkBlock ExampleBlock 2 [1; 8; 5; 5] (Some [3; 3]) None
      (Some [1; 1; 1; 1]) (Some [2; 2]) [1; 8; 3; 3] in
  FixupTaken
    (OutputCountWithLeftPad 5 3 (SpanValue 1 3) 1 2
       -% OutputCountInterior 5 (SpanValue 1 3) 2) 1 = true /\
  OutputCount wb !!! 0%nat = 1.
Proof.
  split; [reflexivity|].
  refine (proj1 (proj2 (proj2
    (Fixup_decrement_never_wraps ExampleBlock 2 [1; 8; 5; 5] (Some [3; 3])
       None (Some [1; 1; 1; 1]) (Some [2; 2]) [1; 8; 3; 3] 0 _ _ _ _ _))));
    by_computation.
Defined.

(** ** The with-left-pad count *)

(** C3, as worded, fails.  At [IH = 1], [PL = PR = 1], a 3-row kernel and
    stride 1 the matching output length is 1; the span exceeds [IH + PL],
    the source takes the output length 1, and the worded formula gives 0.
    The stored counts show it: the right-pad count, [OH] minus the
    with-left-pad count, is 0 and the left-pad count is 1. *)
Lemma WithLeftPad_is_not_zero_below_span :
  1 + 1 < SpanValue 1 3 /\
  MatchingOutput 1 1 1 (SpanValue 1 3) 1 = 1 /\
  OutputCountWithLeftPad 1 1 (SpanValue 1 3) 1 1 = 1 /\
  WithLeftPad_spec 1 1 (SpanValue 1 3) 1 1 = 0 /\
  OutputCountWithLeftPad 1 1 (SpanValue 1 3) 1 1
    <> WithLeftPad_spec 1 1 (SpanValue 1 3) 1 1 /\
  let wb :=
    MlasPrepareNchwcWorkBlock ExampleBlock 2 [1; 8; 1; 1] (Some [3; 3]) None
      (Some [1; 1; 1; 1]) (Some [1; 1]) [1; 8; 1; 1] in
  OutputCountLeftPad wb !!! 0%nat = 1 /\
  OutputCount wb !!! 0%nat = 0 /\
  OutputCountRightPad wb !!! 0%nat = 0.
Proof. by_computation. Qed.

(** C3, amended.  When the dilated kernel fits in the padded input and the
    output length is the matching one, the with-left-pad count is
    [floor((IH + PL - Span)/SH) + 1] if [Span <= IH + PL], where it agrees
    with the worded formula, and it is the output length [OH] (not 0) if
    [IH + PL < Span]; it lies between 1 and [OH], so that no clamping is
    applied or needed. *)
Theorem WithLeftPad_value IH OH KH DH PL PR SH :
  0 <= IH -> 1 <= KH < SizeT.modulus -> 1 <= DH -> 1 <= SH ->
  0 <= PL -> 0 <= PR ->
  IH + PL + PR < SizeT.modulus ->
  DH * (KH - 1) + 1 <= IH + PL + PR ->
  OH = MatchingOutput IH PL PR (DH * (KH - 1) + 1) SH ->
  let Span := SpanValue DH KH in
  let W := OutputCountWithLeftPad IH OH Span PL SH in
  Span = DH * (KH - 1) + 1 /\
  (Span <= IH + PL ->
   W = (IH + PL - Span) / SH + 1 /\ W = WithLeftPad_spec IH OH Span PL SH) /\
  (IH + PL < Span -> W = OH /\ WithLeftPad_spec IH OH Span PL SH = 0) /\
  1 <= W <= OH.
Proof.
  intros HI HK HD Hs HP HR Hlt Hfit -> Span W. unfold W, Span.
  rewrite SpanValue_exact by lia.
  set (S0 := DH * (KH - 1) + 1) in *.
  assert (HS : 1 <= S0) by (unfold S0; nia).
  rewrite OutputCountWithLeftPad_exact by lia.
  unfold MatchingOutput, WithLeftPad_spec.
  pose proof (div_bounds (IH + PL + PR - S0) SH ltac:(lia) ltac:(lia)) as B3.
  set (q3 := (IH + PL + PR - S0) / SH) in *.
  assert (Hq3 : 0 <= q3) by nia.
  split; [reflexivity|].
  destruct (Z.leb_spec S0 (IH + PL)) as [Hle|Hgt].
  - pose proof (div_bounds (IH + PL - S0) SH ltac:(lia) ltac:(lia)) as B2.
    set (q2 := (IH + PL - S0) / SH) in *.
    assert (Hq2 : 0 <= q2 <= q3) by nia.
    repeat split; try lia.
  - assert (Hneg : (IH + PL - S0) / SH + 1 <= 0).
    { assert ((IH + PL - S0) / SH < 0); [|lia].
      apply Z.div_lt_upper_bound; lia. }
    repeat split; try lia.
Qed.

Lemma WithLeftPad_value_witness :
  OutputCountWithLeftPad 5 3 (SpanValue 1 3) 1 2 = (5 + 1 - 3) / 2 + 1 /\
  1 <= OutputCountWithLeftPad 5 3 (SpanValue 1 3) 1 2 <= 3.
Proof.
  destruct (WithLeftPad_value 5 3 3 1 1 1 2
              ltac:(by_computation) ltac:(by_computation)
              ltac:(by_computation) ltac:(by_computation)
              ltac:(by_computation) ltac:(by_computation)
              ltac:(by_computation) ltac:(by_computation)
              ltac:(by_computation)) as (HS & Hfit & _ & Hr).
  split; [|exact Hr].
  apply Hfit. by_computation.
Defined.

(** ** The work partitioner *)

Section Partition.

Variable wb : MLAS_NCHWC_WORK_BLOCK.
Variable W : Z.

Hypothesis Threads : 1 <= tids wb < 2 ^ 31.
Hypothesis Work : SizeT.InRange W.

Let T := tids wb.
Let q := W / T.
Let r := W mod T.

Lemma quotient_facts : W = T * q + r /\ 0 <= r < T /\ 0 <= q.
Proof.
  unfold q, r, T. pose proof (Z.div_mod W (tids wb) ltac:(lia)).
  pose proof (Z.mod_pos_bound W (tids wb) ltac:(lia)).
  unfold SizeT.InRange in Work.
  assert (0 <= W / tids wb) by (apply Z.div_pos; lia). lia.
Qed.

Lemma PartitionWork_closed_form i :
  0 <= i < T ->
  PartitionWork i wb W =
  if i <? r then ((q + 1) * i, q + 1) else ((q + 1) * r + q * (i - r), q).
Proof.
  intros Hi. pose proof quotient_facts as (HW & Hr & Hq).
  pose proof modulus_eq as HM. unfold SizeT.InRange in Work.
  unfold PartitionWork, size_t, uint32_t. fold T.
  assert (HT : T < 2 ^ 31) by (unfold T; lia).
  assert (H31 : 2 ^ 31 = 2147483648) by reflexivity.
  assert (H32 : 2 ^ 32 = 4294967296) by reflexivity.
  rewrite (wrap_small T) by lia. rewrite (wrap_small i) by lia.
  rewrite (Z.mod_small i) by lia. fold q r.
  destruct (Z.ltb_spec i r) as [Hlt|Hge].
  - unfold SizeT.mul, SizeT.add.
    assert (q + 1 < SizeT.modulus) by nia.
    rewrite (wrap_small (q + 1)) by lia.
    rewrite wrap_small by nia. reflexivity.
  - unfold SizeT.mul, SizeT.add.
    rewrite (wrap_small (q * i)) by nia.
    rewrite wrap_small by nia. f_equal. lia.
Qed.

Lemma WorkStart_eq i :
  0 <= i < T ->
  WorkStart wb W i = if i <? r then (q + 1) * i else (q + 1) * r + q * (i - r).
Proof.
  intros Hi. unfold WorkStart. rewrite PartitionWork_closed_form by exact Hi.
  now destruct (i <? r).
Qed.

Lemma WorkCount_eq i :
  0 <= i < T -> WorkCount wb W i = if i <? r then q + 1 else q.
Proof.
  intros Hi. unfold WorkCount. rewrite PartitionWork_closed_form by exact Hi.
  now destruct (i <? r).
Qed.

Lemma Work_contiguous i :
  0 <= i < T - 1 ->
  WorkStart wb W (i + 1) = WorkStart wb W i + WorkCount wb W i.
Proof.
  intros Hi. rewrite !WorkStart_eq, WorkCount_eq by lia.
  destruct (Z.ltb_spec (i + 1) r), (Z.ltb_spec i r); lia.
Qed.

Lemma Work_ends_at_total : WorkStart wb W (T - 1) + WorkCount wb W (T - 1) = W.
Proof.
  pose proof quotient_facts as (HW & Hr & Hq).
  rewrite WorkStart_eq, WorkCount_eq by lia.
  destruct (Z.ltb_spec (T - 1) r); nia.
Qed.

Lemma Work_ordered i j :
  0 <= i < j -> j < T ->
  WorkStart wb W i + WorkCount wb W i <= WorkStart wb W j.
Proof.
  intros Hi Hj. pose proof quotient_facts as (HW & Hr & Hq).
  rewrite !WorkStart_eq, WorkCount_eq by lia.
  destruct (Z.ltb_spec i r), (Z.ltb_spec j r); nia.
Qed.

Lemma Work_covered w :
  0 <= w < W ->
  exists i,
    0 <= i < T /\
    WorkStart wb W i <= w < WorkStart wb W i + WorkCount wb W i.
Proof.
  intros Hw. pose proof quotient_facts as (HW & Hr & Hq).
  destruct (Z_lt_dec w ((q + 1) * r)) as [Hlo|Hhi].
  - pose proof (div_bounds w (q + 1) ltac:(lia) ltac:(lia)) as B.
    set (i := w / (q + 1)) in *.
    assert (0 <= i < r) by nia.
    exists i. rewrite WorkStart_eq, WorkCount_eq by lia.
    destruct (Z.ltb_spec i r); [|lia]. nia.
  - assert (Hq1 : 1 <= q) by nia.
    pose proof (div_bounds (w - (q + 1) * r) q ltac:(lia) ltac:(lia)) as B.
    set (k := (w - (q + 1) * r) / q) in *.
    assert (0 <= k < T - r) by nia.
    exists (r + k). rewrite WorkStart_eq, WorkCount_eq by lia.
    destruct (Z.ltb_spec (r + k) r); [lia|]. nia.
Qed.

End Partition.

(** C5.  With [T] threads ([1 <= T < 2^31]) and [W] work items, [q = W / T]
    and [r = W mod T]: thread [i < r] gets [q + 1] items from [(q + 1) * i],
    thread [i >= r] gets [q] items from [(q + 1) * r + q * (i - r)]; the
    ranges start at 0, each begins where the previous one ends, the last
    ends at [W], the ranges of two different threads do not overlap, every
    work item below [W] is in some range, and when [W < T] the threads
    [i >= W] get no work. *)
Theorem PartitionWork_contract (wb : MLAS_NCHWC_WORK_BLOCK) (W : Z) :
  1 <= tids wb < 2 ^ 31 -> SizeT.InRange W ->
  let T := tids wb in
  let q := W / T in
  let r := W mod T in
  (forall i, 0 <= i < T ->
     (i < r -> PartitionWork i wb W = ((q + 1) * i, q + 1)) /\
     (r <= i -> PartitionWork i wb W = ((q + 1) * r + q * (i - r), q))) /\
  WorkStart wb W 0 = 0 /\
  (forall i, 0 <= i < T - 1 ->
     WorkStart wb W (i + 1) = WorkStart wb W i + WorkCount wb W i) /\
  WorkStart wb W (T - 1) + WorkCount wb W (T - 1) = W /\
  (forall i j, 0 <= i < j -> j < T ->
     WorkStart wb W i + WorkCount wb W i <= WorkStart wb W j) /\
  (forall w, 0 <= w < W ->
     exists i, 0 <= i < T /\
       WorkStart wb W i <= w < WorkStart wb W i + WorkCount wb W i) /\
  (W < T -> forall i, W <= i < T -> WorkCount wb W i = 0).
Proof.
  intros HT HW T q r.
  pose proof (quotient_facts wb W HT HW) as (HWeq & Hr & Hq).
  fold T q r in HWeq, Hr, Hq.
  split; [|split; [|split; [|split; [|split; [|split]]]]].
  - intros i Hi. rewrite (PartitionWork_closed_form wb W HT HW i Hi).
    fold T q r. split; intros Hc.
    + destruct (Z.ltb_spec i r); [reflexivity|lia].
    + destruct (Z.ltb_spec i r); [lia|reflexivity].
  - rewrite (WorkStart_eq wb W HT HW 0) by (fold T; lia). fold T q r.
    destruct (Z.ltb_spec 0 r); nia.
  - intros i Hi. now apply Work_contiguous.
  - now apply Work_ends_at_total.
  - intros i j Hi Hj. now apply Work_ordered.
  - intros w Hw. now apply Work_covered.
  - intros Hlt i Hi. rewrite (WorkCount_eq wb W HT HW i) by (fold T; lia).
    fold T q r. unfold SizeT.InRange in HW.
    assert (q = 0) by (unfold q; apply Z.div_small; lia).
    assert (r = W) by (unfold r; apply Z.mod_small; lia).
    destruct (Z.ltb_spec i r); lia.
Qed.

Lemma PartitionWork_contract_witness :
  PartitionWork 1 (SetThreads ExampleBlock 4) 10 = (3, 3) /\
  PartitionWork 3 (SetThreads ExampleBlock 4) 10 = (8, 2).
Proof.
  destruct (PartitionWork_contract (SetThreads ExampleBlock 4) 10
              ltac:(by_computation) ltac:(by_computation)) as (Hform & _).
  split.
  - apply (Hform 1); by_computation.
  - apply (Hform 3); by_computation.
Defined.

(** ** The walk over the kernel rows *)

Lemma wrap_sub_l x y : SizeT.wrap (SizeT.wrap x - y) = SizeT.wrap (x - y).
Proof.
  destruct (wrap_decompose x) as [k ->].
  replace (x + k * SizeT.modulus - y) with (x - y + k * SizeT.modulus) by lia.
  apply wrap_shift.
Qed.

Lemma RowsBeyond_bounds m IH d s : 0 <= RowsBeyond m IH d s <= Z.of_nat m.
Proof.
  revert s. induction m as [|m IHm]; intros s; cbn [RowsBeyond]; [lia|].
  specialize (IHm (s + d)). destruct (IH <=? s); lia.
Qed.

Section Walk.

Variables IH d FS : Z.
Hypothesis IH_range : 0 <= IH < SizeT.modulus.
Hypothesis d_pos : 1 <= d.

(** A row index as the source sees it: negative indices have wrapped. *)
Lemma row_beyond x :
  IH - SizeT.modulus <= x < SizeT.modulus ->
  (IH <=? SizeT.wrap x) = negb ((0 <=? x) && (x <? IH)).
Proof.
  intros Hx.
  destruct (wrap_cases x) as [[H ->]|[[H ->]|[H ->]]]; [lia| | |];
    destruct (Z.leb_spec 0 x), (Z.ltb_spec x IH), (Z.leb_spec IH x);
    cbn; try reflexivity; try lia.
  all: destruct (Z.leb_spec IH (x + SizeT.modulus)); cbn; try reflexivity; lia.
Qed.

(** While every row met so far is outside the input, the input row and
    the filter pointer advance together with the walk. *)
Lemma Walk_leading m : forall n x f K,
  IH - SizeT.modulus <= x ->
  x + Z.of_nat m * d < SizeT.modulus ->
  0 <= K < SizeT.modulus ->
  (forall j, 0 <= j < Z.of_nat m -> ~ 0 <= x + j * d < IH) ->
  EffectiveKernelWalk (m + n) IH d FS (SizeT.wrap x)
    {| ek_filter := f; ek_ih := SizeT.wrap x;
       ek_EffectiveKernelHeight := K |} =
  EffectiveKernelWalk n IH d FS (SizeT.wrap (x + Z.of_nat m * d))
    {| ek_filter := f + Z.of_nat m * FS;
       ek_ih := SizeT.wrap (x + Z.of_nat m * d);
       ek_EffectiveKernelHeight := SizeT.wrap (K - Z.of_nat m) |}.
Proof.
  induction m as [|m IHm]; intros n x f K Hlo Hhi HK Hrows.
  - cbn [Nat.add Z.of_nat]. rewrite Z.mul_0_l, !Z.add_0_r, Z.sub_0_r.
    now rewrite (wrap_small K).
  - cbn [Nat.add EffectiveKernelWalk ek_ih ek_filter ek_EffectiveKernelHeight].
    rewrite row_beyond by lia.
    assert (H0 : ~ 0 <= x + 0 * d < IH) by (apply Hrows; lia).
    replace ((0 <=? x) && (x <? IH)) with false
      by (symmetry; apply andb_false_iff;
          rewrite Z.leb_gt, Z.ltb_ge; lia).
    cbn [negb]. rewrite Z.eqb_refl.
    cbn [ek_ih ek_filter ek_EffectiveKernelHeight].
    unfold SizeT.add, SizeT.sub. rewrite wrap_add_l.
    rewrite IHm.
    + rewrite wrap_sub_l.
      replace (x + d + Z.of_nat m * d) with (x + Z.of_nat (S m) * d) by lia.
      replace (f + FS + Z.of_nat m * FS) with (f + Z.of_nat (S m) * FS) by lia.
      replace (K - 1 - Z.of_nat m) with (K - Z.of_nat (S m)) by lia.
      reflexivity.
    + lia.
    + lia.
    + apply wrap_range.
    + intros j Hj. specialize (Hrows (j + 1) ltac:(lia)). lia.
Qed.

(** Once the input row is inside the input it stays, and so does the
    filter pointer: the rest of the walk only counts rows. *)
Lemma Walk_trailing m : forall s ek,
  0 <= s -> s + Z.of_nat m * d < SizeT.modulus ->
  ek_ih ek < IH ->
  0 <= ek_EffectiveKernelHeight ek < SizeT.modulus ->
  EffectiveKernelWalk m IH d FS s ek =
  {| ek_filter := ek_filter ek;
     ek_ih := ek_ih ek;
     ek_EffectiveKernelHeight :=
       SizeT.wrap (ek_EffectiveKernelHeight ek - RowsBeyond m IH d s) |}.
Proof.
  induction m as [|m IHm]; intros s ek Hs Hhi Hih HK.
  - cbn [EffectiveKernelWalk RowsBeyond]. rewrite Z.sub_0_r.
    rewrite (wrap_small _ HK). now destruct ek.
  - cbn [EffectiveKernelWalk RowsBeyond].
    unfold SizeT.add. rewrite (wrap_small (s + d)) by lia.
    destruct (Z.leb_spec IH s) as [Hbeyond|Hinside].
    + replace (s =? ek_ih ek) with false by (symmetry; apply Z.eqb_neq; lia).
      rewrite IHm; cbn [ek_ih ek_filter ek_EffectiveKernelHeight];
        try lia; [|apply wrap_range].
      unfold SizeT.sub. rewrite wrap_sub_l.
      replace (ek_EffectiveKernelHeight ek - 1 - RowsBeyond m IH d (s + d))
        with (ek_EffectiveKernelHeight ek - (1 + RowsBeyond m IH d (s + d)))
        by lia.
      reflexivity.
    + rewrite IHm by lia. rewrite Z.add_0_l. reflexivity.
Qed.

(** The rows counted by [ih_trim_bot], from kernel row [k0] on. *)
Lemma RowsBeyond_filter a m : forall k0 : nat,
  Z.of_nat
    (length (List.filter (fun kh : Z => IH <=? a + kh * d)
                         (map Z.of_nat (seq k0 m)))) =
  RowsBeyond m IH d (a + Z.of_nat k0 * d).
Proof.
  induction m as [|m IHm]; intros k0; [reflexivity|].
  cbn [seq map List.filter RowsBeyond].
  replace (a + Z.of_nat k0 * d + d) with (a + Z.of_nat (S k0) * d) by lia.
  rewrite <- IHm. destruct (IH <=? a + Z.of_nat k0 * d); cbn [length]; lia.
Qed.

Lemma RowsBeyond_none_below a m : forall k0 : nat,
  a + Z.of_nat (k0 + m) * d <= IH ->
  RowsBeyond m IH d (a + Z.of_nat k0 * d) = 0.
Proof.
  induction m as [|m IHm]; intros k0 Hle; [reflexivity|].
  cbn [RowsBeyond].
  replace (a + Z.of_nat k0 * d + d) with (a + Z.of_nat (S k0) * d) by lia.
  rewrite IHm by (replace (S k0 + m)%nat with (k0 + S m)%nat by lia; exact Hle).
  destruct (Z.leb_spec IH (a + Z.of_nat k0 * d)); nia.
Qed.

End Walk.

Lemma RowsBeyond_split IH d m1 : forall m2 s,
  RowsBeyond (m1 + m2) IH d s =
  RowsBeyond m1 IH d s + RowsBeyond m2 IH d (s + Z.of_nat m1 * d).
Proof.
  induction m1 as [|m1 IHm]; intros m2 s.
  - cbn [Nat.add RowsBeyond Z.of_nat].
    now rewrite Z.mul_0_l, Z.add_0_r, Z.add_0_l.
  - cbn [Nat.add RowsBeyond]. rewrite IHm.
    replace (s + d + Z.of_nat m1 * d) with (s + Z.of_nat (S m1) * d) by lia.
    lia.
Qed.

Lemma ceil_div_bounds x d :
  0 < d -> d * (ceil_div x d - 1) < x <= d * ceil_div x d.
Proof.
  intros Hd. unfold ceil_div.
  pose proof (Z.mul_div_le (- x) d Hd).
  pose proof (Z.mul_succ_div_gt (- x) d Hd). lia.
Qed.

(** The first kernel row that is not above the input. *)
Lemma ih_trim_top_first ph SH PL DH :
  1 <= DH ->
  let a := ph * SH - PL in
  let top := ih_trim_top ph SH PL DH in
  0 <= top /\ 0 <= a + top * DH /\
  (forall j, 0 <= j < top -> a + j * DH < 0).
Proof.
  intros HD a top. unfold top, ih_trim_top.
  pose proof (ceil_div_bounds (PL - ph * SH) DH ltac:(lia)) as B.
  set (c := ceil_div (PL - ph * SH) DH) in *.
  destruct (Z.max_spec 0 c) as [[Hc ->]|[Hc ->]]; unfold a.
  - split; [lia|]. split; [nia|]. intros j Hj. nia.
  - split; [lia|]. split; [nia|]. intros j Hj. lia.
Qed.

(** The walk from the first row [ph*SH - PL], when some kernel row lies
    inside the input. *)
Lemma Walk_closed_form ph SH PL DH KH IH FilterStride filter kh :
  1 <= DH -> 0 <= PL -> 0 <= IH -> 0 <= KH < SizeT.modulus ->
  IH + PL < SizeT.modulus ->
  0 <= ph * SH ->
  ph * SH - PL + KH * DH < SizeT.modulus ->
  0 <= kh < KH -> 0 <= ph * SH - PL + kh * DH < IH ->
  let top := ih_trim_top ph SH PL DH in
  EffectiveKernelWalk (Z.to_nat KH) IH DH FilterStride
    (SizeT.wrap (ph * SH - PL))
    {| ek_filter := filter;
       ek_ih := SizeT.wrap (ph * SH - PL);
       ek_EffectiveKernelHeight := KH |} =
  {| ek_filter := filter + top * FilterStride;
     ek_ih := ph * SH - PL + top * DH;
     ek_EffectiveKernelHeight :=
       KH - top - ih_trim_bot ph SH PL DH KH IH |}.
Proof.
  intros HD HPL HIH HKH Hsum Hph Hhi Hkh Hrow top.
  destruct (ih_trim_top_first ph SH PL DH HD) as (Htop0 & Htop1 & Htop2).
  fold top in Htop0, Htop1, Htop2.
  assert (Hbot : forall t : nat, Z.of_nat t = top ->
            ih_trim_bot ph SH PL DH KH IH
            = RowsBeyond (Z.to_nat KH - t) IH DH (ph * SH - PL + top * DH)).
  { intros t Ht. unfold ih_trim_bot.
    assert (Hle : top <= kh).
    { destruct (Z_le_gt_dec top kh) as [|Hgt]; [assumption|].
      specialize (Htop2 kh ltac:(lia)). lia. }
    clearbody top.
    assert (Hmono : top * DH <= kh * DH)
      by (apply Z.mul_le_mono_nonneg_r; lia).
    rewrite (RowsBeyond_filter IH DH (ph * SH - PL) (Z.to_nat KH) 0).
    replace (Z.to_nat KH) with (t + (Z.to_nat KH - t))%nat at 1 by lia.
    rewrite RowsBeyond_split. cbn [Z.of_nat]. rewrite Z.mul_0_l, Z.add_0_r.
    replace (ph * SH - PL) with (ph * SH - PL + Z.of_nat 0 * DH) at 1
      by (cbn; lia).
    rewrite RowsBeyond_none_below by (cbn [Nat.add]; lia).
    rewrite Ht. lia. }
  clearbody top.
  set (a := ph * SH - PL) in *.
  assert (Halo : - PL <= a) by (unfold a; lia).
  clearbody a.
  assert (Hle : top <= kh).
  { destruct (Z_le_gt_dec top kh) as [|Hgt]; [assumption|].
    specialize (Htop2 kh ltac:(lia)). lia. }
  assert (Hmono : top * DH <= kh * DH)
    by (apply Z.mul_le_mono_nonneg_r; lia).
  assert (Hkd : (kh + 1) * DH <= KH * DH)
    by (apply Z.mul_le_mono_nonneg_r; lia).
  assert (HKD : KH * 1 <= KH * DH)
    by (apply Z.mul_le_mono_nonneg_l; lia).
  assert (HIHr : 0 <= IH < SizeT.modulus) by lia.
  assert (HKHr : 0 <= KH < SizeT.modulus) by lia.
  set (t := Z.to_nat top).
  assert (Ht : Z.of_nat t = top) by (unfold t; lia).
  rewrite (Hbot t Ht).
  replace (Z.to_nat KH) with (t + (Z.to_nat KH - t))%nat at 1 by lia.
  assert (Htd : Z.of_nat t * DH = top * DH) by (now rewrite Ht).
  assert (Hlead : forall j, 0 <= j < Z.of_nat t -> ~ 0 <= a + j * DH < IH).
  { intros j Hj. specialize (Htop2 j ltac:(lia)). lia. }
  rewrite (Walk_leading IH DH FilterStride HIHr HD t (Z.to_nat KH - t) a
             filter KH ltac:(lia) ltac:(lia) HKHr Hlead).
  rewrite Ht. rewrite (wrap_small (a + top * DH)) by lia.
  rewrite (wrap_small (KH - top)) by lia.
  assert (Hrest : Z.of_nat (Z.to_nat KH - t) * DH = KH * DH - top * DH)
    by (rewrite Nat2Z.inj_sub by lia; lia).
  rewrite (Walk_trailing IH DH FilterStride HD (Z.to_nat KH - t)
             (a + top * DH)
             {| ek_filter := filter + top * FilterStride;
                ek_ih := a + top * DH;
                ek_EffectiveKernelHeight := KH - top |}
             ltac:(lia) ltac:(lia)
             ltac:(cbn [ek_ih]; lia)
             ltac:(cbn [ek_EffectiveKernelHeight]; lia)).
  cbn [ek_ih ek_filter ek_EffectiveKernelHeight].
  pose proof (RowsBeyond_bounds (Z.to_nat KH - t) IH DH (a + top * DH)) as Hb.
  rewrite wrap_small by lia. reflexivity.
Qed.

(** C7, amended.  For an output row in a pad region, with stride and
    dilation at least 1 and row indices that fit in a [size_t]: whenever at
    least one kernel row [ph * SH - PL + kh * DH], [kh < KH], lies inside
    the input, the closed-form trimming gives the same triple (input row,
    effective kernel height, filter advance) as the walk of the source. *)
Theorem ClosedFormTrim_agrees_when_a_row_is_valid
    (wb : MLAS_NCHWC_WORK_BLOCK) (ph FilterStride filter : Z) :
  let SH := StrideHeight wb in
  let PL := PaddingLeftY wb in
  let DH := DilationHeight wb in
  let KH := KernelHeight wb in
  let IH := InputHeight wb in
  1 <= SH -> 1 <= DH -> 0 <= ph -> 0 <= PL -> 0 <= IH ->
  0 <= KH < SizeT.modulus ->
  IH + PL < SizeT.modulus ->
  ph * SH - PL + KH * DH < SizeT.modulus ->
  InPadRegion wb ph = true ->
  (exists kh, 0 <= kh < KH /\ 0 <= ph * SH - PL + kh * DH < IH) ->
  WalkTrim wb ph FilterStride filter =
  ClosedFormTrim ph SH PL DH KH IH FilterStride.
Proof.
  intros SH PL DH KH IH HS HD Hph HPL HIH HKH Hsum Hhi Hpad (kh & Hkh & Hrow).
  unfold WalkTrim, ComputeEffectiveKernel. rewrite Hpad.
  fold SH PL DH KH IH. unfold SizeT.mul, SizeT.sub. rewrite wrap_sub_l.
  rewrite (Walk_closed_form ph SH PL DH KH IH FilterStride filter kh);
    try assumption; [|apply Z.mul_nonneg_nonneg; lia].
  cbn [ek_ih ek_filter ek_EffectiveKernelHeight]. unfold ClosedFormTrim.
  f_equal. lia.
Qed.

Lemma RowsBeyond_all IH d m : forall s,
  1 <= d -> IH <= s -> RowsBeyond m IH d s = Z.of_nat m.
Proof.
  induction m as [|m IHm]; intros s Hd Hs; [reflexivity|].
  cbn [RowsBeyond]. rewrite IHm by lia.
  destruct (Z.leb_spec IH s); lia.
Qed.

(** The rows at or beyond [IH] are the last ones of the walk. *)
Lemma RowsBeyond_prefix IH d m : forall s j,
  1 <= d -> 0 <= j < Z.of_nat m - RowsBeyond m IH d s -> s + j * d < IH.
Proof.
  induction m as [|m IHm]; intros s j Hd Hj; cbn [RowsBeyond] in Hj; [lia|].
  destruct (Z.leb_spec IH s) as [Hge|Hlt].
  - rewrite RowsBeyond_all in Hj by lia. lia.
  - destruct (Z.eq_dec j 0) as [->|Hne]; [lia|].
    specialize (IHm (s + d) (j - 1) Hd ltac:(lia)). lia.
Qed.

Lemma ih_trim_bot_rows ph SH PL DH KH IH :
  1 <= DH ->
  let top := ih_trim_top ph SH PL DH in
  ph * SH - PL + top * DH <= IH -> top <= KH ->
  ih_trim_bot ph SH PL DH KH IH
  = RowsBeyond (Z.to_nat KH - Z.to_nat top) IH DH (ph * SH - PL + top * DH).
Proof.
  intros HD top Hrow Hle.
  destruct (ih_trim_top_first ph SH PL DH HD) as (Htop0 & _ & _).
  fold top in Htop0. unfold ih_trim_bot.
  rewrite (RowsBeyond_filter IH DH (ph * SH - PL) (Z.to_nat KH) 0).
  replace (Z.to_nat KH)
    with (Z.to_nat top + (Z.to_nat KH - Z.to_nat top))%nat at 1 by lia.
  rewrite RowsBeyond_split. cbn [Z.of_nat]. rewrite Z.mul_0_l, Z.add_0_r.
  replace (ph * SH - PL) with (ph * SH - PL + Z.of_nat 0 * DH) at 1
    by (cbn; lia).
  rewrite (RowsBeyond_none_below IH DH HD)
    by (cbn [Nat.add]; rewrite Z2Nat.id by lia; exact Hrow).
  rewrite Z2Nat.id by lia. lia.
Qed.

(** When no kernel row lies inside the input, the walk trims every row
    and moves the input row and the filter pointer [KH] times. *)
Lemma Walk_all_rows_trimmed ph SH PL DH KH IH FilterStride filter :
  1 <= DH -> 0 <= PL -> 0 <= IH -> 0 <= KH < SizeT.modulus ->
  IH + PL < SizeT.modulus -> 0 <= ph * SH ->
  ph * SH - PL + KH * DH < SizeT.modulus ->
  (forall kh, 0 <= kh < KH -> ~ 0 <= ph * SH - PL + kh * DH < IH) ->
  EffectiveKernelWalk (Z.to_nat KH) IH DH FilterStride
    (SizeT.wrap (ph * SH - PL))
    {| ek_filter := filter;
       ek_ih := SizeT.wrap (ph * SH - PL);
       ek_EffectiveKernelHeight := KH |} =
  {| ek_filter := filter + KH * FilterStride;
     ek_ih := SizeT.wrap (ph * SH - PL + KH * DH);
     ek_EffectiveKernelHeight := 0 |}.
Proof.
  intros HD HPL HIH HKH Hsum Hph Hhi Hnone.
  replace (Z.to_nat KH) with (Z.to_nat KH + 0)%nat by lia.
  rewrite (Walk_leading IH DH FilterStride ltac:(lia) HD (Z.to_nat KH) 0
             (ph * SH - PL) filter KH);
    rewrite ?Z2Nat.id by lia; try lia; try assumption.
  cbn [EffectiveKernelWalk]. rewrite Z.sub_diag. reflexivity.
Qed.

(** Where the walk runs, its result is as intended: the kept kernel rows
    are inside the input, and if any is kept the input row and the filter
    pointer have moved past the rows above the input. *)
Theorem ComputeEffectiveKernel_valid_where_the_walk_runs
    (wb : MLAS_NCHWC_WORK_BLOCK) (ph FilterStride filter : Z) :
  let SH := StrideHeight wb in
  let PL := PaddingLeftY wb in
  let DH := DilationHeight wb in
  let KH := KernelHeight wb in
  let IH := InputHeight wb in
  let ek := ComputeEffectiveKernel wb ph FilterStride filter in
  1 <= SH -> 1 <= DH -> 0 <= ph -> 0 <= PL -> 0 <= IH ->
  0 <= KH < SizeT.modulus ->
  IH + PL < SizeT.modulus ->
  ph * SH - PL + KH * DH < SizeT.modulus ->
  InPadRegion wb ph = true ->
  0 <= ek_EffectiveKernelHeight ek <= KH /\
  (forall kh, 0 <= kh < ek_EffectiveKernelHeight ek ->
     0 <= ek_ih ek + kh * DH < IH) /\
  (0 < ek_EffectiveKernelHeight ek ->
     ek_ih ek = ph * SH - PL + ih_trim_top ph SH PL DH * DH /\
     ek_filter ek = filter + ih_trim_top ph SH PL DH * FilterStride).
Proof.
  intros SH PL DH KH IH ek HS HD Hph HPL HIH HKH Hsum Hhi Hpad.
  assert (Hphs : 0 <= ph * SH) by (apply Z.mul_nonneg_nonneg; lia).
  unfold ek, ComputeEffectiveKernel. rewrite Hpad.
  fold SH PL DH KH IH. unfold SizeT.mul, SizeT.sub. rewrite wrap_sub_l.
  destruct (ih_trim_top_first ph SH PL DH HD) as (Htop0 & Htop1 & Htop2).
  set (top := ih_trim_top ph SH PL DH) in *.
  destruct (Z_lt_dec top KH) as [HtK|HtK];
    [destruct (Z_lt_dec (ph * SH - PL + top * DH) IH) as [Hin|Hout]|].
  - (* kernel row [top] is inside the input *)
    rewrite (Walk_closed_form ph SH PL DH KH IH FilterStride filter top);
      try assumption; try lia.
    cbn [ek_ih ek_filter ek_EffectiveKernelHeight]. fold top.
    rewrite (ih_trim_bot_rows ph SH PL DH KH IH HD) by (fold top; lia).
    fold top.
    pose proof (RowsBeyond_bounds (Z.to_nat KH - Z.to_nat top) IH DH
                  (ph * SH - PL + top * DH)) as Hb.
    split; [lia|]. split; [|auto].
    intros kh Hkh.
    pose proof (RowsBeyond_prefix IH DH (Z.to_nat KH - Z.to_nat top)
                  (ph * SH - PL + top * DH) kh HD ltac:(lia)).
    assert (0 <= kh * DH) by (apply Z.mul_nonneg_nonneg; lia). lia.
  - (* every row from [top] on is at or beyond the input height *)
    assert (Hnone : forall kh, 0 <= kh < KH ->
                      ~ 0 <= ph * SH - PL + kh * DH < IH).
    { intros kh Hkh Hrow. destruct (Z_lt_dec kh top) as [Hlt|Hge].
      - specialize (Htop2 kh ltac:(lia)). lia.
      - assert (top * DH <= kh * DH)
          by (apply Z.mul_le_mono_nonneg_r; lia). lia. }
    rewrite (Walk_all_rows_trimmed ph SH PL DH KH IH FilterStride filter
               HD HPL HIH HKH Hsum Hphs Hhi Hnone).
    cbn [ek_ih ek_filter ek_EffectiveKernelHeight].
    split; [lia|]. split; intros; lia.
  - (* every kernel row is above the input *)
    assert (Hnone : forall kh, 0 <= kh < KH ->
                      ~ 0 <= ph * SH - PL + kh * DH < IH).
    { intros kh Hkh Hrow. specialize (Htop2 kh ltac:(lia)). lia. }
    rewrite (Walk_all_rows_trimmed ph SH PL DH KH IH FilterStride filter
               HD HPL HIH HKH Hsum Hphs Hhi Hnone).
    cbn [ek_ih ek_filter ek_EffectiveKernelHeight].
    split; [lia|]. split; intros; lia.
Qed.

(** ** Loops *)

Section WhileFacts.

Context {St Ev : Type}.
Variable cond : St -> bool.
Variable body : St -> option (St * list Ev).

Lemma while_Forall (Inv : St -> Prop) (P : Ev -> Prop) :
  (forall s s1 es, Inv s -> cond s = true -> body s = Some (s1, es) ->
     Inv s1 /\ Forall P es) ->
  forall fuel s s2 es, Inv s -> while cond body fuel s = Some (s2, es) ->
    Inv s2 /\ Forall P es /\ cond s2 = false.
Proof.
  intros Hbody. induction fuel as [|fuel IH]; intros s s2 es Hinv Hrun;
    cbn [while] in Hrun; destruct (cond s) eqn:Hc; try discriminate.
  - injection Hrun as <- <-. auto.
  - destruct (body s) as [[s1 es1]|] eqn:Hb; [|discriminate].
    destruct (while cond body fuel s1) as [[s3 es3]|] eqn:Hw; [|discriminate].
    injection Hrun as <- <-.
    destruct (Hbody s s1 es1 Hinv Hc Hb) as [Hinv1 HP1].
    destruct (IH s1 s3 es3 Hinv1 Hw) as (Hinv3 & HP3 & Hc3).
    split; [assumption|]. split; [|assumption].
    apply Forall_app. split; assumption.
  - injection Hrun as <- <-. auto.
Qed.

Lemma while_terminates (Inv : St -> Prop) (measure : St -> Z) :
  (forall s, Inv s -> cond s = true ->
     exists s1 es, body s = Some (s1, es) /\ Inv s1 /\
                   0 < measure s /\ measure s1 < measure s) ->
  forall fuel s, Inv s -> measure s <= Z.of_nat fuel ->
    exists r, while cond body fuel s = Some r.
Proof.
  intros Hbody. induction fuel as [|fuel IH]; intros s Hinv Hm;
    cbn [while]; destruct (cond s) eqn:Hc; try (eexists; reflexivity).
  - destruct (Hbody s Hinv Hc) as (s1 & es & _ & _ & Hpos & _). lia.
  - destruct (Hbody s Hinv Hc) as (s1 & es & Hb & Hinv1 & Hpos & Hlt).
    rewrite Hb. destruct (IH s1 Hinv1 ltac:(lia)) as [[s2 es2] Hw].
    rewrite Hw. eexists; reflexivity.
Qed.

End WhileFacts.

(** ** The flag word *)

Section Flags.

Variable BlockSize : Z.
Variable WorkBlock : MLAS_NCHWC_CONV_WORK_BLOCK.

Lemma ConvKernelFlags_contract ic step bias :
  0 <= ic -> 0 <= step < SizeT.modulus ->
  ic + step <= SizeT.modulus + InputChannels (ConvBase WorkBlock) - 1 ->
  FlagsContract WorkBlock ic step bias
    (ConvKernelFlags WorkBlock ic
       (ic +% step =? InputChannels (ConvBase WorkBlock)) bias).
Proof.
  intros Hic Hstep Hsum.
  assert (Hfinal : (ic +% step =? InputChannels (ConvBase WorkBlock)) = true
                   -> ic + step = InputChannels (ConvBase WorkBlock)).
  { rewrite Z.eqb_eq. unfold SizeT.add. 
    pose proof (wrap_range (ic + step)) as Hr. intros E.
    destruct (Z_lt_dec (ic + step) SizeT.modulus) as [Hlt|Hge].
    - rewrite wrap_small in E by lia. exact E.
    - rewrite wrap_carry in E; [lia|]. pose proof modulus_eq. lia. }
  unfold FlagsContract, ConvKernelFlags.
  destruct (ic +% step =? InputChannels (ConvBase WorkBlock));
    [specialize (Hfinal eq_refl)|clear Hfinal];
    destruct (Z.eqb_spec ic 0) as [Hz|Hz];
    destruct (ZeroMode WorkBlock);
    destruct bias;
    destruct (WorkBlock_Activation WorkBlock);
    cbn [negb orb andb ActivationKind_eqb];
    repeat match goal with
    | |- context [Z.testbit ?f ?k] =>
        let v := eval vm_compute in (Z.testbit f k) in
        change (Z.testbit f k) with v
    end;
    intuition (congruence || discriminate).
Qed.

End Flags.

Lemma PartitionWork_remaining_range Index wb TotalWork :
  SizeT.InRange TotalWork ->
  SizeT.InRange (PartitionWork Index wb TotalWork).2.
Proof.
  intros HW. unfold PartitionWork.
  assert (Hq : SizeT.InRange (TotalWork / size_t (tids wb))).
  { unfold SizeT.InRange in *.
    pose proof (size_t_range (tids wb)) as Ht. unfold SizeT.InRange in Ht.
    destruct (Z.eq_dec (size_t (tids wb)) 0) as [->|Hne].
    - rewrite Z.div_0_r. lia.
    - apply div_range; lia. }
  destruct (_ <? _); cbn [snd]; [apply wrap_range | exact Hq].
Qed.

Section ConvExecutorFacts.

Variable BlockSize : Z.
Variable WorkBlock : MLAS_NCHWC_CONV_WORK_BLOCK.

Let wb := ConvBase WorkBlock.
Let Ok := EventFlagsContract WorkBlock.
Let Supplied (st : GROUPED_CONV_STATE) := BiasAsSupplied WorkBlock (Bias st).

Hypothesis BlockSize_range : 1 <= BlockSize < SizeT.modulus.
Hypothesis Channels_range : 0 <= InputChannels wb < SizeT.modulus.

Lemma AdvanceBias_supplied b n :
  BiasAsSupplied WorkBlock b -> BiasAsSupplied WorkBlock (AdvanceBias b n).
Proof.
  unfold BiasAsSupplied. destruct b; cbn [AdvanceBias]; intros [H1 H2];
    split; intros H; try discriminate; auto.
  specialize (H2 H). discriminate.
Qed.

Lemma PrepareWork_supplied Index :
  Supplied (PrepareWork BlockSize WorkBlock Index).
Proof.
  unfold Supplied, PrepareWork.
  destruct (PartitionWork _ _ _) as [WorkIndex WorkRemaining0].
  cbn [Bias]. do 2 apply AdvanceBias_supplied. unfold BiasAsSupplied. tauto.
Qed.

Lemma CompleteWork_supplied W st :
  Supplied st -> Supplied (CompleteWork BlockSize WorkBlock W st).
Proof.
  unfold Supplied, CompleteWork. intros H.
  destruct (_ =? OutputHeight _); [|exact H].
  destruct (_ =? FilterSetCount _ _); [destruct (_ =? GroupCount _)|];
    cbn [Bias]; try (apply AdvanceBias_supplied; exact H).
  unfold BiasAsSupplied. tauto.
Qed.

Lemma FusedActivation_flags KernelFlags output n w :
  Forall Ok (FusedActivation KernelFlags output n w).
Proof.
  unfold FusedActivation. destruct (negb _); repeat constructor.
Qed.

(** *** The NCHWc executor *)

Lemma NchwcRows_flags st ic KernelFlags input n : forall work output,
  Supplied st ->
  FlagsContract WorkBlock ic BlockSize (Bias st) KernelFlags ->
  Forall Ok (NchwcRows BlockSize WorkBlock st ic KernelFlags input n
               work output).
Proof.
  induction n as [|n IH]; intros work output Hs Hf; cbn [NchwcRows].
  - constructor.
  - constructor; [split; [exact Hf|exact Hs]|]. apply Forall_app. split.
    + apply FusedActivation_flags.
    + apply IH; assumption.
Qed.

Lemma NchwcChannelBody_flags st W ic ic1 es :
  Supplied st ->
  0 <= ic < SizeT.modulus ->
  (ic <? InputChannels wb) = true ->
  NchwcChannelBody BlockSize WorkBlock st W ic = Some (ic1, es) ->
  0 <= ic1 < SizeT.modulus /\ Forall Ok es.
Proof.
  intros Hs Hic Hc Hb. apply Z.ltb_lt in Hc. unfold NchwcChannelBody in Hb.
  injection Hb as <- <-. split; [apply wrap_range|].
  apply NchwcRows_flags; [exact Hs|].
  apply ConvKernelFlags_contract; fold wb; lia.
Qed.

Lemma NchwcBody_flags st st1 es :
  Supplied st ->
  NchwcBody BlockSize WorkBlock st = Some (st1, es) ->
  Supplied st1 /\ Forall Ok es.
Proof.
  intros Hs. unfold NchwcBody. fold wb.
  destruct (while _ _ _ _) as [[ic2 es2]|] eqn:Hw; [|discriminate].
  intros H. injection H as <- <-.
  split; [apply CompleteWork_supplied, Hs|].
  eapply (while_Forall _ _ (fun ic => 0 <= ic < SizeT.modulus) Ok) in Hw.
  - tauto.
  - intros s s1 es0 Hr Hc Hb.
    eapply NchwcChannelBody_flags; eassumption.
  - pose proof modulus_eq. lia.
Qed.

Lemma NchwcExecute_flags Index es :
  NchwcExecute BlockSize WorkBlock Index = Some es -> Forall Ok es.
Proof.
  unfold NchwcExecute.
  destruct (while _ _ _ _) as [[st2 es2]|] eqn:Hw; [|discriminate].
  intros H. injection H as <-.
  eapply (while_Forall _ _ Supplied Ok) in Hw;
    [tauto| |apply PrepareWork_supplied].
  intros s s1 es0 Hs _ Hb. eapply NchwcBody_flags; eassumption.
Qed.

(** *** The NCHW executor *)

Lemma NchwChannels_flags st ih ekh output n : forall icc input filter,
  Supplied st ->
  0 <= icc -> icc + Z.of_nat n <= InputChannels wb ->
  Forall Ok (NchwChannels BlockSize WorkBlock st ih ekh output n icc input
               filter).
Proof.
  induction n as [|n IH]; intros icc input filter Hs Hicc Hn;
    cbn [NchwChannels].
  - constructor.
  - constructor.
    + cbn [Ok EventFlagsContract ck_Bias ck_KernelFlags].
      split; [|exact Hs].
      apply ConvKernelFlags_contract; fold wb; pose proof modulus_eq; lia.
    + apply Forall_app. split.
      * apply FusedActivation_flags.
      * unfold SizeT.add. rewrite wrap_small by lia. apply IH; [exact Hs|lia..].
Qed.

Lemma NchwExecute_flags Index es :
  NchwExecute BlockSize WorkBlock Index = Some es -> Forall Ok es.
Proof.
  unfold NchwExecute.
  destruct (while _ _ _ _) as [[st2 es2]|] eqn:Hw; [|discriminate].
  intros H. injection H as <-.
  eapply (while_Forall _ _ Supplied Ok) in Hw;
    [tauto| |apply PrepareWork_supplied].
  intros s s1 es0 Hs _ Hb. unfold NchwBody in Hb. injection Hb as <- <-.
  split; [apply CompleteWork_supplied, Hs|].
  apply NchwChannels_flags; [exact Hs|fold wb; lia..].
Qed.

(** *** The pointwise executor *)

Lemma PointwiseChannelBody_flags st n output cs cs1 es :
  Supplied st ->
  0 <= cs.1.1 < SizeT.modulus ->
  (cs.1.1 <? InputChannels wb) = true ->
  PointwiseChannelBody BlockSize WorkBlock st n output cs = Some (cs1, es) ->
  0 <= cs1.1.1 < SizeT.modulus /\ Forall Ok es.
Proof.
  destruct cs as [[ic input] filter]. cbn [fst].
  intros Hs Hic Hc Hb. apply Z.ltb_lt in Hc.
  unfold PointwiseChannelBody in Hb.
  injection Hb as <- <-. cbn [fst]. split; [apply wrap_range|].
  constructor; [|apply FusedActivation_flags].
  cbn [Ok EventFlagsContract pw_Bias pw_KernelFlags]. fold wb.
  split; [|exact Hs].
  pose proof (wrap_range (InputChannels wb - ic)) as Hr.
  fold (InputChannels wb -% ic) in Hr. unfold MaximumInputChannelBatch.
  apply ConvKernelFlags_contract; fold wb; pose proof modulus_eq; lia.
Qed.

Lemma PointwiseBody_flags st st1 es :
  Supplied st ->
  PointwiseBody BlockSize WorkBlock st = Some (st1, es) ->
  Supplied st1 /\ Forall Ok es.
Proof.
  intros Hs. unfold PointwiseBody. fold wb.
  destruct (while _ _ _ _) as [[cs2 es2]|] eqn:Hw; [|discriminate].
  intros H. injection H as <- <-.
  split; [apply CompleteWork_supplied, Hs|].
  eapply (while_Forall _ _
            (fun cs : POINTWISE_CHANNEL_STATE => 0 <= cs.1.1 < SizeT.modulus)
            Ok) in Hw.
  - tauto.
  - intros s s1 es0 Hr Hc Hb.
    eapply PointwiseChannelBody_flags; eassumption.
  - cbn [fst]. pose proof modulus_eq. lia.
Qed.

Lemma PointwiseExecute_flags Index es :
  PointwiseExecute BlockSize WorkBlock Index = Some es -> Forall Ok es.
Proof.
  unfold PointwiseExecute.
  destruct (while _ _ _ _) as [[st2 es2]|] eqn:Hw; [|discriminate].
  intros H. injection H as <-.
  eapply (while_Forall _ _ Supplied Ok) in Hw;
    [tauto| |apply PrepareWork_supplied].
  intros s s1 es0 Hs _ Hb. eapply PointwiseBody_flags; eassumption.
Qed.

End ConvExecutorFacts.

(** ** The executors run to completion *)

Section ConvTermination.

Variable BlockSize : Z.
Variable WorkBlock : MLAS_NCHWC_CONV_WORK_BLOCK.

Let wb := ConvBase WorkBlock.

Hypothesis BlockSize_pos : 1 <= BlockSize.
Hypothesis Channels_fit : InputChannels wb + BlockSize <= SizeT.modulus.
Hypothesis Height_range : 1 <= OutputHeight wb < SizeT.modulus.

Local Abbreviation InProgress := (Progress WorkBlock).

Lemma CompleteWork_progress W st :
  InProgress st -> 1 <= W <= OutputHeight wb - ph st -> W <= WorkRemaining st ->
  InProgress (CompleteWork BlockSize WorkBlock W st) /\
  WorkRemaining (CompleteWork BlockSize WorkBlock W st)
    = WorkRemaining st - W.
Proof.
  intros [Hph Hwr] HW Hle. fold wb in Hph.
  assert (E1 : WorkRemaining st -% W = WorkRemaining st - W)
    by (apply wrap_small; lia).
  assert (E2 : ph st +% W = ph st + W) by (apply wrap_small; lia).
  unfold CompleteWork, Progress. fold wb. cbv zeta. rewrite !E1, !E2.
  destruct (Z.eqb_spec (ph st + W) (OutputHeight wb)) as [E|NE].
  - destruct (_ =? FilterSetCount _ _); [destruct (_ =? GroupCount _)|];
      cbn [ph WorkRemaining]; lia.
  - cbn [ph WorkRemaining]. lia.
Qed.

Lemma PrepareWork_progress Index :
  InProgress (PrepareWork BlockSize WorkBlock Index).
Proof.
  unfold PrepareWork, Progress. fold wb.
  match goal with
  | |- context [PartitionWork Index wb ?W] =>
      pose proof (PartitionWork_remaining_range Index wb W
                    ltac:(apply wrap_range)) as Hr;
      destruct (PartitionWork Index wb W) as [WorkIndex WorkRemaining0]
  end.
  cbn [ph WorkRemaining snd] in *. split; [|exact Hr].
  apply Z.mod_pos_bound. lia.
Qed.

Lemma rows_this_iteration st :
  InProgress st -> (0 <? WorkRemaining st) = true ->
  let W := Z.min (WorkRemaining st) (OutputHeight wb -% ph st) in
  1 <= W <= OutputHeight wb - ph st /\ W <= WorkRemaining st.
Proof.
  intros [Hph Hwr] Hc W. fold wb in Hph. apply Z.ltb_lt in Hc.
  unfold W, SizeT.sub. rewrite wrap_small by lia. lia.
Qed.

Lemma NchwcChannels_terminate st W :
  exists r,
    while (fun ic => ic <? InputChannels wb)
          (NchwcChannelBody BlockSize WorkBlock st W)
          (Z.to_nat (InputChannels wb)) 0 = Some r.
Proof.
  apply (while_terminates _ _ (fun ic => 0 <= ic)
           (fun ic => InputChannels wb - ic)); [|lia|lia].
  intros ic Hic Hc. apply Z.ltb_lt in Hc.
  unfold NchwcChannelBody. do 2 eexists. split; [reflexivity|].
  fold wb. unfold SizeT.add. rewrite wrap_small by lia. lia.
Qed.

Theorem NchwcExecute_terminates Index :
  exists es, NchwcExecute BlockSize WorkBlock Index = Some es.
Proof.
  unfold NchwcExecute.
  destruct (while_terminates WorkLeft (NchwcBody BlockSize WorkBlock)
              InProgress WorkRemaining) with
    (fuel := Z.to_nat (WorkRemaining (PrepareWork BlockSize WorkBlock Index)))
    (s := PrepareWork BlockSize WorkBlock Index) as [[st es] Hw].
  - intros st Hst Hc.
    destruct (rows_this_iteration st Hst Hc) as [HW Hle].
    destruct (CompleteWork_progress _ st Hst HW Hle) as [Hp Hr].
    unfold NchwcBody. fold wb.
    destruct (NchwcChannels_terminate st
                (Z.min (WorkRemaining st) (OutputHeight wb -% ph st)))
      as [[ic es] ->].
    do 2 eexists. split; [reflexivity|]. split; [exact Hp|].
    rewrite Hr. apply Z.ltb_lt in Hc. lia.
  - apply PrepareWork_progress.
  - pose proof (PrepareWork_progress Index) as [_ H]. lia.
  - rewrite Hw. eexists; reflexivity.
Qed.

Theorem NchwExecute_terminates Index :
  exists es, NchwExecute BlockSize WorkBlock Index = Some es.
Proof.
  unfold NchwExecute.
  destruct (while_terminates WorkLeft (NchwBody BlockSize WorkBlock)
              InProgress WorkRemaining) with
    (fuel := Z.to_nat (WorkRemaining (PrepareWork BlockSize WorkBlock Index)))
    (s := PrepareWork BlockSize WorkBlock Index) as [[st es] Hw].
  - intros st Hst Hc. pose proof Hst as [Hph Hwr]. fold wb in Hph.
    apply Z.ltb_lt in Hc.
    destruct (CompleteWork_progress 1 st Hst ltac:(lia) ltac:(lia))
      as [Hp Hr].
    unfold NchwBody. do 2 eexists. split; [reflexivity|].
    split; [exact Hp|]. rewrite Hr. lia.
  - apply PrepareWork_progress.
  - pose proof (PrepareWork_progress Index) as [_ H]. lia.
  - rewrite Hw. eexists; reflexivity.
Qed.

Lemma PointwiseChannels_terminate st n output input filter :
  exists r,
    while (fun cs : POINTWISE_CHANNEL_STATE => cs.1.1 <? InputChannels wb)
          (PointwiseChannelBody BlockSize WorkBlock st n output)
          (Z.to_nat (InputChannels wb)) (0, input, filter) = Some r.
Proof.
  apply (while_terminates _ _
           (fun cs : POINTWISE_CHANNEL_STATE => 0 <= cs.1.1)
           (fun cs : POINTWISE_CHANNEL_STATE => InputChannels wb - cs.1.1));
    [|cbn [fst]; lia|cbn [fst]; lia].
  intros [[ic i] f] Hic Hc. cbn [fst] in *. apply Z.ltb_lt in Hc.
  unfold PointwiseChannelBody. do 2 eexists. split; [reflexivity|].
  cbn [fst]. fold wb. unfold SizeT.sub, MaximumInputChannelBatch.
  rewrite (wrap_small (InputChannels wb - ic)) by lia.
  unfold SizeT.add. rewrite wrap_small by lia. lia.
Qed.

Theorem PointwiseExecute_terminates Index :
  exists es, PointwiseExecute BlockSize WorkBlock Index = Some es.
Proof.
  unfold PointwiseExecute.
  destruct (while_terminates WorkLeft (PointwiseBody BlockSize WorkBlock)
              InProgress WorkRemaining) with
    (fuel := Z.to_nat (WorkRemaining (PrepareWork BlockSize WorkBlock Index)))
    (s := PrepareWork BlockSize WorkBlock Index) as [[st es] Hw].
  - intros st Hst Hc. pose proof Hst as [Hph Hwr]. fold wb in Hph.
    destruct (rows_this_iteration st Hst Hc) as [HW Hle].
    apply Z.ltb_lt in Hc.
    unfold PointwiseBody. fold wb.
    set (W := if (StrideHeight wb =? 1) && (StrideWidth wb =? 1)
              then Z.min (WorkRemaining st) (OutputHeight wb -% ph st)
              else 1).
    assert (HW' : 1 <= W <= OutputHeight wb - ph st /\ W <= WorkRemaining st).
    { unfold W. destruct (_ && _); [auto|lia]. }
    destruct (CompleteWork_progress W st Hst (proj1 HW') (proj2 HW'))
      as [Hp Hr].
    match goal with
    | |- context [while ?c (PointwiseChannelBody _ _ _ ?n ?o) _ (0, ?i, ?f)] =>
        destruct (PointwiseChannels_terminate st n o i f) as [[cs es] ->]
    end.
    do 2 eexists. split; [reflexivity|]. split; [exact Hp|]. rewrite Hr. lia.
  - apply PrepareWork_progress.
  - pose proof (PrepareWork_progress Index) as [_ H]. lia.
  - rewrite Hw. eexists; reflexivity.
Qed.

End ConvTermination.

(** ** Wrap of the filter-set axis in [CompleteWork] *)

Section Position.

Variable BlockSize : Z.
Variable WorkBlock : MLAS_NCHWC_CONV_WORK_BLOCK.
Variable Blocks : Z.

Let wb := ConvBase WorkBlock.

Hypothesis BlockSize_pos : 1 <= BlockSize.
Hypothesis Blocks_pos : 1 <= Blocks.
Hypothesis Blocked : OutputChannels wb = BlockSize * Blocks.
Hypothesis Channels_pos : 1 <= InputChannels wb.
Hypothesis Kernel_pos : 1 <= KernelSize wb.
Hypothesis Groups_pos : 1 <= GroupCount WorkBlock.
Hypothesis Filter_fits :
  GroupCount WorkBlock * OutputChannels wb * InputChannels wb * KernelSize wb
    + 4 * BlockSize < SizeT.modulus.

Lemma FilterSetCount_blocks :
  let n := FilterSetCount BlockSize WorkBlock in
  Blocks <= 4 * n <= Blocks + 3.
Proof.
  cbv zeta. unfold FilterSetCount, FilterSetSize. fold wb. rewrite Blocked.
  assert (Hbig : BlockSize * Blocks + 4 * BlockSize < SizeT.modulus).
  { rewrite <- Blocked. 
    assert (OutputChannels wb <=
            GroupCount WorkBlock * OutputChannels wb * InputChannels wb
              * KernelSize wb); [|lia].
    rewrite Blocked. 
    set (gc := GroupCount WorkBlock) in *. set (oc := BlockSize * Blocks).
    assert (0 <= oc) by (unfold oc; nia).
    assert (oc <= gc * oc) by nia.
    assert (gc * oc <= gc * oc * InputChannels wb) by nia.
    assert (0 <= gc * oc * InputChannels wb) by nia.
    nia. }
  unfold SizeT.mul, SizeT.add, SizeT.sub.
  rewrite (wrap_small (BlockSize * 4)) by lia.
  rewrite (wrap_small (BlockSize * Blocks + BlockSize * 4)) by nia.
  rewrite wrap_small by nia.
  pose proof (div_bounds (BlockSize * Blocks + BlockSize * 4 - 1)
                (BlockSize * 4) ltac:(nia) ltac:(lia)) as B.
  set (n := (BlockSize * Blocks + BlockSize * 4 - 1) / (BlockSize * 4)) in *.
  clearbody n. split; nia.
Qed.

Let Tot :=
  GroupCount WorkBlock * OutputChannels wb * InputChannels wb * KernelSize wb.

Lemma product_bounds c :
  0 <= c <= GroupCount WorkBlock * OutputChannels wb ->
  0 <= c * InputChannels wb <= Tot /\
  0 <= c * InputChannels wb * KernelSize wb <= Tot /\ c <= Tot.
Proof.
  intros Hc. unfold Tot.
  set (gc := GroupCount WorkBlock * OutputChannels wb) in *.
  set (ic := InputChannels wb) in *. set (ks := KernelSize wb) in *.
  clearbody gc ic ks.
  assert (H1 : c * ic <= gc * ic) by (apply Z.mul_le_mono_nonneg_r; lia).
  assert (H2 : 0 <= c * ic) by (apply Z.mul_nonneg_nonneg; lia).
  assert (H3 : c * ic * ks <= gc * ic * ks)
    by (apply Z.mul_le_mono_nonneg_r; lia).
  assert (H4 : 0 <= c * ic * ks) by (apply Z.mul_nonneg_nonneg; lia).
  assert (H5 : gc * ic * 1 <= gc * ic * ks)
    by (apply Z.mul_le_mono_nonneg_l; lia).
  assert (H6 : c * 1 <= c * ic) by (apply Z.mul_le_mono_nonneg_l; lia).
  lia.
Qed.

Lemma mul3_exact c :
  0 <= c <= GroupCount WorkBlock * OutputChannels wb ->
  c *% InputChannels wb *% KernelSize wb
  = c * InputChannels wb * KernelSize wb.
Proof.
  intros Hc. destruct (product_bounds c Hc) as (H1 & H2 & H3).
  unfold SizeT.mul. unfold Tot in *.
  rewrite (wrap_small (c * InputChannels wb)) by lia.
  apply wrap_small. lia.
Qed.

Lemma ComputeFilterCount_exact fs :
  0 <= fs < FilterSetCount BlockSize WorkBlock ->
  ComputeFilterCount BlockSize WorkBlock fs = Z.min 4 (Blocks - 4 * fs) /\
  1 <= Blocks - 4 * fs.
Proof.
  intros Hfs. pose proof FilterSetCount_blocks as Hn. cbv zeta in Hn.
  unfold ComputeFilterCount, FilterSetSize. fold wb. rewrite Blocked.
  replace (BlockSize * Blocks / BlockSize) with Blocks
    by (rewrite Z.mul_comm, Z.div_mul; lia).
  assert (Hle : Blocks <= Tot).
  { destruct (product_bounds (OutputChannels wb)) as (_ & _ & H); [nia|].
    rewrite Blocked in H. nia. }
  unfold Tot in Hle. unfold SizeT.mul, SizeT.sub.
  rewrite (wrap_small (fs * 4)) by lia.
  rewrite wrap_small by lia. split; [f_equal; lia|lia].
Qed.

Lemma AdvanceBias_twice b x y :
  AdvanceBias (AdvanceBias b x) y = AdvanceBias b (x + y).
Proof. destruct b; cbn [AdvanceBias]; [f_equal; lia|reflexivity]. Qed.

Lemma AdvanceBias_zero b : AdvanceBias b 0 = b.
Proof. destruct b; cbn [AdvanceBias]; [f_equal; lia|reflexivity]. Qed.

Lemma FirstChannel_bounds st :
  0 <= FilterSet st < FilterSetCount BlockSize WorkBlock ->
  0 <= Group st < GroupCount WorkBlock ->
  0 <= FirstChannel BlockSize WorkBlock st /\
  FirstChannel BlockSize WorkBlock st
    + BlockSize * Z.min 4 (Blocks - 4 * FilterSet st)
    <= (Group st + 1) * OutputChannels wb /\
  (Group st + 1) * OutputChannels wb
    <= GroupCount WorkBlock * OutputChannels wb.
Proof.
  intros Hfs Hg. pose proof FilterSetCount_blocks as Hn. cbv zeta in Hn.
  unfold FirstChannel, FilterSetSize. fold wb. rewrite Blocked.
  set (n := FilterSetCount BlockSize WorkBlock) in *. clearbody n.
  set (g := Group st) in *. set (fs := FilterSet st) in *.
  set (gc := GroupCount WorkBlock) in *. clearbody g fs gc.
  assert (0 <= g * (BlockSize * Blocks)) by nia.
  assert (0 <= BlockSize * 4 * fs) by nia.
  assert ((g + 1) * (BlockSize * Blocks) <= gc * (BlockSize * Blocks))
    by (apply Z.mul_le_mono_nonneg_r; nia).
  split; [lia|]. split; [|lia].
  assert (BlockSize * Z.min 4 (Blocks - 4 * fs)
          <= BlockSize * (Blocks - 4 * fs))
    by (apply Z.mul_le_mono_nonneg_l; lia).
  lia.
Qed.

(** [CompleteWork] keeps the pointers positioned: inside a group they
    move to the next filter set, at the end of a group to the start of the
    next group, and after the last group back to the work block's. *)
Lemma CompleteWork_positioned W st :
  Positioned BlockSize WorkBlock st ->
  Positioned BlockSize WorkBlock (CompleteWork BlockSize WorkBlock W st).
Proof.
  unfold Positioned. cbv zeta. fold wb.
  intros (HF & HB & HC & Hfs & Hg).
  pose proof FilterSetCount_blocks as Hn. cbv zeta in Hn.
  destruct (ComputeFilterCount_exact (FilterSet st) Hfs) as [HCe Hrem].
  destruct (FirstChannel_bounds st Hfs Hg) as (Hc0 & Hc1 & Hc2).
  assert (Hfits : 4 * BlockSize < SizeT.modulus).
  { destruct (product_bounds 0) as (_ & H & _); [nia|]. unfold Tot in H.
    lia. }
  assert (Hgc : GroupCount WorkBlock < SizeT.modulus).
  { destruct (product_bounds (GroupCount WorkBlock)) as (_ & _ & H).
    - rewrite Blocked. nia.
    - unfold Tot in H. lia. }
  assert (Hnr : FilterSetCount BlockSize WorkBlock < SizeT.modulus).
  { assert (Blocks <= Tot).
    { destruct (product_bounds (OutputChannels wb)) as (_ & _ & H); [nia|].
      rewrite Blocked in H. nia. }
    unfold Tot in *. lia. }
  unfold CompleteWork. fold wb.
  destruct (_ =? OutputHeight wb);
    [|cbn [Filter Bias FilterCount FilterSet Group];
      unfold FirstChannel; cbn [FilterSet Group]; tauto].
  rewrite HC, HCe.
  set (fc := Z.min 4 (Blocks - 4 * FilterSet st)) in *.
  assert (Hfc : 1 <= fc <= 4) by (unfold fc; lia).
  assert (EB : BlockSize *% fc = BlockSize * fc)
    by (apply wrap_small; nia).
  rewrite !EB.
  assert (EF : BlockSize * fc *% InputChannels wb *% KernelSize wb
               = BlockSize * fc * InputChannels wb * KernelSize wb).
  { apply mul3_exact. nia. }
  rewrite EF.
  assert (E1 : FilterSet st +% 1 = FilterSet st + 1)
    by (apply wrap_small; lia).
  assert (E2 : Group st +% 1 = Group st + 1) by (apply wrap_small; lia).
  rewrite E1, E2.
  destruct (Z.eqb_spec (FilterSet st + 1) (FilterSetCount BlockSize WorkBlock))
    as [Elast|Emore].
  - assert (Hfull : FirstChannel BlockSize WorkBlock st + BlockSize * fc
                    = (Group st + 1) * OutputChannels wb).
    { unfold FirstChannel, FilterSetSize, fc. fold wb. rewrite Blocked.
      rewrite Z.min_r by lia. lia. }
    destruct (Z.eqb_spec (Group st + 1) (GroupCount WorkBlock)) as [Eg|Eg];
      cbn [Filter Bias FilterCount FilterSet Group];
      unfold FirstChannel; cbn [FilterSet Group]; fold wb.
    + rewrite !Z.mul_0_r, !Z.mul_0_l, Z.add_0_r, AdvanceBias_zero.
      repeat split; lia.
    + rewrite HF, HB, AdvanceBias_twice, Hfull.
      repeat split; try lia. f_equal. lia.
  - cbn [Filter Bias FilterCount FilterSet Group].
    unfold FirstChannel; cbn [FilterSet Group]; fold wb.
    assert (Hfc4 : fc = 4) by (unfold fc; lia).
    rewrite HF, HB, AdvanceBias_twice. unfold FirstChannel, FilterSetSize.
    fold wb. rewrite Hfc4.
    repeat split; try lia. f_equal. lia.
Qed.

Lemma PrepareWork_positioned Index :
  Positioned BlockSize WorkBlock (PrepareWork BlockSize WorkBlock Index).
Proof.
  pose proof FilterSetCount_blocks as Hn. cbv zeta in Hn.
  unfold PrepareWork. fold wb.
  destruct (PartitionWork _ _ _) as [WorkIndex WorkRemaining0].
  set (fs := WorkIndex / OutputHeight wb
             mod FilterSetCount BlockSize WorkBlock).
  set (g := WorkIndex / OutputHeight wb / FilterSetCount BlockSize WorkBlock
            mod GroupCount WorkBlock).
  assert (Hfs : 0 <= fs < FilterSetCount BlockSize WorkBlock)
    by (apply Z.mod_pos_bound; lia).
  assert (Hg : 0 <= g < GroupCount WorkBlock)
    by (apply Z.mod_pos_bound; lia).
  unfold Positioned. cbv zeta. fold wb.
  cbn [Filter Bias FilterCount FilterSet Group].
  unfold FirstChannel. cbn [FilterSet Group]. fold wb.
  unfold FilterSetSize.
  assert (Hg1 : 0 <= g * OutputChannels wb
                <= GroupCount WorkBlock * OutputChannels wb).
  { rewrite Blocked. split; [nia|].
    apply Z.mul_le_mono_nonneg_r; nia. }
  assert (Hf1 : 0 <= BlockSize * fs * 4
                <= GroupCount WorkBlock * OutputChannels wb).
  { rewrite Blocked. split; [nia|].
    assert (BlockSize * fs * 4 <= BlockSize * Blocks) by nia.
    assert (1 * (BlockSize * Blocks)
            <= GroupCount WorkBlock * (BlockSize * Blocks))
      by (apply Z.mul_le_mono_nonneg_r; nia).
    lia. }
  assert (Htot : GroupCount WorkBlock * OutputChannels wb <= Tot).
  { destruct (product_bounds (GroupCount WorkBlock * OutputChannels wb))
      as (_ & _ & H); [rewrite Blocked; nia|exact H]. }
  unfold Tot in Htot.
  assert (EG : g *% OutputChannels wb = g * OutputChannels wb)
    by (apply wrap_small; lia).
  assert (EF : BlockSize *% fs *% 4 = BlockSize * fs * 4).
  { unfold SizeT.mul. rewrite (wrap_small (BlockSize * fs)) by nia.
    apply wrap_small. lia. }
  rewrite EG, EF, !mul3_exact, AdvanceBias_twice by assumption.
  split; [lia|]. split; [f_equal; lia|]. auto.
Qed.

(** At the end of a group that is not the last one, the pointers are at
    the first filter and the first bias of the next group. *)
Lemma CompleteWork_enters_next_group W st :
  Positioned BlockSize WorkBlock st ->
  ph st +% W = OutputHeight wb ->
  FilterSet st +% 1 = FilterSetCount BlockSize WorkBlock ->
  Group st +% 1 <> GroupCount WorkBlock ->
  let st1 := CompleteWork BlockSize WorkBlock W st in
  Filter st1 =
    WorkBlock_Filter WorkBlock
    + (Group st + 1) * OutputChannels wb * InputChannels wb * KernelSize wb /\
  Bias st1 =
    AdvanceBias (WorkBlock_Bias WorkBlock)
                ((Group st + 1) * OutputChannels wb).
Proof.
  intros Hpos Hph Hfs Hg st1.
  pose proof (CompleteWork_positioned W st Hpos) as Hpos1. fold st1 in Hpos1.
  destruct Hpos as (_ & _ & _ & _ & Hgr).
  assert (Hgc : GroupCount WorkBlock < SizeT.modulus).
  { destruct (product_bounds (GroupCount WorkBlock)) as (_ & _ & H).
    - rewrite Blocked. nia.
    - unfold Tot in H. lia. }
  assert (E2 : Group st +% 1 = Group st + 1) by (apply wrap_small; lia).
  assert (Est : Group st1 = Group st + 1 /\ FilterSet st1 = 0).
  { unfold st1, CompleteWork. fold wb. rewrite Hph, Hfs, !Z.eqb_refl.
    destruct (Z.eqb_spec (Group st +% 1) (GroupCount WorkBlock));
      [contradiction|]. cbn [Group FilterSet]. auto. }
  destruct Est as [EG EFS].
  destruct Hpos1 as (HF & HB & _). cbv zeta in HF. fold wb in HF.
  unfold FirstChannel in HF, HB. fold wb in HF, HB.
  rewrite EG, EFS, Z.mul_0_r, Z.add_0_r in HF, HB. auto.
Qed.

End Position.

(** On [GroupedExample], whose groups have one block of output channels,
    the end of group 0 leaves the pointers at the filters and biases of
    group 1. *)
Lemma GroupedExample_enters_group_1 :
  let st1 :=
    CompleteWork 8 GroupedExample 5 (PrepareWork 8 GroupedExample 0) in
  Filter st1 = WorkBlock_Filter GroupedExample + 1 * 8 * 8 * 49 /\
  Bias st1 = AdvanceBias (WorkBlock_Bias GroupedExample) (1 * 8).
Proof.
  assert (Hpos : Positioned 8 GroupedExample (PrepareWork 8 GroupedExample 0))
    by (apply (PrepareWork_positioned 8 GroupedExample 1); by_computation).
  apply (CompleteWork_enters_next_group 8 GroupedExample 1); try exact Hpos;
    by_computation.
Qed.

(** C8, as worded, fails.  After the first five rows of [GroupedExample]
    the only filter set of group 0 is done, and the filter and bias
    pointers have moved on to group 1 instead of going back to the work
    block's. *)
Lemma CompleteWork_keeps_Filter_between_groups :
  let st0 := PrepareWork 8 GroupedExample 0 in
  let st1 := CompleteWork 8 GroupedExample 5 st0 in
  ph st0 +% 5 = OutputHeight (ConvBase GroupedExample) /\
  FilterSet st0 +% 1 = FilterSetCount 8 GroupedExample /\
  Filter st1 <> WorkBlock_Filter GroupedExample /\
  Bias st1 <> WorkBlock_Bias GroupedExample.
Proof. by_computation. Qed.

(** C8, amended.  When a call of [CompleteWork] finishes the last filter
    set of a group ([ph] reaches the output height and [FilterSet] reaches
    [FilterSetCount]): if the group is the last one ([Group] reaches
    [GroupCount]) the filter and bias pointers are reset to the work
    block's and [Group] to 0; otherwise they advance past the filter set
    just done, into the next group's filters and biases.  In both cases
    [FilterSet] and [ph] return to 0 and the input pointer advances by one
    group of channels. *)
Theorem CompleteWork_resets_after_last_group BlockSize WorkBlock W st :
  let wb := ConvBase WorkBlock in
  let st1 := CompleteWork BlockSize WorkBlock W st in
  ph st +% W = OutputHeight wb ->
  FilterSet st +% 1 = FilterSetCount BlockSize WorkBlock ->
  (Group st +% 1 = GroupCount WorkBlock ->
   Filter st1 = WorkBlock_Filter WorkBlock /\
   Bias st1 = WorkBlock_Bias WorkBlock /\ Group st1 = 0) /\
  (Group st +% 1 <> GroupCount WorkBlock ->
   Filter st1 =
     Filter st
       + BlockSize *% FilterCount st *% InputChannels wb *% KernelSize wb /\
   Bias st1 = AdvanceBias (Bias st) (BlockSize *% FilterCount st) /\
   Group st1 = Group st +% 1) /\
  FilterSet st1 = 0 /\ ph st1 = 0 /\
  Input st1 = Input st + InputChannels wb *% InputSize wb.
Proof.
  intros wb st1 Hph Hfs. unfold st1, CompleteWork. fold wb.
  rewrite Hph, Hfs, !Z.eqb_refl.
  destruct (Z.eqb_spec (Group st +% 1) (GroupCount WorkBlock)) as [E|NE];
    cbn [Filter Bias Group FilterSet ph Input];
    repeat split; intros; congruence.
Qed.

Lemma CompleteWork_resets_after_last_group_witness :
  let st0 := PrepareWork 8 GroupedExample 0 in
  let st1 := CompleteWork 8 GroupedExample 5 st0 in
  let st2 := CompleteWork 8 GroupedExample 5 st1 in
  Filter st2 = WorkBlock_Filter GroupedExample /\
  Bias st2 = WorkBlock_Bias GroupedExample /\ Group st2 = 0.
Proof.
  refine (proj1
    (CompleteWork_resets_after_last_group 8 GroupedExample 5
       (CompleteWork 8 GroupedExample 5 (PrepareWork 8 GroupedExample 0))
       _ _) _); by_computation.
Defined.

(** ** The pooling executor *)

Section PoolFacts.

Variable BlockSize : Z.
Variable WorkBlock : MLAS_NCHWC_POOL_WORK_BLOCK.

Let wb := PoolBase WorkBlock.

Lemma PoolBody_event st :
  exists st1 a,
    PoolBody BlockSize WorkBlock st
      = Some (st1, [PoolKernel (PoolingKind WorkBlock) (pool_ph st) a]) /\
    pk_KernelSize a = KernelHeight wb *% KernelWidth wb /\
    pool_WorkRemaining st1 = pool_WorkRemaining st -% 1.
Proof.
  unfold PoolBody. fold wb.
  destruct (if InPadRegion wb (pool_ph st) then _ else _) as [ih ekh].
  do 2 eexists. split; [reflexivity|]. split; [reflexivity|].
  destruct (_ =? _); reflexivity.
Qed.

Lemma PoolLoop_runs fuel : forall st,
  0 <= pool_WorkRemaining st <= Z.of_nat fuel ->
  pool_WorkRemaining st < SizeT.modulus ->
  exists st1 es,
    while PoolWorkLeft (PoolBody BlockSize WorkBlock) fuel st
      = Some (st1, es) /\
    Forall (PoolDivisorContract WorkBlock) es /\
    Z.of_nat (length es) = pool_WorkRemaining st.
Proof.
  induction fuel as [|fuel IH]; intros st Hfuel Hr; cbn [while];
    unfold PoolWorkLeft at 1;
    destruct (Z.ltb_spec 0 (pool_WorkRemaining st)) as [Hpos|Hzero];
    try lia.
  - exists st, []. repeat split; [constructor | cbn [length]; lia].
  - destruct (PoolBody_event st) as (st1 & a & -> & Hk & Hw).
    unfold SizeT.sub in Hw. rewrite wrap_small in Hw by lia.
    destruct (IH st1 ltac:(lia) ltac:(lia)) as (st2 & es & -> & HF & Hlen).
    exists st2. eexists. split; [reflexivity|]. split.
    + constructor; [|exact HF]. split; [reflexivity|exact Hk].
    + cbn [app length]. lia.
  - exists st, []. repeat split; [constructor | cbn [length]; lia].
Qed.

End PoolFacts.

(** C10.  For every work block, block size and thread index the pooling
    executor runs to completion; it makes one microkernel call per output
    row of its range, each through the kernel of the work block's pooling
    kind, and the kernel-size argument of every call is
    [KernelHeight * KernelWidth], whatever the effective kernel height
    passed next to it. *)
Theorem Pool_divisor_is_untrimmed_kernel_size BlockSize
    (WorkBlock : MLAS_NCHWC_POOL_WORK_BLOCK) Index :
  exists es,
    PoolExecute BlockSize WorkBlock Index = Some es /\
    Forall (PoolDivisorContract WorkBlock) es /\
    Z.of_nat (length es)
      = pool_WorkRemaining (PoolPrepare BlockSize WorkBlock Index).
Proof.
  unfold PoolExecute.
  assert (Hr : SizeT.InRange
                 (pool_WorkRemaining (PoolPrepare BlockSize WorkBlock Index))).
  { unfold PoolPrepare.
    match goal with
    | |- context [PartitionWork Index ?w ?W] =>
        pose proof (PartitionWork_remaining_range Index w W
                      ltac:(apply wrap_range)) as Hr;
        destruct (PartitionWork Index w W) as [WorkIndex WorkRemaining0]
    end.
    exact Hr. }
  unfold SizeT.InRange in Hr.
  destruct (PoolLoop_runs BlockSize WorkBlock
              (Z.to_nat (pool_WorkRemaining
                           (PoolPrepare BlockSize WorkBlock Index)))
              (PoolPrepare BlockSize WorkBlock Index)
              ltac:(lia) ltac:(lia)) as (st1 & es & -> & HF & Hlen).
  exists es. auto.
Qed.

Lemma Pool_edge_row_example :
  exists a rest,
    PoolExecute 8 PoolExample 0
      = Some (PoolKernel MlasAveragePoolingExcludePad 0 a :: rest) /\
    pk_EffectiveKernelHeight a = 4 /\ pk_KernelWidth a = 7 /\
    pk_KernelSize a = 49.
Proof. do 2 eexists. split; [vm_compute; reflexivity|]. by_computation. Qed.

(** ** The flag word over whole executions *)

(** C4.  With a block size of at least 1 and channel and row counts in
    range, the NCHWc, NCHW and pointwise executors run to completion, and
    every microkernel call they make satisfies the flag contract: bit 0 is
    set exactly when the input-channel index is nonzero or [ZeroMode] is
    false; bits 1, 2 and 3 are set only on the call whose channel index
    plus channel step equals [InputChannels], bit 1 only when the bias
    pointer is not null (the call's bias pointer being null exactly when
    the caller's is), bit 2 only for ReLU, bit 3 only for a kind that is
    neither identity nor ReLU. *)
Theorem KernelFlags_only_on_final_writer BlockSize
    (WorkBlock : MLAS_NCHWC_CONV_WORK_BLOCK) Index :
  let wb := ConvBase WorkBlock in
  1 <= BlockSize < SizeT.modulus -> 0 <= InputChannels wb ->
  InputChannels wb + BlockSize <= SizeT.modulus ->
  1 <= OutputHeight wb < SizeT.modulus ->
  exists nchwc nchw pointwise,
    NchwcExecute BlockSize WorkBlock Index = Some nchwc /\
    NchwExecute BlockSize WorkBlock Index = Some nchw /\
    PointwiseExecute BlockSize WorkBlock Index = Some pointwise /\
    Forall (EventFlagsContract WorkBlock) (nchwc ++ nchw ++ pointwise).
Proof.
  intros wb HB HC Hfit HOH.
  destruct (NchwcExecute_terminates BlockSize WorkBlock)
    with (Index := Index) as [t1 H1]; try assumption; try lia.
  destruct (NchwExecute_terminates BlockSize WorkBlock)
    with (Index := Index) as [t2 H2]; try assumption; try lia.
  destruct (PointwiseExecute_terminates BlockSize WorkBlock)
    with (Index := Index) as [t3 H3]; try assumption; try lia.
  exists t1, t2, t3. repeat split; try assumption.
  assert (HBr : 1 <= BlockSize < SizeT.modulus) by exact HB.
  assert (HCr : 0 <= InputChannels (ConvBase WorkBlock) < SizeT.modulus)
    by (fold wb; lia).
  rewrite !Forall_app. repeat split.
  - eapply NchwcExecute_flags; eassumption.
  - eapply NchwExecute_flags; eassumption.
  - eapply PointwiseExecute_flags; eassumption.
Qed.

Lemma KernelFlags_only_on_final_writer_witness :
  exists nchwc nchw pointwise,
    NchwcExecute 8 GroupedExample 0 = Some nchwc /\
    NchwExecute 8 GroupedExample 0 = Some nchw /\
    PointwiseExecute 8 GroupedExample 0 = Some pointwise /\
    Forall (EventFlagsContract GroupedExample) (nchwc ++ nchw ++ pointwise).
Proof.
  apply (KernelFlags_only_on_final_writer 8 GroupedExample 0);
    by_computation.
Defined.

(** ** Algorithm selection *)

(** C6.  For a two-dimensional convolution, the work block handed over by
    [MlasNchwcConv] holds the channel counts divided by the group count,
    and the routine is chosen from these per-group counts: pointwise
    exactly when [C_in >= B], both kernel extents are 1 and the four
    paddings are 0; NCHWc exactly when [C_in >= B] otherwise; depthwise
    exactly when [C_in < B] and [C_in = C_out = 1]; NCHW in the remaining
    cases. *)
Theorem MlasNchwcConv_selection BlockSize MaximumThreadCount WorkBlock0
    pInputShape pKernelShape pDilationShape pPadding pStrideShape
    pOutputShape GroupCountV InputV FilterV BiasV OutputV ActivationV
    ZeroModeV :
  WorkBlockShaped WorkBlock0 -> 1 <= GroupCountV ->
  let r :=
    MlasNchwcConv BlockSize MaximumThreadCount WorkBlock0 2 pInputShape
      pKernelShape pDilationShape pPadding pStrideShape pOutputShape
      GroupCountV InputV FilterV BiasV OutputV ActivationV ZeroModeV in
  let Cin := size_t (pInputShape !!! 1%nat) / GroupCountV in
  let Cout := size_t (pOutputShape !!! 1%nat) / GroupCountV in
  let Unpadded1x1 :=
    StoredKernel pInputShape pKernelShape 0 = 1 /\
    StoredKernel pInputShape pKernelShape 1 = 1 /\
    StoredPadding pPadding 0 = 0 /\ StoredPadding pPadding 1 = 0 /\
    StoredPadding pPadding 2 = 0 /\ StoredPadding pPadding 3 = 0 in
  InputChannels (ConvBase r.2) = Cin /\
  OutputChannels (ConvBase r.2) = Cout /\
  GroupCount r.2 = GroupCountV /\
  (r.1 = MLAS_NCHWC_CONV_POINTWISE_ALGORITHM <->
     BlockSize <= Cin /\ Unpadded1x1) /\
  (r.1 = MLAS_NCHWC_CONV_NCHWC_ALGORITHM <->
     BlockSize <= Cin /\ ~ Unpadded1x1) /\
  (r.1 = MLAS_NCHWC_CONV_DEPTHWISE_ALGORITHM <->
     Cin < BlockSize /\ Cin = 1 /\ Cout = 1) /\
  (r.1 = MLAS_NCHWC_CONV_NCHW_ALGORITHM <->
     Cin < BlockSize /\ ~ (Cin = 1 /\ Cout = 1)).
Proof.
  intros Hshape HG r Cin Cout Unpadded1x1.
  pose proof (MlasPrepareNchwcWorkBlock_stored WorkBlock0 2 pInputShape
                pKernelShape pDilationShape pPadding pStrideShape pOutputShape
                0 Hshape ltac:(lia)) as [D0 (_ & HCi & HCo)].
  pose proof (MlasPrepareNchwcWorkBlock_stored WorkBlock0 2 pInputShape
                pKernelShape pDilationShape pPadding pStrideShape pOutputShape
                1 Hshape ltac:(lia)) as [D1 _].
  cbv zeta in D0, D1, HCi, HCo.
  set (wb1 := MlasPrepareNchwcWorkBlock WorkBlock0 2 pInputShape pKernelShape
                pDilationShape pPadding pStrideShape pOutputShape) in *.
  destruct D0 as (_ & _ & K0 & _ & P0 & P2 & _).
  destruct D1 as (_ & _ & K1 & _ & P1 & P3 & _).
  assert (EK0 : KernelShape wb1 !!! 0%nat
                = StoredKernel pInputShape pKernelShape 0).
  { rewrite K0. unfold ArgKernel, ArgInput, StoredKernel.
    destruct pKernelShape; [reflexivity|]. now rewrite lookup_total_drop. }
  assert (EK1 : KernelShape wb1 !!! 1%nat
                = StoredKernel pInputShape pKernelShape 1).
  { rewrite K1. unfold ArgKernel, ArgInput, StoredKernel.
    destruct pKernelShape; [reflexivity|]. now rewrite lookup_total_drop. }
  assert (EP0 : Padding wb1 !!! 0%nat = StoredPadding pPadding 0)
    by (rewrite P0; reflexivity).
  assert (EP1 : Padding wb1 !!! 1%nat = StoredPadding pPadding 1)
    by (rewrite P1; reflexivity).
  assert (EP2 : Padding wb1 !!! 2%nat = StoredPadding pPadding 2)
    by (cbn [Nat.add] in P2; rewrite P2; reflexivity).
  assert (EP3 : Padding wb1 !!! 3%nat = StoredPadding pPadding 3)
    by (cbn [Nat.add] in P3; rewrite P3; reflexivity).
  unfold r, MlasNchwcConv. fold wb1. cbn [fst snd ConvBase GroupCount].
  unfold SetThreads, SetChannels. cbn [InputChannels OutputChannels].
  rewrite HCi, HCo. fold Cin Cout.
  split; [reflexivity|]. split; [reflexivity|]. split; [reflexivity|].
  unfold SelectConvAlgorithm.
  cbn [InputChannels OutputChannels KernelShape Padding].
  rewrite EK0, EK1, EP0, EP1, EP2, EP3.
  unfold Unpadded1x1.
  destruct (Z.leb_spec BlockSize Cin) as [Hge|Hlt].
  - destruct (Z.eqb_spec (StoredKernel pInputShape pKernelShape 0) 1);
      destruct (Z.eqb_spec (StoredKernel pInputShape pKernelShape 1) 1);
      destruct (Z.eqb_spec (StoredPadding pPadding 0) 0);
      destruct (Z.eqb_spec (StoredPadding pPadding 1) 0);
      destruct (Z.eqb_spec (StoredPadding pPadding 2) 0);
      destruct (Z.eqb_spec (StoredPadding pPadding 3) 0);
      cbn [andb]; repeat split; intros; try discriminate; try lia;
      try tauto.
  - destruct (Z.eqb_spec Cin 1); destruct (Z.eqb_spec Cout 1);
      cbn [andb]; repeat split; intros; try discriminate; try lia;
      try tauto.
Qed.

Lemma MlasNchwcConv_selection_witness :
  (MlasNchwcConv 8 1 ExampleBlock 2 [1; 16; 9; 9] (Some [7; 7]) None
     (Some [3; 3; 3; 3]) (Some [2; 2]) [1; 16; 5; 5] 2 0 100000
     (Some 200000) 300000 MlasIdentityActivation true).1
  = MLAS_NCHWC_CONV_NCHWC_ALGORITHM.
Proof.
  apply (MlasNchwcConv_selection 8 1 ExampleBlock [1; 16; 9; 9]
           (Some [7; 7]) None (Some [3; 3; 3; 3]) (Some [2; 2])
           [1; 16; 5; 5] 2 0 100000 (Some 200000) 300000
           MlasIdentityActivation true ltac:(by_computation)
           ltac:(by_computation)).
  split; [by_computation|]. intros [H _]. revert H. by_computation.
Defined.

(** ** The effective kernel on the examples *)

(** C1 fails on [StridedExample].  Output row 1 starts at input row
    [1 * 2 - 3 = -1], but the preprocessor has stored a left-pad count of
    1 (two rows start above the input), the row counts as interior and
    the walk is skipped: the helper returns the wrapped row [2^64 - 1]
    with all 7 kernel rows and the filter pointer unchanged, and kernel
    row 0 is outside the input. *)
Theorem ComputeEffectiveKernel_reads_above_the_input FilterStride filter :
  let wb := StridedExample in
  let ek := ComputeEffectiveKernel wb 1 FilterStride filter in
  OutputHeight wb = MatchingOutput (InputHeight wb) 3 3 (SpanValue 1 7) 2 /\
  OutputCountLeftPadY wb = 1 /\
  ceil_div (PaddingLeftY wb) (StrideHeight wb) = 2 /\
  1 * StrideHeight wb - PaddingLeftY wb = -1 /\
  InPadRegion wb 1 = false /\
  ek_filter ek = filter /\
  ek_ih ek = SizeT.modulus - 1 /\
  ek_EffectiveKernelHeight ek = 7 /\
  ~ 0 <= ek_ih ek + 0 * DilationHeight wb < InputHeight wb.
Proof.
  cbv zeta. unfold ComputeEffectiveKernel.
  replace (InPadRegion StridedExample 1) with false
    by (vm_compute; reflexivity).
  cbn [ek_filter ek_ih ek_EffectiveKernelHeight].
  repeat split; try by_computation.
  intros [_ H]. vm_compute in H. discriminate.
Qed.

(** C7, as worded, fails.  On [DilatedExample] output row 2 starts at input
    row -1 and its two kernel rows are -1 and 5: none is inside the
    5-row input.  The walk moves the input row and the filter pointer
    twice, the closed form once. *)
Lemma ClosedFormTrim_differs_when_no_row_is_valid :
  1 <= StrideHeight DilatedExample /\ 1 <= DilationHeight DilatedExample /\
  InPadRegion DilatedExample 2 = true /\
  WalkTrim DilatedExample 2 16 0 = (11, 0, 32) /\
  ClosedFormTrim 2 (StrideHeight DilatedExample)
    (PaddingLeftY DilatedExample) (DilationHeight DilatedExample)
    (KernelHeight DilatedExample) (InputHeight DilatedExample) 16
    = (5, 0, 16) /\
  WalkTrim DilatedExample 2 16 0 <>
  ClosedFormTrim 2 (StrideHeight DilatedExample)
    (PaddingLeftY DilatedExample) (DilationHeight DilatedExample)
    (KernelHeight DilatedExample) (InputHeight DilatedExample) 16.
Proof. by_computation. Qed.

Lemma ClosedFormTrim_agrees_witness :
  WalkTrim StridedExample 0 56 0 = ClosedFormTrim 0 2 3 1 7 9 56.
Proof.
  apply (ClosedFormTrim_agrees_when_a_row_is_valid StridedExample 0 56 0);
    try by_computation.
  exists 3. by_computation.
Defined.

(** ** The left-pad count against the padding *)

Lemma floor_difference a p s :
  0 <= a -> 0 <= p -> 1 <= s ->
  p / s <= (a + p) / s - a / s <= ceil_div p s /\
  (p mod s = 0 -> (a + p) / s - a / s = p / s).
Proof.
  intros Ha Hp Hs.
  pose proof (div_bounds a s ltac:(lia) ltac:(lia)) as Ba.
  pose proof (div_bounds p s ltac:(lia) ltac:(lia)) as Bp.
  pose proof (div_bounds (a + p) s ltac:(lia) ltac:(lia)) as Bs.
  pose proof (ceil_div_bounds p s ltac:(lia)) as Bc.
  pose proof (Z.div_mod p s ltac:(lia)) as E.
  set (qa := a / s) in *. set (qp := p / s) in *.
  set (qs := (a + p) / s) in *. set (c := ceil_div p s) in *.
  clearbody qa qp qs c.
  split; [split; nia|].
  intros Hm. rewrite Hm in E. nia.
Qed.

Lemma ceil_div_small p s : 0 < p <= s -> ceil_div p s = 1.
Proof.
  intros H. pose proof (ceil_div_bounds p s ltac:(lia)). nia.
Qed.

Lemma ceil_div_exact p s : 1 <= s -> p mod s = 0 -> ceil_div p s = p / s.
Proof.
  intros Hs Hm. pose proof (ceil_div_bounds p s ltac:(lia)) as B.
  pose proof (Z.div_mod p s ltac:(lia)) as E. rewrite Hm in E. nia.
Qed.

Lemma ceil_div_zero s : 1 <= s -> ceil_div 0 s = 0.
Proof. intros Hs. unfold ceil_div. cbn. rewrite Z.div_0_l by lia. lia. Qed.

(** The counts of a dimension whose kernel fits in the unpadded input. *)
Lemma ComputeOutputCounts_fitting IH OH KH DH PL SH :
  1 <= KH < SizeT.modulus -> 1 <= DH -> 1 <= SH -> 0 <= PL ->
  DH * (KH - 1) + 1 <= IH -> IH + PL < SizeT.modulus ->
  0 <= OH < SizeT.modulus ->
  let Span := DH * (KH - 1) + 1 in
  let c := ComputeOutputCounts IH OH KH DH PL SH in
  let q1 := (IH - Span) / SH in
  let q2 := (IH + PL - Span) / SH in
  0 <= q1 <= q2 /\ q2 + 1 < SizeT.modulus /\
  dcLeftPad c = (if (q2 =? q1) && (0 <? PL) then 1 else q2 - q1) /\
  dcCount c = (if (q2 =? q1) && (0 <? PL) then q1 else q1 + 1) /\
  dcRightPad c = SizeT.wrap (OH - (q2 + 1)).
Proof.
  intros HK HD Hs HP Hfit Hlt HO Span c q1 q2.
  assert (HS : 1 <= Span) by (unfold Span; nia).
  pose proof (div_bounds (IH - Span) SH ltac:(lia) ltac:(lia)) as B1.
  pose proof (div_bounds (IH + PL - Span) SH ltac:(lia) ltac:(lia)) as B2.
  fold q1 in B1. fold q2 in B2.
  assert (Hq : 0 <= q1 <= q2) by nia.
  assert (Hq2 : q2 + 1 < SizeT.modulus) by nia.
  split; [exact Hq|]. split; [exact Hq2|].
  unfold c, ComputeOutputCounts.
  rewrite SpanValue_exact by lia. fold Span.
  rewrite OutputCountInterior_exact by lia.
  rewrite OutputCountWithLeftPad_exact by lia.
  destruct (Z.leb_spec Span IH) as [_|]; [|lia].
  destruct (Z.leb_spec Span (IH + PL)) as [_|]; [|lia].
  fold q1 q2. unfold SizeT.sub.
  rewrite (wrap_small (q2 + 1 - (q1 + 1))) by lia.
  unfold FixupTaken.
  replace (q2 + 1 - (q1 + 1) =? 0) with (q2 =? q1)
    by (destruct (Z.eqb_spec q2 q1), (Z.eqb_spec (q2 + 1 - (q1 + 1)) 0); lia).
  destruct ((q2 =? q1) && (0 <? PL)); cbn [dcLeftPad dcCount dcRightPad].
  - rewrite (wrap_small (q1 + 1 - 1)) by lia. repeat split; lia.
  - repeat split; lia.
Qed.

(** The left-pad count lies between the floor and the ceiling of
    [PL / SH], and is the ceiling when the padding does not exceed the
    stride or is a multiple of it. *)
Lemma ComputeOutputCounts_left_pad IH OH KH DH PL SH :
  1 <= KH < SizeT.modulus -> 1 <= DH -> 1 <= SH -> 0 <= PL ->
  DH * (KH - 1) + 1 <= IH -> IH + PL < SizeT.modulus ->
  0 <= OH < SizeT.modulus ->
  let c := ComputeOutputCounts IH OH KH DH PL SH in
  PL / SH <= dcLeftPad c <= ceil_div PL SH /\
  (PL <= SH \/ PL mod SH = 0 -> dcLeftPad c = ceil_div PL SH) /\
  dcLeftPad c + dcCount c = (IH + PL - (DH * (KH - 1) + 1)) / SH + 1 /\
  0 <= dcCount c.
Proof.
  intros HK HD Hs HP Hfit Hlt HO c.
  destruct (ComputeOutputCounts_fitting IH OH KH DH PL SH HK HD Hs HP Hfit
              Hlt HO) as (Hq & Hq2 & EL & EC & _).
  fold c in EL, EC. cbv zeta in *.
  set (Span := DH * (KH - 1) + 1) in *.
  destruct (floor_difference (IH - Span) PL SH ltac:(lia) HP Hs)
    as [Hfc Hdiv].
  replace (IH - Span + PL) with (IH + PL - Span) in * by lia.
  set (q1 := (IH - Span) / SH) in *. set (q2 := (IH + PL - Span) / SH) in *.
  pose proof (ceil_div_bounds PL SH ltac:(lia)) as Bc.
  pose proof (div_bounds PL SH HP ltac:(lia)) as Bp.
  assert (Hfl : 0 <= PL / SH) by (apply Z.div_pos; lia).
  assert (Hmain : PL / SH <= dcLeftPad c <= ceil_div PL SH /\
                  (PL <= SH \/ PL mod SH = 0 -> dcLeftPad c = ceil_div PL SH)).
  { rewrite EL.
    destruct (Z.eqb_spec q2 q1) as [E|NE]; destruct (Z.ltb_spec 0 PL) as [Hp|Hp];
      cbn [andb].
    - assert (PL / SH = 0) by lia.
      assert (PL < SH) by nia.
      rewrite (ceil_div_small PL SH) by lia. split; [lia|]. intros _; lia.
    - assert (PL = 0) by lia. subst PL.
      rewrite ceil_div_zero by lia. rewrite Z.div_0_l by lia.
      split; [lia|]. intros _; lia.
    - split; [lia|]. intros [Hle|Hm].
      + destruct (Z.eq_dec PL SH) as [->|Hne].
        * rewrite ceil_div_exact by (rewrite ?Z.mod_same; lia).
          apply Hdiv. rewrite Z.mod_same; lia.
        * rewrite (ceil_div_small PL SH) by lia.
          rewrite (ceil_div_small PL SH) in Hfc by lia. lia.
      + rewrite ceil_div_exact by assumption. auto.
    - exfalso. apply NE. unfold q2, q1. f_equal. lia. }
  destruct Hmain as [Hb Heq]. split; [exact Hb|]. split; [exact Heq|].
  rewrite EL, EC.
  destruct ((q2 =? q1) && (0 <? PL)) eqn:Hfix; [|lia].
  apply andb_true_iff in Hfix as [E _]. apply Z.eqb_eq in E. lia.
Qed.

(** X1.  For a dimension whose dilated kernel fits in the unpadded input
    ([DH * (KH - 1) + 1 <= IH]), with a stride of at least 1 and values in
    [size_t] range, the left-pad count that the preprocessor computes lies
    between the floor and the ceiling of [PL / SH]; it is the ceiling, the
    number of positions that start above the input, when the padding does
    not exceed the stride or is a multiple of it, and it can fall short of
    the ceiling only when [PL > SH] and [SH] does not divide [PL]; the
    left-pad and interior counts together are
    [(IH + PL - Span) / SH + 1]. *)
Theorem LeftPad_between_floor_and_ceil IH OH KH DH PL SH :
  1 <= KH < SizeT.modulus -> 1 <= DH -> 1 <= SH -> 0 <= PL ->
  DH * (KH - 1) + 1 <= IH -> IH + PL < SizeT.modulus ->
  0 <= OH < SizeT.modulus ->
  let c := ComputeOutputCounts IH OH KH DH PL SH in
  PL / SH <= dcLeftPad c <= ceil_div PL SH /\
  (PL <= SH \/ PL mod SH = 0 -> dcLeftPad c = ceil_div PL SH) /\
  (dcLeftPad c < ceil_div PL SH -> SH < PL /\ PL mod SH <> 0) /\
  dcLeftPad c + dcCount c = (IH + PL - (DH * (KH - 1) + 1)) / SH + 1.
Proof.
  intros HK HD Hs HP Hfit Hlt HO c.
  destruct (ComputeOutputCounts_left_pad IH OH KH DH PL SH HK HD Hs HP Hfit
              Hlt HO) as (Hb & Heq & Hsum & _).
  fold c in Hb, Heq, Hsum.
  split; [exact Hb|]. split; [exact Heq|]. split; [|exact Hsum].
  intros Hlt'. split.
  - destruct (Z_lt_dec SH PL); [assumption|].
    rewrite Heq in Hlt' by lia. lia.
  - intros Hm. rewrite Heq in Hlt' by auto. lia.
Qed.

Lemma LeftPad_between_floor_and_ceil_witness :
  3 / 2 <= dcLeftPad (ComputeOutputCounts 9 5 7 1 3 2) <= ceil_div 3 2 /\
  dcLeftPad (ComputeOutputCounts 9 9 3 1 1 1) = ceil_div 1 1.
Proof.
  split.
  - apply (LeftPad_between_floor_and_ceil 9 5 7 1 3 2); by_computation.
  - apply (LeftPad_between_floor_and_ceil 9 9 3 1 1 1); by_computation.
Defined.

(** ** The rows of a prepared two-dimensional work block *)

(** The counts of the height dimension as functions of the stored shape
    values, which are all [size_t] values. *)
Lemma Prepared_height WorkBlock pInputShape pKernelShape pDilationShape
    pPadding pStrideShape pOutputShape :
  WorkBlockShaped WorkBlock ->
  let wb :=
    MlasPrepareNchwcWorkBlock WorkBlock 2 pInputShape pKernelShape
      pDilationShape pPadding pStrideShape pOutputShape in
  let c :=
    ComputeOutputCounts (InputHeight wb) (OutputHeight wb) (KernelHeight wb)
      (DilationHeight wb) (PaddingLeftY wb) (StrideHeight wb) in
  (OutputCountLeftPadY wb = dcLeftPad c /\
   OutputCountY wb = dcCount c /\
   OutputCountRightPad wb !!! 0%nat = dcRightPad c) /\
  SizeT.InRange (InputHeight wb) /\ SizeT.InRange (OutputHeight wb) /\
  SizeT.InRange (KernelHeight wb) /\ SizeT.InRange (PaddingLeftY wb) /\
  SizeT.InRange (Padding wb !!! 2%nat) /\
  (pPadding = None -> PaddingLeftY wb = 0 /\ Padding wb !!! 2%nat = 0).
Proof.
  intros Hshape wb c.
  destruct (MlasPrepareNchwcWorkBlock_stored WorkBlock 2 pInputShape
              pKernelShape pDilationShape pPadding pStrideShape pOutputShape
              0 Hshape ltac:(lia)) as [Hst _].
  fold wb in Hst.
  destruct Hst as (EI & EO & EK & ED & EPL & EPR & ES & EL & EC & ER).
  cbn [Nat.add] in EPR.
  unfold ArgCounts in EL, EC, ER.
  rewrite <- EI, <- EO, <- EK, <- ED, <- EPL, <- ES in EL, EC, ER.
  assert (Hzero : SizeT.InRange 0)
    by (unfold SizeT.InRange; rewrite modulus_eq; lia).
  unfold OutputCountLeftPadY, OutputCountY, InputHeight, OutputHeight,
    KernelHeight, PaddingLeftY, HeightShapeIndex in *.
  split; [auto|].
  split; [rewrite EI; apply size_t_range|].
  split; [rewrite EO; apply size_t_range|].
  split.
  { rewrite EK. unfold ArgKernel, ArgInput.
    destruct pKernelShape; apply size_t_range. }
  split.
  { rewrite EPL. unfold ArgPaddingLeft.
    destruct pPadding; [apply size_t_range|apply Hzero]. }
  split.
  { rewrite EPR. unfold ArgPaddingRight.
    destruct pPadding; [apply size_t_range|apply Hzero]. }
  intros ->. rewrite EPL, EPR. split; reflexivity.
Qed.

(** A dimension whose kernel does not fit in the unpadded input has no
    interior position. *)
Lemma ComputeOutputCounts_no_interior IH OH KH DH PL SH :
  1 <= KH < SizeT.modulus -> 1 <= DH -> 1 <= SH -> 0 <= PL -> 0 <= IH ->
  IH < DH * (KH - 1) + 1 < SizeT.modulus -> IH + PL < SizeT.modulus ->
  1 <= OH < SizeT.modulus ->
  dcCount (ComputeOutputCounts IH OH KH DH PL SH) = 0.
Proof.
  intros HK HD Hs HP HI Hbig Hlt HO. unfold ComputeOutputCounts.
  rewrite SpanValue_exact by lia.
  set (Span := DH * (KH - 1) + 1) in *.
  rewrite OutputCountInterior_exact by lia.
  rewrite OutputCountWithLeftPad_exact by lia.
  destruct (Z.leb_spec Span IH) as [|_]; [lia|].
  set (W := if Span <=? IH + PL then (IH + PL - Span) / SH + 1 else OH).
  assert (HW : 1 <= W < SizeT.modulus).
  { unfold W. destruct (Z.leb_spec Span (IH + PL)); [|lia].
    pose proof (div_bounds (IH + PL - Span) SH ltac:(lia) ltac:(lia)). nia. }
  unfold SizeT.sub. rewrite (wrap_small (W - 0)) by lia.
  unfold FixupTaken.
  replace (W - 0 =? 0) with false by (symmetry; apply Z.eqb_neq; lia).
  reflexivity.
Qed.

(** X2.  For a two-dimensional work block prepared from valid arguments,
    with the matching output height and a top padding that does not exceed
    the stride or is a multiple of it, [ComputeEffectiveKernel] returns for
    every output row [ph < OH] an effective kernel height between 0 and
    [KH] and a first row such that every kernel row
    [ih + kh * DH], [kh < KHeff], lies in [[0, IH)]. *)
Theorem EffectiveKernel_valid_when_stride_covers_padding
    WorkBlock pInputShape pKernelShape pDilationShape pPadding pStrideShape
    pOutputShape (ph FilterStride filter : Z) :
  WorkBlockShaped WorkBlock ->
  ArgumentsValid 2 pInputShape pKernelShape pDilationShape pPadding
    pStrideShape pOutputShape ->
  let wb :=
    MlasPrepareNchwcWorkBlock WorkBlock 2 pInputShape pKernelShape
      pDilationShape pPadding pStrideShape pOutputShape in
  let IH := InputHeight wb in
  let OH := OutputHeight wb in
  let KH := KernelHeight wb in
  let DH := DilationHeight wb in
  let SH := StrideHeight wb in
  let PL := PaddingLeftY wb in
  let PR := Padding wb !!! 2%nat in
  let Span := DH * (KH - 1) + 1 in
  let ek := ComputeEffectiveKernel wb ph FilterStride filter in
  1 <= KH -> 1 <= DH -> 1 <= SH ->
  IH + PL + PR + DH < SizeT.modulus ->
  Span <= IH + PL + PR ->
  OH = MatchingOutput IH PL PR Span SH ->
  PL <= SH \/ PL mod SH = 0 ->
  0 <= ph < OH ->
  0 <= ek_EffectiveKernelHeight ek <= KH /\
  (forall kh, 0 <= kh < ek_EffectiveKernelHeight ek ->
     0 <= ek_ih ek + kh * DH < IH).
Proof.
  intros Hshape _ wb IH OH KH DH SH PL PR Span ek HK HD HS Hlt Hfit HOH Hcov
    Hph.
  destruct (Prepared_height WorkBlock pInputShape pKernelShape pDilationShape
              pPadding pStrideShape pOutputShape Hshape)
    as ((EL & EC & _) & RI & RO & RK & RPL & RPR & _).
  fold wb in EL, EC, RI, RO, RK, RPL, RPR.
  fold IH OH KH DH SH PL in EL, EC. fold IH in RI. fold OH in RO.
  fold KH in RK. fold PL in RPL. fold PR in RPR.
  unfold SizeT.InRange in RI, RO, RK, RPL, RPR.
  pose proof (div_bounds (IH + PL + PR - Span) SH ltac:(lia) ltac:(lia)) as B3.
  unfold MatchingOutput in HOH.
  set (q3 := (IH + PL + PR - Span) / SH) in *.
  assert (Hphs : 0 <= ph * SH <= IH + PL + PR - Span) by nia.
  assert (HKD : KH * DH = Span + DH - 1) by (unfold Span; lia).
  assert (Hwalk : InPadRegion wb ph = true ->
            0 <= ek_EffectiveKernelHeight ek <= KH /\
            (forall kh, 0 <= kh < ek_EffectiveKernelHeight ek ->
               0 <= ek_ih ek + kh * DH < IH)).
  { intros Hpad.
    destruct (ComputeEffectiveKernel_valid_where_the_walk_runs wb ph
                FilterStride filter) as (H1 & H2 & _);
      fold IH OH KH DH SH PL; try lia; try assumption.
    split; assumption. }
  destruct (InPadRegion wb ph) eqn:Hpad; [apply Hwalk; reflexivity|].
  clear Hwalk. unfold InPadRegion in Hpad. apply Z.leb_gt in Hpad.
  fold (OutputCountY wb) in Hpad. rewrite EL, EC in Hpad.
  destruct (Z_le_gt_dec Span IH) as [Hin|Hout].
  - destruct (ComputeOutputCounts_left_pad IH OH KH DH PL SH)
      as (Hb & Heq & Hsum & Hc0); try lia.
    cbv zeta in Hb, Heq, Hsum, Hc0. fold Span in Hsum.
    specialize (Heq Hcov).
    pose proof (div_bounds (IH + PL - Span) SH ltac:(lia) ltac:(lia)) as B2.
    pose proof (ceil_div_bounds PL SH ltac:(lia)) as Bc.
    set (L := dcLeftPad (ComputeOutputCounts IH OH KH DH PL SH)) in *.
    set (C := dcCount (ComputeOutputCounts IH OH KH DH PL SH)) in *.
    set (q2 := (IH + PL - Span) / SH) in *.
    assert (HL : 0 <= L) by (pose proof (Z.div_pos PL SH); lia).
    assert (Hq2 : q2 + 1 < SizeT.modulus).
    { assert (0 <= q2) by (apply Z.div_pos; lia).
      pose proof (Z.mul_le_mono_nonneg_r 1 SH q2 ltac:(lia) ltac:(lia)).
      lia. }
    assert (Hrow : L <= ph < L + C).
    { unfold SizeT.sub in Hpad.
      destruct (wrap_cases (ph - L)) as [[? E]|[[? E]|[? E]]];
        rewrite ?E in Hpad; lia. }
    assert (Hlo : PL <= ph * SH).
    { pose proof (Z.mul_le_mono_nonneg_r L ph SH ltac:(lia) ltac:(lia)).
      lia. }
    assert (Hhi : ph * SH <= IH + PL - Span).
    { pose proof (Z.mul_le_mono_nonneg_r ph q2 SH ltac:(lia) ltac:(lia)).
      lia. }
    unfold ek, ComputeEffectiveKernel, InPadRegion.
    fold (OutputCountY wb). rewrite EL, EC. fold L C.
    destruct (Z.leb_spec C (ph -% L)) as [|_]; [lia|].
    cbn [ek_EffectiveKernelHeight ek_ih]. fold SH PL.
    unfold SizeT.mul, SizeT.sub. rewrite wrap_sub_l.
    rewrite (wrap_small (ph * SH - PL)) by lia.
    split; [lia|]. intros kh Hkh.
    assert (0 <= kh * DH <= (KH - 1) * DH).
    { split; [apply Z.mul_nonneg_nonneg; lia|].
      apply Z.mul_le_mono_nonneg_r; lia. }
    unfold Span in Hhi. lia.
  - exfalso.
    rewrite (ComputeOutputCounts_no_interior IH OH KH DH PL SH) in Hpad
      by lia.
    pose proof (wrap_range
                  (ph - dcLeftPad (ComputeOutputCounts IH OH KH DH PL SH))).
    unfold SizeT.sub in Hpad. lia.
Qed.

Lemma EffectiveKernel_valid_when_stride_covers_padding_witness :
  let wb :=
    MlasPrepareNchwcWorkBlock ExampleBlock 2 [1; 8; 5; 5] (Some [3; 3]) None
      (Some [1; 1; 1; 1]) (Some [2; 2]) [1; 8; 3; 3] in
  let ek := ComputeEffectiveKernel wb 0 24 0 in
  0 <= ek_EffectiveKernelHeight ek <= KernelHeight wb /\
  (forall kh, 0 <= kh < ek_EffectiveKernelHeight ek ->
     0 <= ek_ih ek + kh * DilationHeight wb < InputHeight wb).
Proof.
  apply (EffectiveKernel_valid_when_stride_covers_padding ExampleBlock
           [1; 8; 5; 5] (Some [3; 3]) None (Some [1; 1; 1; 1]) (Some [2; 2])
           [1; 8; 3; 3] 0 24 0); try by_computation.
  left. by_computation.
Defined.

(** ** The sizes of a prepared work block *)

Lemma wrap_mul_l x y : SizeT.wrap (SizeT.wrap x * y) = SizeT.wrap (x * y).
Proof.
  destruct (wrap_decompose x) as [k ->].
  replace ((x + k * SizeT.modulus) * y) with (x * y + (k * y) * SizeT.modulus)
    by lia.
  apply wrap_shift.
Qed.

Lemma wrap_mul_r x y : SizeT.wrap (x * SizeT.wrap y) = SizeT.wrap (x * y).
Proof. rewrite Z.mul_comm, wrap_mul_l. f_equal. lia. Qed.

Lemma SizeProduct_snoc l x : SizeProduct (l ++ [x]) = SizeProduct l * x.
Proof.
  induction l as [|y l IH]; cbn [app SizeProduct fold_right] in *.
  - lia.
  - fold (SizeProduct (l ++ [x])). fold (SizeProduct l). rewrite IH. lia.
Qed.

Section PrepareSizes.

Variable Dimensions : nat.
Variables pInputShape pOutputShape : list Z.
Variables pKernelShape pDilationShape pPadding pStrideShape : option (list Z).

Let step :=
  PrepareDimension Dimensions pInputShape pKernelShape pDilationShape
    pPadding pStrideShape pOutputShape.

Lemma Prepare_loop_sizes wb0 k :
  (k <= length pInputShape)%nat -> (k <= length pOutputShape)%nat ->
  let st := fold_left step (seq 0 k) (wb0, 1, 1) in
  st.1.2 = SizeT.wrap (SizeProduct (map size_t (take k pInputShape))) /\
  st.2 = SizeT.wrap (SizeProduct (map size_t (take k pOutputShape))) /\
  BatchCount st.1.1 = BatchCount wb0 /\
  InputChannels st.1.1 = InputChannels wb0 /\
  OutputChannels st.1.1 = OutputChannels wb0 /\
  tids st.1.1 = tids wb0.
Proof.
  induction k as [|k IH]; intros Hi Ho; cbn zeta.
  - cbn. repeat split; reflexivity.
  - rewrite seq_S, fold_left_app. cbn [fold_left Nat.add].
    cbn zeta in IH. destruct IH as (IHi & IHo & IHc); [lia|lia|].
    destruct (fold_left step (seq 0 k) (wb0, 1, 1)) as [[wb a] b].
    cbn [fst snd] in IHi, IHo, IHc. unfold step, PrepareDimension.
    cbn [fst snd BatchCount InputChannels OutputChannels tids].
    rewrite (take_S_r pInputShape k (pInputShape !!! k))
      by (apply list_lookup_lookup_total_lt; lia).
    rewrite (take_S_r pOutputShape k (pOutputShape !!! k))
      by (apply list_lookup_lookup_total_lt; lia).
    rewrite !map_app. cbn [map]. rewrite !SizeProduct_snoc.
    rewrite IHi, IHo. unfold SizeT.mul. rewrite !wrap_mul_l. auto.
Qed.

End PrepareSizes.

(** X3.  For arguments that the preprocessor can read, the prepared work
    block has the batch count and input channels of the first two entries
    of the input shape and the output channels of the second entry of the
    output shape, converted to [size_t]; its thread count is the one it
    had; and [InputSize] and [OutputSize] are the products of the
    [Dimensions] spatial extents of the input and of the output, reduced
    modulo [2^64]: the products themselves when they are below [2^64]. *)
Theorem MlasPrepareNchwcWorkBlock_sizes WorkBlock Dimensions pInputShape
    pKernelShape pDilationShape pPadding pStrideShape pOutputShape :
  ArgumentsValid Dimensions pInputShape pKernelShape pDilationShape pPadding
    pStrideShape pOutputShape ->
  let wb :=
    MlasPrepareNchwcWorkBlock WorkBlock Dimensions pInputShape pKernelShape
      pDilationShape pPadding pStrideShape pOutputShape in
  let InputExtents := map size_t (take Dimensions (drop 2 pInputShape)) in
  let OutputExtents := map size_t (take Dimensions (drop 2 pOutputShape)) in
  BatchCount wb = size_t (pInputShape !!! 0%nat) /\
  InputChannels wb = size_t (pInputShape !!! 1%nat) /\
  OutputChannels wb = size_t (pOutputShape !!! 1%nat) /\
  tids wb = tids WorkBlock /\
  InputSize wb = SizeT.wrap (SizeProduct InputExtents) /\
  OutputSize wb = SizeT.wrap (SizeProduct OutputExtents) /\
  (SizeProduct InputExtents < SizeT.modulus ->
   InputSize wb = SizeProduct InputExtents) /\
  (SizeProduct OutputExtents < SizeT.modulus ->
   OutputSize wb = SizeProduct OutputExtents).
Proof.
  intros (_ & Hi & Ho & _) wb InputExtents OutputExtents.
  assert (Hsizes : InputSize wb = SizeT.wrap (SizeProduct InputExtents) /\
                   OutputSize wb = SizeT.wrap (SizeProduct OutputExtents) /\
                   BatchCount wb = size_t (pInputShape !!! 0%nat) /\
                   InputChannels wb = size_t (pInputShape !!! 1%nat) /\
                   OutputChannels wb = size_t (pOutputShape !!! 1%nat) /\
                   tids wb = tids WorkBlock).
  { unfold wb, MlasPrepareNchwcWorkBlock.
    match goal with
    | |- context [fold_left ?f (seq 0 Dimensions) (?w0, 1, 1)] =>
        pose proof (Prepare_loop_sizes Dimensions (drop 2 pInputShape)
                      (drop 2 pOutputShape) pKernelShape pDilationShape
                      pPadding pStrideShape w0 Dimensions) as Hinv;
        destruct (fold_left f (seq 0 Dimensions) (w0, 1, 1)) as [[w a] b] eqn:E
    end.
    cbn zeta in Hinv. cbn [fst snd] in Hinv.
    destruct Hinv as (Ha & Hb & Hc); [rewrite length_drop; lia..|].
    cbn [InputSize OutputSize BatchCount InputChannels OutputChannels tids]
      in *.
    tauto. }
  assert (Hnonneg : forall l, 0 <= SizeProduct (map size_t l)).
  { induction l as [|x l IH]; cbn [map SizeProduct fold_right]; [lia|].
    fold (SizeProduct (map size_t l)).
    pose proof (size_t_range x) as Hx. unfold SizeT.InRange in Hx. nia. }
  destruct Hsizes as (Ha & Hb & Hc1 & Hc2 & Hc3 & Hc4).
  repeat split; try assumption.
  - intros Hlt. rewrite Ha. apply wrap_small. split; [apply Hnonneg|exact Hlt].
  - intros Hlt. rewrite Hb. apply wrap_small. split; [apply Hnonneg|exact Hlt].
Qed.

Lemma MlasPrepareNchwcWorkBlock_sizes_witness :
  InputSize StridedExample = 81 /\ OutputSize StridedExample = 25.
Proof.
  destruct (MlasPrepareNchwcWorkBlock_sizes ExampleBlock 2 [1; 8; 9; 9]
              (Some [7; 7]) None (Some [3; 3; 3; 3]) (Some [2; 2])
              [1; 8; 5; 5] ltac:(by_computation))
    as (_ & _ & _ & _ & _ & _ & Hi & Ho).
  split; [apply Hi|apply Ho]; by_computation.
Defined.

(** ** The arrays of a prepared work block *)

Lemma Filled_eq n (values old l : list Z) :
  length l = length old -> (n <= length values)%nat ->
  (n <= length old)%nat ->
  (forall i, (i < n)%nat -> l !!! i = values !!! i) ->
  (forall i, (n <= i)%nat -> l !! i = old !! i) ->
  l = Filled n values old.
Proof.
  intros Hlen Hv Ho Hlow Hhigh. unfold Filled. apply list_eq. intros i.
  destruct (Nat.lt_ge_cases i n) as [Hi|Hi].
  - rewrite lookup_app_l by (rewrite length_take; lia).
    rewrite lookup_take_lt by lia.
    rewrite (list_lookup_lookup_total_lt l i) by lia.
    rewrite (list_lookup_lookup_total_lt values i) by lia.
    f_equal. apply Hlow, Hi.
  - rewrite lookup_app_r by (rewrite length_take; lia).
    rewrite length_take, lookup_drop.
    replace (n + (i - n `min` length values))%nat with i by lia.
    apply Hhigh, Hi.
Qed.

Lemma map_lookup_total (f : Z -> Z) (l : list Z) i :
  (i < length l)%nat -> map f l !!! i = f (l !!! i).
Proof.
  revert i. induction l as [|x l IH]; intros i Hi; cbn [length] in Hi; [lia|].
  destruct i as [|i]; [reflexivity|]. cbn [map]. 
  change ((f x :: map f l) !!! S i) with (map f l !!! i).
  change ((x :: l) !!! S i) with (l !!! i). apply IH. lia.
Qed.

Lemma replicate_lookup_total n (x : Z) i :
  (i < n)%nat -> replicate n x !!! i = x.
Proof. intros Hi. apply list_lookup_total_correct, lookup_replicate_2, Hi. Qed.

Section PrepareFrame.

Variable Dimensions : nat.
Variables pInputShape pOutputShape : list Z.
Variables pKernelShape pDilationShape pPadding pStrideShape : option (list Z).

Let step :=
  PrepareDimension Dimensions pInputShape pKernelShape pDilationShape
    pPadding pStrideShape pOutputShape.

(** The loop writes the entries below [Dimensions] of the shape and count
    arrays and the entries below [2 * Dimensions] of the padding array,
    and no other. *)
Lemma Prepare_loop_frame st0 k :
  (k <= Dimensions)%nat ->
  let st := fold_left step (seq 0 k) st0 in
  (forall i, (Dimensions <= i)%nat ->
     InputShape st.1.1 !! i = InputShape st0.1.1 !! i /\
     OutputShape st.1.1 !! i = OutputShape st0.1.1 !! i /\
     KernelShape st.1.1 !! i = KernelShape st0.1.1 !! i /\
     DilationShape st.1.1 !! i = DilationShape st0.1.1 !! i /\
     StrideShape st.1.1 !! i = StrideShape st0.1.1 !! i /\
     OutputCountLeftPad st.1.1 !! i = OutputCountLeftPad st0.1.1 !! i /\
     OutputCount st.1.1 !! i = OutputCount st0.1.1 !! i /\
     OutputCountRightPad st.1.1 !! i = OutputCountRightPad st0.1.1 !! i) /\
  (forall i, (2 * Dimensions <= i)%nat ->
     Padding st.1.1 !! i = Padding st0.1.1 !! i).
Proof.
  induction k as [|k IH]; intros Hk; cbn zeta.
  - cbn. split; intros; repeat split; reflexivity.
  - rewrite seq_S, fold_left_app. cbn [fold_left Nat.add].
    cbn zeta in IH. destruct IH as [IHa IHp]; [lia|].
    destruct (fold_left step (seq 0 k) st0) as [[wb a] b].
    cbn [fst] in IHa, IHp. unfold step, PrepareDimension. cbn [fst].
    cbn [InputShape OutputShape KernelShape DilationShape StrideShape Padding
         OutputCountLeftPad OutputCount OutputCountRightPad].
    split.
    + intros i Hi. rewrite !list_lookup_insert_ne by lia. apply IHa, Hi.
    + intros i Hi. rewrite !list_lookup_insert_ne by lia. apply IHp, Hi.
Qed.

End PrepareFrame.

(** X4.  For valid arguments and a work block with arrays of 3 (6 for the
    padding) entries, the preprocessor fills the first [Dimensions] entries
    of the shape arrays (the first [2 * Dimensions] of the padding) with
    the caller's values converted to [size_t], and with the defaults where
    the argument is null: the input extents for the kernel, 1 for the
    dilation and the stride, 0 for the padding.  The entries above, also
    those of the three count arrays, are the ones the work block had, and
    the arrays keep their lengths. *)
Theorem MlasPrepareNchwcWorkBlock_arrays WorkBlock Dimensions pInputShape
    pKernelShape pDilationShape pPadding pStrideShape pOutputShape :
  WorkBlockShaped WorkBlock ->
  ArgumentsValid Dimensions pInputShape pKernelShape pDilationShape pPadding
    pStrideShape pOutputShape ->
  let wb :=
    MlasPrepareNchwcWorkBlock WorkBlock Dimensions pInputShape pKernelShape
      pDilationShape pPadding pStrideShape pOutputShape in
  let InputExtents := map size_t (drop 2 pInputShape) in
  InputShape wb = Filled Dimensions InputExtents (InputShape WorkBlock) /\
  OutputShape wb =
    Filled Dimensions (map size_t (drop 2 pOutputShape))
      (OutputShape WorkBlock) /\
  KernelShape wb =
    Filled Dimensions
      (match pKernelShape with
       | Some k => map size_t k
       | None => InputExtents
       end) (KernelShape WorkBlock) /\
  DilationShape wb =
    Filled Dimensions
      (match pDilationShape with
       | Some d => map size_t d
       | None => replicate Dimensions 1
       end) (DilationShape WorkBlock) /\
  Padding wb =
    Filled (2 * Dimensions)
      (match pPadding with
       | Some p => map size_t p
       | None => replicate (2 * Dimensions) 0
       end) (Padding WorkBlock) /\
  StrideShape wb =
    Filled Dimensions
      (match pStrideShape with
       | Some s => map size_t s
       | None => replicate Dimensions 1
       end) (StrideShape WorkBlock) /\
  (forall i, (Dimensions <= i)%nat ->
     OutputCountLeftPad wb !! i = OutputCountLeftPad WorkBlock !! i /\
     OutputCount wb !! i = OutputCount WorkBlock !! i /\
     OutputCountRightPad wb !! i = OutputCountRightPad WorkBlock !! i) /\
  WorkBlockShaped wb.
Proof.
  intros Hshape (HD & Hi & Ho & HK & HDl & HP & HS & _) wb InputExtents.
  assert (Hstored : forall dim, (dim < Dimensions)%nat ->
            DimensionStored Dimensions (drop 2 pInputShape)
              (drop 2 pOutputShape) pKernelShape pDilationShape pPadding
              pStrideShape wb dim).
  { intros dim Hdim.
    apply (MlasPrepareNchwcWorkBlock_stored WorkBlock Dimensions pInputShape
             pKernelShape pDilationShape pPadding pStrideShape pOutputShape
             dim Hshape ltac:(lia)). }
  assert (Hloop :
    WorkBlockShaped wb /\
    (forall i, (Dimensions <= i)%nat ->
       InputShape wb !! i = InputShape WorkBlock !! i /\
       OutputShape wb !! i = OutputShape WorkBlock !! i /\
       KernelShape wb !! i = KernelShape WorkBlock !! i /\
       DilationShape wb !! i = DilationShape WorkBlock !! i /\
       StrideShape wb !! i = StrideShape WorkBlock !! i /\
       OutputCountLeftPad wb !! i = OutputCountLeftPad WorkBlock !! i /\
       OutputCount wb !! i = OutputCount WorkBlock !! i /\
       OutputCountRightPad wb !! i = OutputCountRightPad WorkBlock !! i) /\
    (forall i, (2 * Dimensions <= i)%nat ->
       Padding wb !! i = Padding WorkBlock !! i)).
  { unfold wb, MlasPrepareNchwcWorkBlock.
    match goal with
    | |- context [fold_left ?f (seq 0 Dimensions) ?s0] =>
        pose proof (Prepare_loop_frame Dimensions (drop 2 pInputShape)
                      (drop 2 pOutputShape) pKernelShape pDilationShape
                      pPadding pStrideShape s0 Dimensions ltac:(lia)) as Hfr;
        pose proof (Prepare_loop_invariant Dimensions (drop 2 pInputShape)
                      (drop 2 pOutputShape) pKernelShape pDilationShape
                      pPadding pStrideShape s0 Dimensions) as Hinv;
        destruct (fold_left f (seq 0 Dimensions) s0) as [[w a] b] eqn:E
    end.
    cbn zeta in Hfr, Hinv. cbn [fst] in Hfr, Hinv.
    destruct Hinv as (Hsh & _); [exact Hshape|lia|].
    unfold WorkBlockShaped in *. cbn in *. tauto. }
  destruct Hloop as (Hsh & Hfr & Hfp).
  destruct Hshape as (L1 & L2 & L3 & L4 & L5 & L6 & L7 & L8 & L9).
  pose proof Hsh as (M1 & M2 & M3 & M4 & M5 & M6 & M7 & M8 & M9).
  assert (Hin : forall i, (i < Dimensions)%nat ->
            InputExtents !!! i = size_t (drop 2 pInputShape !!! i)).
  { intros i Hlt. unfold InputExtents. apply map_lookup_total.
    rewrite length_drop. lia. }
  split; [|split; [|split; [|split; [|split; [|split; [|split]]]]]].
  - apply Filled_eq; try lia.
    + unfold InputExtents. rewrite length_map, length_drop. lia.
    + intros i Hlt. rewrite Hin by exact Hlt. apply (Hstored i Hlt).
    + intros i Hge. apply (Hfr i Hge).
  - apply Filled_eq; try lia.
    + rewrite length_map, length_drop. lia.
    + intros i Hlt. rewrite map_lookup_total by (rewrite length_drop; lia).
      apply (Hstored i Hlt).
    + intros i Hge. apply (Hfr i Hge).
  - apply Filled_eq; try lia.
    + destruct pKernelShape as [k|].
      * rewrite length_map. exact HK.
      * unfold InputExtents. rewrite length_map, length_drop. lia.
    + intros i Hlt. destruct (Hstored i Hlt) as (_ & _ & EK & _).
      rewrite EK. unfold ArgKernel, ArgInput. destruct pKernelShape as [k|].
      * rewrite map_lookup_total; [reflexivity|].
        cbn [HasEntries] in HK. lia.
      * rewrite Hin by exact Hlt. reflexivity.
    + intros i Hge. apply (Hfr i Hge).
  - apply Filled_eq; try lia.
    + destruct pDilationShape as [d|].
      * rewrite length_map. exact HDl.
      * rewrite length_replicate. lia.
    + intros i Hlt. destruct (Hstored i Hlt) as (_ & _ & _ & ED & _).
      rewrite ED. unfold ArgDilation. destruct pDilationShape as [d|].
      * rewrite map_lookup_total; [reflexivity|].
        cbn [HasEntries] in HDl. lia.
      * rewrite replicate_lookup_total by exact Hlt. reflexivity.
    + intros i Hge. apply (Hfr i Hge).
  - apply Filled_eq; try lia.
    + destruct pPadding as [p|].
      * rewrite length_map. exact HP.
      * rewrite length_replicate. lia.
    + intros i Hlt.
      assert (Hpad : Padding wb !!! i =
                match pPadding with
                | Some p => size_t (p !!! i)
                | None => 0
                end).
      { destruct (Nat.lt_ge_cases i Dimensions) as [Hlo|Hhi].
        - destruct (Hstored i Hlo) as (_ & _ & _ & _ & EPL & _).
          rewrite EPL. reflexivity.
        - destruct (Hstored (i - Dimensions)%nat ltac:(lia))
            as (_ & _ & _ & _ & _ & EPR & _).
          replace (i - Dimensions + Dimensions)%nat with i in EPR by lia.
          rewrite EPR. unfold ArgPaddingRight.
          replace (i - Dimensions + Dimensions)%nat with i by lia.
          reflexivity. }
      rewrite Hpad. destruct pPadding as [p|].
      * rewrite map_lookup_total; [reflexivity|].
        cbn [HasEntries] in HP. lia.
      * rewrite replicate_lookup_total by exact Hlt. reflexivity.
    + intros i Hge. apply (Hfp i Hge).
  - apply Filled_eq; try lia.
    + destruct pStrideShape as [s|].
      * rewrite length_map. exact HS.
      * rewrite length_replicate. lia.
    + intros i Hlt. destruct (Hstored i Hlt) as (_ & _ & _ & _ & _ & _ & ES & _).
      rewrite ES. unfold ArgStride. destruct pStrideShape as [s|].
      * rewrite map_lookup_total; [reflexivity|].
        cbn [HasEntries] in HS. lia.
      * rewrite replicate_lookup_total by exact Hlt. reflexivity.
    + intros i Hge. apply (Hfr i Hge).
  - intros i Hge. destruct (Hfr i Hge) as (_ & _ & _ & _ & _ & H). exact H.
  - exact Hsh.
Qed.

Lemma MlasPrepareNchwcWorkBlock_arrays_witness :
  let wb :=
    MlasPrepareNchwcWorkBlock ExampleBlock 2 [1; 8; 9; 9] None None
      (Some [3; 4; 5; 6]) (Some [2; 2]) [1; 8; 5; 5] in
  InputShape wb = [9; 9; 0] /\ KernelShape wb = [9; 9; 0] /\
  DilationShape wb = [1; 1; 0] /\ Padding wb = [3; 4; 5; 6; 0; 0].
Proof.
  destruct (MlasPrepareNchwcWorkBlock_arrays ExampleBlock 2 [1; 8; 9; 9]
              None None (Some [3; 4; 5; 6]) (Some [2; 2]) [1; 8; 5; 5]
              ltac:(by_computation) ltac:(by_computation))
    as (HI & _ & HK & HD & HP & _).
  cbv zeta. rewrite HI, HK, HD, HP. repeat split; reflexivity.
Defined.

(** ** Global pooling: no kernel, dilation, padding or stride argument *)

(** X5.  With null kernel, dilation, padding and stride arguments (a global
    pooling), in every dimension the stored kernel is the input extent, the
    dilation and the stride are 1, both paddings are 0, the span of the
    kernel is the input extent, and the output positions are no left-pad
    position, one interior position and [OutputShape - 1] right-pad
    positions. *)
Theorem GlobalPooling_single_interior_position WorkBlock Dimensions
    pInputShape pOutputShape dim :
  WorkBlockShaped WorkBlock ->
  ArgumentsValid Dimensions pInputShape None None None None pOutputShape ->
  (dim < Dimensions)%nat ->
  let wb :=
    MlasPrepareNchwcWorkBlock WorkBlock Dimensions pInputShape None None
      None None pOutputShape in
  KernelShape wb !!! dim = InputShape wb !!! dim /\
  DilationShape wb !!! dim = 1 /\ StrideShape wb !!! dim = 1 /\
  Padding wb !!! dim = 0 /\ Padding wb !!! (dim + Dimensions)%nat = 0 /\
  SpanValue (DilationShape wb !!! dim) (KernelShape wb !!! dim)
    = InputShape wb !!! dim /\
  OutputCountLeftPad wb !!! dim = 0 /\
  OutputCount wb !!! dim = 1 /\
  OutputCountRightPad wb !!! dim = OutputShape wb !!! dim -% 1.
Proof.
  intros Hshape (HD & _) Hdim wb.
  destruct (MlasPrepareNchwcWorkBlock_stored WorkBlock Dimensions pInputShape
              None None None None pOutputShape dim Hshape ltac:(lia))
    as [Hst _].
  fold wb in Hst.
  destruct Hst as (EI & EO & EK & ED & EPL & EPR & ES & EL & EC & ER).
  unfold ArgCounts, ArgKernel, ArgDilation, ArgPaddingLeft, ArgPaddingRight,
    ArgStride in *.
  rewrite <- EI in EK, EL, EC, ER. rewrite <- EO in EL, EC, ER.
  set (IH := InputShape wb !!! dim) in *.
  set (OH := OutputShape wb !!! dim) in *.
  assert (HI : 0 <= IH < SizeT.modulus)
    by (rewrite EI; apply size_t_range).
  pose proof modulus_eq as HM.
  assert (ESpan : SpanValue 1 IH = IH).
  { unfold SpanValue, SizeT.mul, SizeT.add, SizeT.sub.
    rewrite Z.mul_1_l, wrap_wrap, wrap_add_l.
    replace (IH - 1 + 1) with IH by lia. apply wrap_small. lia. }
  assert (ECounts : ComputeOutputCounts IH OH IH 1 0 1 =
                    {| dcLeftPad := 0; dcCount := 1;
                       dcRightPad := OH -% 1 |}).
  { unfold ComputeOutputCounts. rewrite ESpan.
    unfold OutputCountInterior, OutputCountWithLeftPad.
    assert (E0 : IH +% 0 = IH)
      by (unfold SizeT.add; rewrite Z.add_0_r; apply wrap_small; lia).
    rewrite E0, Z.leb_refl.
    assert (E1 : (IH -% IH) / 1 +% 1 = 1).
    { unfold SizeT.sub, SizeT.add. rewrite Z.sub_diag, Z.div_1_r.
      reflexivity. }
    rewrite E1. reflexivity. }
  rewrite EK, ED, ES, EPL, EPR, EL, EC, ER, ECounts, ESpan.
  cbn [dcLeftPad dcCount dcRightPad]. repeat split; reflexivity.
Qed.

Lemma GlobalPooling_single_interior_position_witness :
  let wb :=
    MlasPrepareNchwcWorkBlock ExampleBlock 2 [1; 8; 7; 7] None None None None
      [1; 8; 1; 1] in
  KernelShape wb !!! 0%nat = InputShape wb !!! 0%nat /\
  OutputCount wb !!! 0%nat = 1.
Proof.
  destruct (GlobalPooling_single_interior_position ExampleBlock 2
              [1; 8; 7; 7] [1; 8; 1; 1] 0 ltac:(by_computation)
              ltac:(by_computation) ltac:(by_computation))
    as (HK & _ & _ & _ & _ & _ & _ & HC & _).
  split; [exact HK|exact HC].
Defined.

(** ** Convolutions without padding *)

(** X6.  For a two-dimensional work block prepared with a null padding
    argument, a kernel that fits in the input and the matching output
    height, there is no left-pad and no right-pad row, all [OH] rows are
    interior, and for every output row [ph < OH] [ComputeEffectiveKernel]
    leaves the filter pointer and the kernel height as they are and returns
    [ih = ph * SH], the rows read ending inside the input
    ([ph * SH + Span <= IH]). *)
Theorem Unpadded_rows_are_never_trimmed WorkBlock pInputShape pKernelShape
    pDilationShape pStrideShape pOutputShape (ph FilterStride filter : Z) :
  WorkBlockShaped WorkBlock ->
  ArgumentsValid 2 pInputShape pKernelShape pDilationShape None pStrideShape
    pOutputShape ->
  let wb :=
    MlasPrepareNchwcWorkBlock WorkBlock 2 pInputShape pKernelShape
      pDilationShape None pStrideShape pOutputShape in
  let IH := InputHeight wb in
  let OH := OutputHeight wb in
  let KH := KernelHeight wb in
  let DH := DilationHeight wb in
  let SH := StrideHeight wb in
  let Span := DH * (KH - 1) + 1 in
  1 <= KH -> 1 <= DH -> 1 <= SH ->
  Span <= IH ->
  OH = MatchingOutput IH 0 0 Span SH ->
  0 <= ph < OH ->
  OutputCountLeftPadY wb = 0 /\
  OutputCountY wb = OH /\
  OutputCountRightPad wb !!! 0%nat = 0 /\
  ComputeEffectiveKernel wb ph FilterStride filter =
    {| ek_filter := filter; ek_ih := ph * SH;
       ek_EffectiveKernelHeight := KH |} /\
  ph * SH + Span <= IH.
Proof.
  intros Hshape _ wb IH OH KH DH SH Span HK HD HS Hfit HOH Hph.
  destruct (Prepared_height WorkBlock pInputShape pKernelShape pDilationShape
              None pStrideShape pOutputShape Hshape)
    as ((EL & EC & ER) & RI & RO & RK & _ & _ & Hnone).
  destruct (Hnone eq_refl) as [EPL _]. clear Hnone.
  fold wb in EL, EC, ER, RI, RO, RK, EPL.
  rewrite EPL in EL, EC, ER.
  fold IH OH KH DH SH in EL, EC, ER. fold IH in RI. fold OH in RO.
  fold KH in RK. unfold SizeT.InRange in RI, RO, RK.
  destruct (ComputeOutputCounts_fitting IH OH KH DH 0 SH)
    as (Hq & Hq2 & FL & FC & FR); try lia.
  cbv zeta in Hq, Hq2, FL, FC, FR. fold Span in Hq, Hq2, FL, FC, FR.
  replace (IH + 0 - Span) with (IH - Span) in * by lia.
  unfold MatchingOutput in HOH.
  replace (IH + 0 + 0 - Span) with (IH - Span) in HOH by lia.
  pose proof (div_bounds (IH - Span) SH ltac:(lia) ltac:(lia)) as B.
  set (q := (IH - Span) / SH) in *.
  rewrite Z.eqb_refl in FL, FC. cbn [andb Z.ltb Z.compare] in FL, FC.
  rewrite Z.sub_diag in FL.
  replace (OH - (q + 1)) with 0 in FR by lia.
  rewrite (wrap_small 0) in FR by lia.
  rewrite FL in EL. rewrite FC in EC. rewrite FR in ER.
  split; [exact EL|]. split; [lia|]. split; [exact ER|].
  assert (Hrow : 0 <= ph * SH <= IH - Span) by nia.
  assert (HSpan : 1 <= Span) by (unfold Span; nia).
  split; [|lia].
  unfold ComputeEffectiveKernel, InPadRegion. rewrite EL, EC.
  unfold SizeT.sub at 1. rewrite Z.sub_0_r, (wrap_small ph) by lia.
  destruct (Z.leb_spec (q + 1) ph) as [|_]; [lia|].
  fold SH KH. rewrite EPL. f_equal.
  unfold SizeT.mul, SizeT.sub. rewrite Z.sub_0_r, wrap_wrap.
  apply wrap_small. lia.
Qed.

Lemma Unpadded_rows_are_never_trimmed_witness :
  let wb :=
    MlasPrepareNchwcWorkBlock ExampleBlock 2 [1; 8; 9; 9] (Some [3; 3]) None
      None (Some [2; 2]) [1; 8; 4; 4] in
  OutputCountY wb = 4 /\ ek_ih (ComputeEffectiveKernel wb 3 24 0) = 6.
Proof.
  destruct (Unpadded_rows_are_never_trimmed ExampleBlock [1; 8; 9; 9]
              (Some [3; 3]) None (Some [2; 2]) [1; 8; 4; 4] 3 24 0
              ltac:(by_computation) ltac:(by_computation)
              ltac:(by_computation) ltac:(by_computation)
              ltac:(by_computation) ltac:(by_computation)
              ltac:(by_computation) ltac:(by_computation))
    as (_ & HC & _ & HE & _).
  cbv zeta. rewrite HE. split; [exact HC|reflexivity].
Defined.

(** ** What the walk accounts for, whatever the shape *)

Lemma Walk_accounting n IH DH FS : forall s ek,
  0 <= ek_ih ek < SizeT.modulus ->
  Z.of_nat n <= ek_EffectiveKernelHeight ek < SizeT.modulus ->
  let r := EffectiveKernelWalk n IH DH FS s ek in
  exists t,
    0 <= t /\
    ek_EffectiveKernelHeight ek - Z.of_nat n <= ek_EffectiveKernelHeight r /\
    t + ek_EffectiveKernelHeight r <= ek_EffectiveKernelHeight ek /\
    ek_filter r = ek_filter ek + t * FS /\
    ek_ih r = SizeT.wrap (ek_ih ek + t * DH).
Proof.
  induction n as [|n IHn]; intros s ek Hih HK; cbn zeta.
  - cbn [EffectiveKernelWalk]. exists 0. rewrite !Z.mul_0_l, !Z.add_0_r.
    rewrite wrap_small by lia. repeat split; lia.
  - cbn [EffectiveKernelWalk].
    assert (EK1 : ek_EffectiveKernelHeight ek -% 1
                  = ek_EffectiveKernelHeight ek - 1)
      by (apply wrap_small; lia).
    destruct (IH <=? s).
    + destruct (s =? ek_ih ek).
      * match goal with
        | |- context [EffectiveKernelWalk n IH DH FS ?s1 ?ek1] =>
            destruct (IHn s1 ek1) as (t & Ht & Hlo & Hsum & Hf & Hi)
        end; cbn [ek_ih ek_filter ek_EffectiveKernelHeight] in *.
        { apply wrap_range. }
        { rewrite EK1. lia. }
        rewrite ?EK1 in *. exists (t + 1).
        split; [lia|]. split; [lia|]. split; [lia|]. split; [lia|].
        rewrite Hi. unfold SizeT.add. rewrite wrap_add_l. f_equal. lia.
      * match goal with
        | |- context [EffectiveKernelWalk n IH DH FS ?s1 ?ek1] =>
            destruct (IHn s1 ek1) as (t & Ht & Hlo & Hsum & Hf & Hi)
        end; cbn [ek_ih ek_filter ek_EffectiveKernelHeight] in *.
        { exact Hih. }
        { rewrite EK1. lia. }
        rewrite ?EK1 in *. exists t.
        split; [lia|]. split; [lia|]. split; [lia|]. split; assumption.
    + destruct (IHn (s +% DH) ek) as (t & Ht & Hlo & Hsum & Hf & Hi);
        [exact Hih|lia|].
      exists t.
      split; [lia|]. split; [lia|]. split; [lia|]. split; assumption.
Qed.

(** X7.  Whatever the work block holds (pad region or not, valid rows or
    none), [ComputeEffectiveKernel] accounts for every kernel row it drops:
    there is a number [t >= 0] of rows dropped at the top such that the
    filter pointer is advanced by [t * FilterStride], the returned row is
    [ph * SH - PL + t * DH] modulo [2^64], and [t] plus the effective
    kernel height does not exceed [KH]; outside of the pad regions [t = 0]
    and the height is [KH]. *)
Theorem ComputeEffectiveKernel_accounting (wb : MLAS_NCHWC_WORK_BLOCK)
    (ph FilterStride filter : Z) :
  0 <= KernelHeight wb < SizeT.modulus ->
  let ek := ComputeEffectiveKernel wb ph FilterStride filter in
  exists t,
    0 <= t /\ 0 <= ek_EffectiveKernelHeight ek /\
    t + ek_EffectiveKernelHeight ek <= KernelHeight wb /\
    ek_filter ek = filter + t * FilterStride /\
    ek_ih ek =
      SizeT.wrap (ph * StrideHeight wb - PaddingLeftY wb
                  + t * DilationHeight wb) /\
    (InPadRegion wb ph = false ->
     t = 0 /\ ek_EffectiveKernelHeight ek = KernelHeight wb).
Proof.
  intros HK ek. unfold ek, ComputeEffectiveKernel.
  assert (Eih : ph *% StrideHeight wb -% PaddingLeftY wb
                = SizeT.wrap (ph * StrideHeight wb - PaddingLeftY wb)).
  { unfold SizeT.mul, SizeT.sub. apply wrap_sub_l. }
  destruct (InPadRegion wb ph).
  - match goal with
    | |- context [EffectiveKernelWalk ?n ?IH ?DH ?FS ?s ?ek0] =>
        destruct (Walk_accounting n IH DH FS s ek0)
          as (t & Ht & Hlo & Hsum & Hf & Hi)
    end; cbn [ek_ih ek_filter ek_EffectiveKernelHeight] in *.
    { apply wrap_range. }
    { rewrite Z2Nat.id by lia. lia. }
    rewrite Z2Nat.id in Hlo by lia.
    exists t. split; [lia|]. split; [lia|]. split; [lia|].
    split; [exact Hf|]. split; [|discriminate].
    rewrite Hi, Eih. apply wrap_add_l.
  - exists 0. cbn [ek_ih ek_filter ek_EffectiveKernelHeight].
    rewrite !Z.mul_0_l, !Z.add_0_r. repeat split; try lia.
Qed.

Lemma ComputeEffectiveKernel_accounting_witness :
  exists t,
    0 <= t /\
    0 <= ek_EffectiveKernelHeight (ComputeEffectiveKernel StridedExample 0 56 0)
    /\
    t + ek_EffectiveKernelHeight (ComputeEffectiveKernel StridedExample 0 56 0)
      <= 7.
Proof.
  destruct (ComputeEffectiveKernel_accounting StridedExample 0 56 0
              ltac:(by_computation)) as (t & H1 & H2 & H3 & _).
  exists t. repeat split; assumption.
Defined.

(** ** The walk of the pooling executor *)

Lemma PoolKernelWalk_agrees n IH DH FS : forall s ek,
  PoolKernelWalk n IH DH s (ek_ih ek, ek_EffectiveKernelHeight ek) =
  (ek_ih (EffectiveKernelWalk n IH DH FS s ek),
   ek_EffectiveKernelHeight (EffectiveKernelWalk n IH DH FS s ek)).
Proof.
  induction n as [|n IHn]; intros s ek; cbn [PoolKernelWalk EffectiveKernelWalk];
    [reflexivity|].
  cbn [fst snd]. destruct (IH <=? s); [|apply IHn].
  destruct (s =? ek_ih ek);
    match goal with
    | |- _ = (ek_ih (EffectiveKernelWalk n IH DH FS ?s1 ?ek1), _) =>
        rewrite <- (IHn s1 ek1)
    end; reflexivity.
Qed.

(** X8.  The walk over the kernel rows that the pooling executor has in
    its loop body computes what [ComputeEffectiveKernel] computes: one
    iteration of the pooling loop makes one call of the pooling microkernel
    whose effective kernel height is the one [ComputeEffectiveKernel]
    returns for the row, and whose input and input-base pointers are built
    from the [ih] that it returns, for any filter stride and pointer. *)
Theorem PoolBody_trims_like_ComputeEffectiveKernel BlockSize
    (WorkBlock : MLAS_NCHWC_POOL_WORK_BLOCK) (st : POOL_STATE)
    (FilterStride filter : Z) :
  let wb := PoolBase WorkBlock in
  let ek := ComputeEffectiveKernel wb (pool_ph st) FilterStride filter in
  exists st1 a,
    PoolBody BlockSize WorkBlock st
      = Some (st1, [PoolKernel (PoolingKind WorkBlock) (pool_ph st) a]) /\
    pk_EffectiveKernelHeight a = ek_EffectiveKernelHeight ek /\
    pk_InputBase a
      = pool_Input st + BlockSize *% (ek_ih ek *% InputWidth wb) /\
    pk_Input a
      = pool_Input st
        + BlockSize *% (ek_ih ek *% InputWidth wb -% PaddingLeftX wb).
Proof.
  intros wb ek. unfold PoolBody. fold wb.
  assert (E : (if InPadRegion wb (pool_ph st)
               then PoolKernelWalk (Z.to_nat (KernelHeight wb))
                      (InputHeight wb) (DilationHeight wb)
                      (pool_ph st *% StrideHeight wb -% PaddingLeftY wb)
                      (pool_ph st *% StrideHeight wb -% PaddingLeftY wb,
                       KernelHeight wb)
               else (pool_ph st *% StrideHeight wb -% PaddingLeftY wb,
                     KernelHeight wb))
              = (ek_ih ek, ek_EffectiveKernelHeight ek)).
  { unfold ek, ComputeEffectiveKernel. destruct (InPadRegion wb (pool_ph st));
      [|reflexivity].
    apply (PoolKernelWalk_agrees _ _ _ FilterStride _
             {| ek_filter := filter;
                ek_ih := pool_ph st *% StrideHeight wb -% PaddingLeftY wb;
                ek_EffectiveKernelHeight := KernelHeight wb |}). }
  rewrite E. do 2 eexists. split; [reflexivity|].
  cbn [pk_EffectiveKernelHeight pk_InputBase pk_Input]. auto.
Qed.

(** ** The grouped state machine and the work index *)

Lemma div_mod_step a d W :
  1 <= d -> 0 <= a -> 0 <= W -> a mod d + W <= d ->
  (a mod d + W < d ->
     (a + W) mod d = a mod d + W /\ (a + W) / d = a / d) /\
  (a mod d + W = d -> (a + W) mod d = 0 /\ (a + W) / d = a / d + 1).
Proof.
  intros Hd Ha HW Hle.
  pose proof (Z.div_mod a d ltac:(lia)) as E.
  pose proof (Z.mod_pos_bound a d ltac:(lia)) as B.
  split; intros Hc.
  - assert (Hq : (a + W) / d = a / d).
    { symmetry. apply (Z.div_unique_pos (a + W) d (a / d) (a mod d + W)); lia. }
    split; [|exact Hq].
    pose proof (Z.div_mod (a + W) d ltac:(lia)) as E2. rewrite Hq in E2. lia.
  - assert (Hq : (a + W) / d = a / d + 1).
    { symmetry. apply (Z.div_unique_pos (a + W) d (a / d + 1) 0); lia. }
    split; [|exact Hq].
    pose proof (Z.div_mod (a + W) d ltac:(lia)) as E2. rewrite Hq in E2. lia.
Qed.

Lemma grouped_state_eq (s t : GROUPED_CONV_STATE) :
  Input s = Input t -> Filter s = Filter t -> Bias s = Bias t ->
  Output s = Output t -> ph s = ph t -> FilterSet s = FilterSet t ->
  Group s = Group t -> WorkRemaining s = WorkRemaining t ->
  FilterCount s = FilterCount t -> s = t.
Proof. destruct s, t. cbn. intros. subst. reflexivity. Qed.

(** The range of a thread lies inside the work. *)
Lemma Work_range (wb : MLAS_NCHWC_WORK_BLOCK) (W i : Z) :
  1 <= tids wb < 2 ^ 31 -> SizeT.InRange W -> 0 <= i < tids wb ->
  0 <= WorkStart wb W i /\ 0 <= WorkCount wb W i /\
  WorkStart wb W i + WorkCount wb W i <= W.
Proof.
  intros HT HW Hi.
  pose proof (quotient_facts wb W HT HW) as (E & Hr & Hq).
  rewrite (WorkStart_eq wb W HT HW i Hi), (WorkCount_eq wb W HT HW i Hi).
  set (q := W / tids wb) in *. set (r := W mod tids wb) in *.
  clearbody q r.
  destruct (Z.ltb_spec i r); nia.
Qed.

Lemma scaled a b t : 0 <= a <= b -> 0 <= t -> 0 <= a * t <= b * t.
Proof.
  intros Hab Ht. split; [apply Z.mul_nonneg_nonneg; lia|].
  apply Z.mul_le_mono_nonneg_r; lia.
Qed.

Section Decode.

Variable BlockSize : Z.
Variable WorkBlock : MLAS_NCHWC_CONV_WORK_BLOCK.
Variable Blocks : Z.

Let wb := ConvBase WorkBlock.
Let Total := GroupedTotalWork BlockSize WorkBlock.
Let At := GroupedStateAt BlockSize WorkBlock.

Hypothesis Fits : GroupedShapeFits BlockSize WorkBlock Blocks.

Lemma FilterSetCount_pos : 1 <= FilterSetCount BlockSize WorkBlock.
Proof.
  destruct Fits as (H1 & H2 & H3 & H4 & H5 & H6 & _ & _ & _ & _ & H7 & _).
  pose proof (FilterSetCount_blocks BlockSize WorkBlock Blocks H1 H2 H3 H4 H5
                H6 H7) as Hn.
  cbv zeta in Hn. lia.
Qed.

(** The digits of a work index. *)
Lemma decode_ranges w :
  0 <= w <= Total ->
  let fset := w / OutputHeight wb mod FilterSetCount BlockSize WorkBlock in
  let image := w / OutputHeight wb / FilterSetCount BlockSize WorkBlock in
  let group := image mod GroupCount WorkBlock in
  0 <= w mod OutputHeight wb < OutputHeight wb /\
  0 <= fset < FilterSetCount BlockSize WorkBlock /\
  0 <= image <= BatchCount wb * GroupCount WorkBlock /\
  0 <= group < GroupCount WorkBlock /\
  (w < Total -> image < BatchCount wb * GroupCount WorkBlock).
Proof.
  intros Hw. cbv zeta. pose proof FilterSetCount_pos as Hn.
  destruct Fits as (_ & _ & _ & _ & _ & HG & HB & HO & _).
  fold wb in HB, HO.
  unfold Total, GroupedTotalWork in Hw |- *. fold wb in Hw. fold wb.
  set (n := FilterSetCount BlockSize WorkBlock) in *.
  set (OH := OutputHeight wb) in *. set (gc := GroupCount WorkBlock) in *.
  set (bc := BatchCount wb) in *. clearbody n OH gc bc.
  pose proof (Z.mod_pos_bound w OH ltac:(lia)) as B1.
  pose proof (div_bounds w OH ltac:(lia) ltac:(lia)) as B2.
  assert (Hq0 : 0 <= w / OH) by (apply Z.div_pos; lia).
  assert (Hq : w / OH <= bc * gc * n)
    by (apply Z.div_le_upper_bound; lia).
  assert (Hq' : w < bc * gc * n * OH -> w / OH < bc * gc * n)
    by (intros; apply Z.div_lt_upper_bound; lia).
  set (q := w / OH) in *. clearbody q.
  pose proof (Z.mod_pos_bound q n ltac:(lia)) as B3.
  pose proof (div_bounds q n ltac:(lia) ltac:(lia)) as B4.
  assert (Hi0 : 0 <= q / n) by (apply Z.div_pos; lia).
  assert (Him : q / n <= bc * gc)
    by (apply Z.div_le_upper_bound; lia).
  assert (Him' : q < bc * gc * n -> q / n < bc * gc)
    by (intros; apply Z.div_lt_upper_bound; lia).
  pose proof (Z.mod_pos_bound (q / n) gc ltac:(lia)) as B5.
  repeat split; lia.
Qed.

Lemma At_positioned w remaining :
  0 <= w <= Total -> Positioned BlockSize WorkBlock (At w remaining).
Proof.
  intros Hw. destruct (decode_ranges w Hw) as (_ & Hfs & _ & Hg & _).
  unfold Positioned, At, GroupedStateAt, FirstChannel. cbv zeta.
  cbn [Filter Bias FilterCount FilterSet Group]. fold wb.
  repeat split; lia.
Qed.

(** A state is [At w remaining] when it is positioned and its digits,
    its input and output pointers and its work counter agree. *)
Lemma At_characterised st w remaining :
  Positioned BlockSize WorkBlock st ->
  ph st = ph (At w remaining) ->
  FilterSet st = FilterSet (At w remaining) ->
  Group st = Group (At w remaining) ->
  Input st = Input (At w remaining) ->
  Output st = Output (At w remaining) ->
  WorkRemaining st = remaining ->
  st = At w remaining.
Proof.
  intros (HF & HB & HC & _ & _) Hph Hfs Hg Hin Hout Hrem.
  cbv zeta in HF. fold wb in HF.
  apply grouped_state_eq; try assumption.
  - rewrite HF. unfold FirstChannel. rewrite Hg, Hfs. reflexivity.
  - rewrite HB. unfold FirstChannel. rewrite Hg, Hfs. reflexivity.
  - rewrite HC, Hfs. reflexivity.
Qed.

(** What the shape hypothesis gives, in the form the proofs use. *)
Lemma Fits_facts :
  let n := FilterSetCount BlockSize WorkBlock in
  let OH := OutputHeight wb in
  let gc := GroupCount WorkBlock in
  let bc := BatchCount wb in
  let OC := OutputChannels wb in
  1 <= n /\ Blocks <= 4 * n <= Blocks + 3 /\
  n < SizeT.modulus /\ OH < SizeT.modulus /\ gc < SizeT.modulus /\
  bc * gc < SizeT.modulus /\ bc * gc * n < SizeT.modulus /\
  4 * BlockSize < SizeT.modulus /\ OC < SizeT.modulus /\
  (forall c, 0 <= c <= bc * gc ->
     0 <= c * InputChannels wb < SizeT.modulus /\
     0 <= c * InputChannels wb * InputSize wb < SizeT.modulus /\
     0 <= c * OC < SizeT.modulus) /\
  (forall c, 0 <= c <= bc * gc * OC ->
     0 <= c * OutputSize wb < SizeT.modulus).
Proof.
  cbv zeta. pose proof FilterSetCount_pos as Hn.
  destruct Fits as (HBS & HBl & Hblocked & HIC & HKS & HG & HB & HO & HIS &
                    HOS & Hff & Hif & Hof & Htf).
  pose proof (FilterSetCount_blocks BlockSize WorkBlock Blocks HBS HBl
                Hblocked HIC HKS HG Hff) as Hnb.
  cbv zeta in Hnb. unfold wb in *.
  unfold GroupedTotalWork in Htf.
  assert (HOCpos : 1 <= OutputChannels (ConvBase WorkBlock))
    by (rewrite Hblocked; nia).
  set (n := FilterSetCount BlockSize WorkBlock) in *.
  set (OH := OutputHeight (ConvBase WorkBlock)) in *.
  set (gc := GroupCount WorkBlock) in *.
  set (bc := BatchCount (ConvBase WorkBlock)) in *.
  set (OC := OutputChannels (ConvBase WorkBlock)) in *.
  set (IC := InputChannels (ConvBase WorkBlock)) in *.
  set (IS := InputSize (ConvBase WorkBlock)) in *.
  set (OS := OutputSize (ConvBase WorkBlock)) in *.
  set (KS := KernelSize (ConvBase WorkBlock)) in *.
  clearbody n OH gc bc OC IC IS OS KS.
  assert (Hbg : 1 <= bc * gc) by nia.
  assert (Hbgn : bc * gc * 1 <= bc * gc * n)
    by (apply Z.mul_le_mono_nonneg_l; lia).
  assert (Hbgn' : 1 * n <= bc * gc * n)
    by (apply Z.mul_le_mono_nonneg_r; lia).
  assert (Htot : bc * gc * n * 1 <= bc * gc * n * OH)
    by (apply Z.mul_le_mono_nonneg_l; lia).
  assert (Htot' : 1 * OH <= bc * gc * n * OH)
    by (apply Z.mul_le_mono_nonneg_r; lia).
  assert (Hgc : 1 * gc <= bc * gc)
    by (apply Z.mul_le_mono_nonneg_r; lia).
  assert (Hi1 : bc * gc * IC * 1 <= bc * gc * IC * IS)
    by (apply Z.mul_le_mono_nonneg_l; nia).
  assert (Ho1 : bc * gc * OC * 1 <= bc * gc * OC * OS)
    by (apply Z.mul_le_mono_nonneg_l; nia).
  assert (Hoc : 1 * OC <= bc * gc * OC)
    by (apply Z.mul_le_mono_nonneg_r; lia).
  repeat match goal with |- _ /\ _ => split end; try lia.
  - intros c Hc.
    pose proof (scaled c (bc * gc) IC Hc ltac:(lia)) as S1.
    pose proof (scaled (c * IC) (bc * gc * IC) IS S1 ltac:(lia)) as S2.
    pose proof (scaled c (bc * gc) OC Hc ltac:(lia)) as S3.
    lia.
  - intros c Hc.
    pose proof (scaled c (bc * gc * OC) OS Hc ltac:(lia)) as S1. lia.
Qed.

Lemma TotalWork_exact :
  BatchCount wb *% GroupCount WorkBlock *% FilterSetCount BlockSize WorkBlock
    *% OutputHeight wb = Total.
Proof.
  pose proof Fits_facts as (Hn & _ & _ & _ & _ & Hbg & Hbgn & _).
  destruct Fits as (_ & _ & _ & _ & _ & HG & HB & HO & _ & _ & _ & _ & _ & Htf).
  fold wb in HB, HO. unfold Total, GroupedTotalWork in *. fold wb in Htf |- *.
  unfold SizeT.mul.
  assert (0 <= BatchCount wb * GroupCount WorkBlock) by nia.
  assert (0 <= BatchCount wb * GroupCount WorkBlock
               * FilterSetCount BlockSize WorkBlock) by nia.
  assert (0 <= BatchCount wb * GroupCount WorkBlock
               * FilterSetCount BlockSize WorkBlock * OutputHeight wb) by nia.
  rewrite (wrap_small (BatchCount wb * GroupCount WorkBlock)) by lia.
  rewrite (wrap_small (BatchCount wb * GroupCount WorkBlock
                       * FilterSetCount BlockSize WorkBlock)) by lia.
  apply wrap_small. lia.
Qed.

(** The first output channel of a filter set lies in its group. *)
Lemma first_channel_bound fs :
  0 <= fs < FilterSetCount BlockSize WorkBlock ->
  0 <= BlockSize * FilterSetSize * fs /\
  BlockSize * FilterSetSize * fs + BlockSize <= OutputChannels wb.
Proof.
  intros Hfs. pose proof Fits_facts as (_ & Hnb & _).
  destruct Fits as (HBS & HBl & Hblocked & _). fold wb in Hblocked.
  rewrite Hblocked. unfold FilterSetSize.
  set (n := FilterSetCount BlockSize WorkBlock) in *. clearbody n. nia.
Qed.

Lemma PrepareWork_At Index :
  1 <= tids wb < 2 ^ 31 -> 0 <= Index < tids wb ->
  PrepareWork BlockSize WorkBlock Index =
  At (WorkStart wb Total Index) (WorkCount wb Total Index).
Proof.
  intros HT HI.
  pose proof Fits_facts as (Hn & Hnb & Hnr & HOHr & Hgcr & Hbg & Hbgn & H4 &
                            HOCr & Hin & Hout).
  pose proof Fits as (HBS & HBl & Hblocked & HIC & HKS & HG & HB & HO & HIS &
                      HOS & Hff & Hif & Hof & Htf).
  fold wb in Hblocked, HIC, HKS, HB, HO, HIS, HOS.
  assert (HTr : SizeT.InRange Total).
  { unfold SizeT.InRange. split; [|exact Htf].
    unfold Total, GroupedTotalWork. fold wb.
    set (n := FilterSetCount BlockSize WorkBlock) in *. clearbody n. nia. }
  destruct (Work_range wb Total Index HT HTr HI) as (Hw0 & Hc0 & Hwc).
  destruct (decode_ranges (WorkStart wb Total Index) ltac:(lia))
    as (Hrow & Hfs & Him & Hg & _).
  cbv zeta in Hrow, Hfs, Him, Hg.
  destruct (first_channel_bound _ Hfs) as [Hf0 Hf1].
  apply At_characterised.
  - destruct Fits as (A1 & A2 & A3 & A4 & A5 & A6 & _ & _ & _ & _ & A7 & _).
    apply (PrepareWork_positioned BlockSize WorkBlock Blocks A1 A2 A3 A4 A5
             A6 A7).
  - unfold PrepareWork. fold wb. rewrite TotalWork_exact.
    unfold WorkStart. destruct (PartitionWork Index wb Total). reflexivity.
  - unfold PrepareWork. fold wb. rewrite TotalWork_exact.
    unfold WorkStart. destruct (PartitionWork Index wb Total). reflexivity.
  - unfold PrepareWork. fold wb. rewrite TotalWork_exact.
    unfold WorkStart. destruct (PartitionWork Index wb Total). reflexivity.
  - unfold PrepareWork. fold wb. rewrite TotalWork_exact.
    unfold WorkStart in *. destruct (PartitionWork Index wb Total) as [w r].
    cbn [fst] in *. unfold At, GroupedStateAt. cbn [Input]. fold wb.
    set (im := w / OutputHeight wb / FilterSetCount BlockSize WorkBlock) in *.
    destruct (Hin im Him) as (B1 & B2 & _).
    unfold SizeT.mul. rewrite (wrap_small (im * InputChannels wb)) by lia.
    rewrite wrap_small by lia. reflexivity.
  - unfold PrepareWork. fold wb. rewrite TotalWork_exact.
    unfold WorkStart in *. destruct (PartitionWork Index wb Total) as [w r].
    cbn [fst] in *. unfold At, GroupedStateAt. cbn [Output]. fold wb.
    set (im := w / OutputHeight wb / FilterSetCount BlockSize WorkBlock) in *.
    set (fs := w / OutputHeight wb mod FilterSetCount BlockSize WorkBlock)
      in *.
    destruct (Hin im Him) as (_ & _ & B3).
    assert (B4 : 0 <= im * OutputChannels wb
                 <= BatchCount wb * GroupCount WorkBlock * OutputChannels wb)
      by (apply scaled; lia).
    pose proof (Hout _ B4) as B5.
    assert (B6 : 0 <= BlockSize * FilterSetSize * fs
                 <= BatchCount wb * GroupCount WorkBlock * OutputChannels wb).
    { assert (1 * OutputChannels wb
              <= BatchCount wb * GroupCount WorkBlock * OutputChannels wb)
        by (apply Z.mul_le_mono_nonneg_r; nia).
      lia. }
    pose proof (Hout _ B6) as B7.
    unfold SizeT.mul, FilterSetSize in *.
    rewrite (wrap_small (im * OutputChannels wb)) by lia.
    rewrite (wrap_small (im * OutputChannels wb * OutputSize wb)) by lia.
    assert (B8 : 0 <= BlockSize * fs <= BlockSize * 4 * fs) by nia.
    rewrite (wrap_small (BlockSize * fs)) by lia.
    replace (BlockSize * fs * 4) with (BlockSize * 4 * fs) by lia.
    rewrite (wrap_small (BlockSize * 4 * fs)) by lia.
    rewrite (wrap_small (BlockSize * 4 * fs * OutputSize wb)) by lia.
    lia.
  - unfold PrepareWork. fold wb. rewrite TotalWork_exact.
    unfold WorkCount. destruct (PartitionWork Index wb Total). reflexivity.
Qed.

Lemma CompleteWork_At w W remaining :
  0 <= w -> w + W <= Total ->
  1 <= W <= OutputHeight wb - w mod OutputHeight wb ->
  W <= remaining < SizeT.modulus ->
  CompleteWork BlockSize WorkBlock W (At w remaining)
  = At (w + W) (remaining - W).
Proof.
  intros Hw Hend HW Hrem.
  pose proof Fits_facts as (Hn & Hnb & Hnr & HOHr & Hgcr & Hbg & Hbgn & H4 &
                            HOCr & Hin & Hout).
  pose proof Fits as (HBS & HBl & Hblocked & HIC & HKS & HG & HB & HO & HIS &
                      HOS & Hff & Hif & Hof & Htf).
  fold wb in Hblocked, HIC, HKS, HB, HO, HIS, HOS.
  destruct (decode_ranges w ltac:(lia)) as (Hrow & Hfs & Him & Hg & _).
  destruct (decode_ranges (w + W) ltac:(lia)) as (_ & _ & Him' & _ & _).
  cbv zeta in Hrow, Hfs, Him, Hg, Him'.
  destruct (first_channel_bound _ Hfs) as [Hf0 Hf1].
  destruct (ComputeFilterCount_exact BlockSize WorkBlock Blocks HBS HBl
              Hblocked HIC HKS HG Hff _ Hfs) as [HCe Hleft].
  destruct (div_mod_step w (OutputHeight wb) W ltac:(lia) Hw ltac:(lia)
              ltac:(lia)) as [Hsame Hnext].
  assert (Hq0 : 0 <= w / OutputHeight wb) by (apply Z.div_pos; lia).
  destruct (div_mod_step (w / OutputHeight wb)
              (FilterSetCount BlockSize WorkBlock) 1 ltac:(lia) Hq0
              ltac:(lia) ltac:(lia)) as [Hfsame Hfnext].
  destruct (div_mod_step
              (w / OutputHeight wb / FilterSetCount BlockSize WorkBlock)
              (GroupCount WorkBlock) 1 ltac:(lia) ltac:(lia) ltac:(lia)
              ltac:(lia)) as [Hgsame Hgnext].
  apply At_characterised.
  { destruct Fits as (A1 & A2 & A3 & A4 & A5 & A6 & _ & _ & _ & _ & A7 & _).
    apply (CompleteWork_positioned BlockSize WorkBlock Blocks A1 A2 A3 A4 A5
             A6 A7).
    apply At_positioned. lia. }
  all: unfold CompleteWork, At, GroupedStateAt; fold wb;
    cbn [Input Filter Bias Output ph FilterSet Group WorkRemaining
         FilterCount].
  all: set (OH := OutputHeight wb) in *;
    set (n := FilterSetCount BlockSize WorkBlock) in *;
    set (gc := GroupCount WorkBlock) in *;
    set (row := w mod OH) in *; set (q := w / OH) in *;
    set (fs := q mod n) in *; set (im := q / n) in *;
    set (g := im mod gc) in *.
  all: assert (E1 : row +% W = row + W) by (apply wrap_small; lia);
    assert (E2 : fs +% 1 = fs + 1) by (apply wrap_small; lia);
    assert (E3 : g +% 1 = g + 1) by (apply wrap_small; lia);
    assert (E4 : remaining -% W = remaining - W) by (apply wrap_small; lia);
    rewrite ?E1, ?E2, ?E3, ?E4.
  all: destruct (Z.eqb_spec (row + W) OH) as [Erow|Nrow];
    [destruct (Hnext Erow) as [R1 R2];
      destruct (Z.eqb_spec (fs + 1) n) as [Efs|Nfs];
      [destruct (Hfnext Efs) as [F1 F2];
        destruct (Z.eqb_spec (g + 1) gc) as [Eg|Ng];
        [destruct (Hgnext Eg) as [G1 G2]
        |destruct (Hgsame ltac:(lia)) as [G1 G2]]
      |destruct (Hfsame ltac:(lia)) as [F1 F2]]
    |destruct (Hsame ltac:(lia)) as [R1 R2]];
    cbn [Input Filter Bias Output ph FilterSet Group WorkRemaining
         FilterCount];
    rewrite ?R1, ?R2, ?F1, ?F2, ?G1, ?G2; try reflexivity; try lia.
  (* the input pointer at the end of a group *)
  1, 2: destruct (Hin 1 ltac:(lia)) as (_ & B & _);
    unfold SizeT.mul; rewrite wrap_small by lia; lia.
  (* the output pointer at the end of a filter set *)
  all: rewrite HCe; fold fs;
    assert (Hfc : 1 <= Z.min 4 (Blocks - 4 * fs) <= 4) by lia;
    assert (Hfcb : BlockSize * Z.min 4 (Blocks - 4 * fs)
                   <= BlockSize * (Blocks - 4 * fs))
      by (apply Z.mul_le_mono_nonneg_l; lia);
    assert (B1 : 0 <= BlockSize * Z.min 4 (Blocks - 4 * fs)
                 <= BatchCount wb * gc * OutputChannels wb)
      by (assert (1 * OutputChannels wb
                  <= BatchCount wb * gc * OutputChannels wb)
            by (apply Z.mul_le_mono_nonneg_r; nia);
          rewrite Hblocked in *; nia);
    pose proof (Hout _ B1) as B2;
    unfold SizeT.mul;
    rewrite (wrap_small (BlockSize * Z.min 4 (Blocks - 4 * fs))) by nia;
    rewrite wrap_small by lia; unfold FilterSetSize.
  - rewrite Z.min_r by lia. rewrite Hblocked. lia.
  - rewrite Z.min_r by lia. rewrite Hblocked. lia.
  - rewrite Z.min_l by lia. lia.
Qed.

End Decode.

(** X9.  For a grouped convolution whose tensors fit in the address space,
    the state machine of the grouped executors decodes the work index:
    [PrepareWork] of thread [Index] is the state that stands at the first
    work item of the thread's range, with the length of the range as the
    work remaining, and [CompleteWork] of [W] rows that stay inside the
    image takes the state at work item [w] to the state at work item
    [w + W]: the output row, the filter set and the group are the digits
    of the work index, and the pointers are at the tensors of the image,
    group and filter set. *)
Theorem Grouped_state_decodes_the_work_index BlockSize
    (WorkBlock : MLAS_NCHWC_CONV_WORK_BLOCK) (Blocks : Z) :
  GroupedShapeFits BlockSize WorkBlock Blocks ->
  let wb := ConvBase WorkBlock in
  let Total := GroupedTotalWork BlockSize WorkBlock in
  (forall Index,
     1 <= tids wb < 2 ^ 31 -> 0 <= Index < tids wb ->
     PrepareWork BlockSize WorkBlock Index =
     GroupedStateAt BlockSize WorkBlock (WorkStart wb Total Index)
       (WorkCount wb Total Index)) /\
  (forall w W remaining,
     0 <= w -> w + W <= Total ->
     1 <= W <= OutputHeight wb - w mod OutputHeight wb ->
     W <= remaining < SizeT.modulus ->
     CompleteWork BlockSize WorkBlock W
       (GroupedStateAt BlockSize WorkBlock w remaining)
     = GroupedStateAt BlockSize WorkBlock (w + W) (remaining - W)).
Proof.
  intros Fits wb Total. split.
  - intros Index HT HI. now apply (PrepareWork_At BlockSize WorkBlock Blocks).
  - intros w W remaining Hw Hend HW Hrem.
    now apply (CompleteWork_At BlockSize WorkBlock Blocks).
Qed.

Lemma Grouped_state_decodes_the_work_index_witness :
  PrepareWork 8 GroupedExample 0 = GroupedStateAt 8 GroupedExample 0 10 /\
  CompleteWork 8 GroupedExample 5 (GroupedStateAt 8 GroupedExample 0 10)
  = GroupedStateAt 8 GroupedExample 5 5.
Proof.
  destruct (Grouped_state_decodes_the_work_index 8 GroupedExample 1
              ltac:(by_computation)) as [HP HC].
  split.
  - apply (HP 0); by_computation.
  - apply (HC 0 5 10); by_computation.
Defined.

(** ** Lists of work items *)

Lemma WorkItems_nil start count : count <= 0 -> WorkItems start count = [].
Proof.
  intros H. unfold WorkItems. replace (Z.to_nat count) with 0%nat by lia.
  reflexivity.
Qed.

Lemma WorkItems_cons start count :
  0 < count ->
  WorkItems start count = start :: WorkItems (start + 1) (count - 1).
Proof.
  intros H. unfold WorkItems.
  replace (Z.to_nat count) with (S (Z.to_nat (count - 1))) by lia.
  cbn [seq map]. f_equal; [lia|].
  rewrite <- seq_shift, map_map. apply map_ext. intros k. lia.
Qed.

Lemma WorkItems_app a b : forall start,
  0 <= a -> 0 <= b ->
  WorkItems start a ++ WorkItems (start + a) b = WorkItems start (a + b).
Proof.
  intros start Ha Hb. revert start.
  pattern a. apply natlike_ind; [| |exact Ha].
  - intros start. rewrite (WorkItems_nil start 0) by lia.
    rewrite Z.add_0_r, Z.add_0_l. reflexivity.
  - intros x Hx IH start.
    rewrite (WorkItems_cons start (Z.succ x)) by lia.
    rewrite (WorkItems_cons start (Z.succ x + b)) by lia.
    cbn [app]. f_equal.
    replace (Z.succ x - 1) with x by lia.
    replace (Z.succ x + b - 1) with (x + b) by lia.
    replace (start + Z.succ x) with (start + 1 + x) by lia.
    apply IH.
Qed.

(** ** Loops that take one work item at a time *)

Section CountedLoop.

Context {St Ev : Type}.
Variable cond : St -> bool.
Variable body : St -> option (St * list Ev).
Variable state : Z -> Z -> St.
Variable calls : Z -> list Ev.
Variable limit : Z.

Hypothesis cond_state : forall w r, cond (state w r) = (0 <? r).
Hypothesis body_state : forall w r,
  0 <= w -> 0 < r -> w + r <= limit ->
  body (state w r) = Some (state (w + 1) (r - 1), calls w).

Lemma while_counted fuel : forall w r,
  0 <= w -> 0 <= r <= Z.of_nat fuel -> w + r <= limit ->
  while cond body fuel (state w r)
  = Some (state (w + r) 0, flat_map calls (WorkItems w r)).
Proof.
  induction fuel as [|fuel IH]; intros w r Hw Hr Hlim; cbn [while];
    rewrite cond_state; destruct (Z.ltb_spec 0 r) as [Hpos|Hzero]; try lia.
  - assert (r = 0) by lia. subst r. rewrite Z.add_0_r. reflexivity.
  - rewrite body_state by lia. rewrite IH by lia.
    rewrite (WorkItems_cons w r) by lia. cbn [flat_map].
    do 3 f_equal. lia.
  - assert (r = 0) by lia. subst r. rewrite Z.add_0_r. reflexivity.
Qed.

End CountedLoop.

(** ** The ranges of the threads, one after the other *)

Section Concatenation.

Variable wb : MLAS_NCHWC_WORK_BLOCK.
Variable W : Z.

Hypothesis Threads : 1 <= tids wb < 2 ^ 31.
Hypothesis Work : SizeT.InRange W.

Lemma ranges_prefix k :
  (Z.of_nat k < tids wb) ->
  flat_map (fun i => WorkItems (WorkStart wb W i) (WorkCount wb W i))
           (WorkItems 0 (Z.of_nat k))
  = WorkItems 0 (WorkStart wb W (Z.of_nat k)).
Proof.
  induction k as [|k IH]; intros Hk.
  - change (Z.of_nat 0) with 0.
    rewrite (WorkItems_nil 0 0) by lia. cbn [flat_map].
    rewrite (WorkStart_eq wb W Threads Work 0) by lia.
    pose proof (quotient_facts wb W Threads Work) as (_ & Hr & _).
    destruct (Z.ltb_spec 0 (W mod tids wb));
      rewrite WorkItems_nil by lia; reflexivity.
  - replace (Z.of_nat (S k)) with (Z.of_nat k + 1) by lia.
    rewrite <- (WorkItems_app (Z.of_nat k) 1 0) by lia.
    rewrite flat_map_app, IH by lia. rewrite Z.add_0_l.
    rewrite (WorkItems_cons (Z.of_nat k) 1) by lia.
    rewrite (WorkItems_nil _ (1 - 1)) by lia. cbn [flat_map].
    rewrite app_nil_r.
    destruct (Work_range wb W (Z.of_nat k) Threads Work ltac:(lia))
      as (H0 & Hc & _).
    rewrite (Work_contiguous wb W Threads Work (Z.of_nat k)) by lia.
    rewrite <- (WorkItems_app (WorkStart wb W (Z.of_nat k))
                  (WorkCount wb W (Z.of_nat k)) 0) by lia.
    rewrite Z.add_0_l. reflexivity.
Qed.

Lemma ranges_all :
  flat_map (fun i => WorkItems (WorkStart wb W i) (WorkCount wb W i))
           (WorkItems 0 (tids wb))
  = WorkItems 0 W.
Proof.
  set (k := Z.to_nat (tids wb - 1)).
  replace (tids wb) with (Z.of_nat k + 1) at 1 by (unfold k; lia).
  rewrite <- (WorkItems_app (Z.of_nat k) 1 0) by lia.
  rewrite flat_map_app, ranges_prefix by (unfold k; lia). rewrite Z.add_0_l.
  rewrite (WorkItems_cons (Z.of_nat k) 1) by lia.
  rewrite (WorkItems_nil _ (1 - 1)) by lia. cbn [flat_map].
  rewrite app_nil_r.
  destruct (Work_range wb W (Z.of_nat k) Threads Work ltac:(unfold k; lia))
    as (H0 & Hc & _).
  replace (Z.of_nat k) with (tids wb - 1) in * by (unfold k; lia).
  replace (WorkItems 0 W)
    with (WorkItems 0 (WorkStart wb W (tids wb - 1)
                       + WorkCount wb W (tids wb - 1)))
    by (rewrite (Work_ends_at_total wb W Threads Work); reflexivity).
  rewrite <- (WorkItems_app (WorkStart wb W (tids wb - 1))
                (WorkCount wb W (tids wb - 1)) 0) by lia.
  rewrite Z.add_0_l. reflexivity.
Qed.

End Concatenation.

Lemma WorkItems_In start count i :
  In i (WorkItems start count) -> start <= i < start + count.
Proof.
  unfold WorkItems. rewrite in_map_iff. intros (k & <- & Hk).
  apply in_seq in Hk. lia.
Qed.

(** When every thread runs the work items of its range, the threads
    together run every work item once, in order. *)
Lemma threads_cover {Ev : Type} (Execute : Z -> option (list Ev))
    (calls : Z -> list Ev) (wb : MLAS_NCHWC_WORK_BLOCK) (W : Z) :
  1 <= tids wb < 2 ^ 31 -> SizeT.InRange W ->
  (forall Index, 0 <= Index < tids wb ->
     Execute Index =
     Some (flat_map calls
             (WorkItems (WorkStart wb W Index) (WorkCount wb W Index)))) ->
  ThreadTraces Execute (tids wb) = Some (flat_map calls (WorkItems 0 W)).
Proof.
  intros HT HW Hrun. rewrite <- (ranges_all wb W HT HW).
  unfold ThreadTraces.
  assert (Hin : forall i, In i (WorkItems 0 (tids wb)) -> 0 <= i < tids wb).
  { intros i Hi. apply WorkItems_In in Hi. lia. }
  induction (WorkItems 0 (tids wb)) as [|i l IH]; [reflexivity|].
  cbn [fold_right flat_map]. rewrite Hrun by (apply Hin; left; reflexivity).
  rewrite IH by (intros j Hj; apply Hin; right; exact Hj).
  rewrite flat_map_app. reflexivity.
Qed.

(** ** The trace of the NCHW executor *)

Lemma NchwChannels_state BlockSize WorkBlock st st' ih ekh output n :
  Bias st = Bias st' -> FilterCount st = FilterCount st' ->
  forall icc input filter,
  NchwChannels BlockSize WorkBlock st ih ekh output n icc input filter =
  NchwChannels BlockSize WorkBlock st' ih ekh output n icc input filter.
Proof.
  intros HB HC. induction n as [|n IH]; intros icc input filter;
    cbn [NchwChannels]; [reflexivity|].
  rewrite HB, HC, IH. reflexivity.
Qed.

Lemma NchwBody_calls BlockSize WorkBlock st :
  NchwBody BlockSize WorkBlock st
  = Some (CompleteWork BlockSize WorkBlock 1 st,
          NchwRowCalls BlockSize WorkBlock st).
Proof. reflexivity. Qed.

Lemma NchwExecute_At BlockSize (WorkBlock : MLAS_NCHWC_CONV_WORK_BLOCK)
    (Blocks Index : Z) :
  GroupedShapeFits BlockSize WorkBlock Blocks ->
  let wb := ConvBase WorkBlock in
  let Total := GroupedTotalWork BlockSize WorkBlock in
  1 <= tids wb < 2 ^ 31 -> 0 <= Index < tids wb ->
  SizeT.InRange Total /\
  NchwExecute BlockSize WorkBlock Index =
  Some (flat_map (NchwCallsFor BlockSize WorkBlock)
          (WorkItems (WorkStart wb Total Index) (WorkCount wb Total Index))).
Proof.
  intros Fits wb Total HT HI.
  pose proof (Fits_facts BlockSize WorkBlock Blocks Fits)
    as (Hn & _ & _ & HOHr & _).
  cbv zeta in Hn, HOHr.
  pose proof Fits as (_ & _ & _ & _ & _ & _ & _ & HO & _ & _ & _ & _ & _ & Htf).
  fold wb in HO. fold Total in Htf.
  assert (HTr : SizeT.InRange Total).
  { unfold SizeT.InRange. split; [|exact Htf].
    destruct Fits as (_ & _ & _ & _ & _ & HG & HB & _).
    unfold Total, GroupedTotalWork. fold wb in HB |- *.
    set (n := FilterSetCount BlockSize WorkBlock) in *. clearbody n. nia. }
  split; [exact HTr|].
  destruct (Work_range wb Total Index HT HTr HI) as (Hw0 & Hc0 & Hwc).
  unfold NchwExecute.
  rewrite (PrepareWork_At BlockSize WorkBlock Blocks Fits Index HT HI).
  fold wb Total. cbn [WorkRemaining GroupedStateAt].
  rewrite (while_counted WorkLeft (NchwBody BlockSize WorkBlock)
             (GroupedStateAt BlockSize WorkBlock)
             (NchwCallsFor BlockSize WorkBlock) Total).
  - reflexivity.
  - intros w r. reflexivity.
  - intros w r Hw Hr Hlim. rewrite NchwBody_calls. f_equal. f_equal.
    + apply (CompleteWork_At BlockSize WorkBlock Blocks Fits); try lia.
      fold wb. pose proof (Z.mod_pos_bound w (OutputHeight wb) ltac:(lia)).
      lia.
    + unfold NchwCallsFor, NchwRowCalls. cbn [GroupedStateAt ph Filter Output
        Input]. apply NchwChannels_state; reflexivity.
  - exact Hw0.
  - lia.
  - exact Hwc.
Qed.

Lemma NchwChannels_order BlockSize WorkBlock st ih ekh output n :
  forall icc input filter,
  0 <= icc -> icc + Z.of_nat n < SizeT.modulus ->
  omap EventChannel
    (NchwChannels BlockSize WorkBlock st ih ekh output n icc input filter)
  = WorkItems icc (Z.of_nat n).
Proof.
  induction n as [|n IH]; intros icc input filter Hicc Hn;
    cbn [NchwChannels].
  - reflexivity.
  - rewrite (WorkItems_cons icc (Z.of_nat (S n))) by lia.
    cbn [omap list_omap EventChannel]. f_equal.
    rewrite omap_app.
    replace (omap EventChannel (FusedActivation _ _ _ _)) with (@nil Z)
      by (unfold FusedActivation; destruct (negb _); reflexivity).
    cbn [app]. unfold SizeT.add at 1. rewrite wrap_small by lia.
    rewrite IH by lia. f_equal. lia.
Qed.

(** X10.  For a grouped convolution whose tensors fit in the address space,
    the NCHW executor of thread [Index] runs to completion and makes the
    calls of the work items of the thread's range, in order; the threads
    taken one after the other make the calls of every work item from 0 to
    [TotalWork - 1] once; and the calls of one work item are one
    microkernel call for each input channel, in the order
    [0, 1, ..., InputChannels - 1]. *)
Theorem NchwExecute_trace BlockSize
    (WorkBlock : MLAS_NCHWC_CONV_WORK_BLOCK) (Blocks : Z) :
  GroupedShapeFits BlockSize WorkBlock Blocks ->
  let wb := ConvBase WorkBlock in
  let Total := GroupedTotalWork BlockSize WorkBlock in
  1 <= tids wb < 2 ^ 31 ->
  (forall Index, 0 <= Index < tids wb ->
     NchwExecute BlockSize WorkBlock Index =
     Some (flat_map (NchwCallsFor BlockSize WorkBlock)
             (WorkItems (WorkStart wb Total Index)
                        (WorkCount wb Total Index)))) /\
  ThreadTraces (NchwExecute BlockSize WorkBlock) (tids wb) =
    Some (flat_map (NchwCallsFor BlockSize WorkBlock) (WorkItems 0 Total)) /\
  (forall w,
     omap EventChannel (NchwCallsFor BlockSize WorkBlock w)
     = WorkItems 0 (InputChannels wb)).
Proof.
  intros Fits wb Total HT.
  assert (Hrun : forall Index, 0 <= Index < tids wb ->
            NchwExecute BlockSize WorkBlock Index =
            Some (flat_map (NchwCallsFor BlockSize WorkBlock)
                    (WorkItems (WorkStart wb Total Index)
                               (WorkCount wb Total Index)))).
  { intros Index HI.
    apply (NchwExecute_At BlockSize WorkBlock Blocks Index Fits HT HI). }
  split; [exact Hrun|]. split.
  - apply threads_cover; [exact HT| |exact Hrun].
    apply (NchwExecute_At BlockSize WorkBlock Blocks 0 Fits HT).
    unfold wb in HT. lia.
  - intros w. unfold NchwCallsFor, NchwRowCalls. fold wb.
    destruct Fits as (HBS & HBl & Hblocked & HIC & HKS & HG & _ & _ & _ & _ &
                      Hff & _).
    fold wb in Hblocked, HIC, HKS, Hff.
    assert (HOC : 1 <= OutputChannels wb) by (rewrite Hblocked; nia).
    assert (HGO : 1 <= GroupCount WorkBlock * OutputChannels wb) by nia.
    assert (H1 : 1 * InputChannels wb
                 <= GroupCount WorkBlock * OutputChannels wb
                    * InputChannels wb)
      by (apply Z.mul_le_mono_nonneg_r; lia).
    assert (H2 : GroupCount WorkBlock * OutputChannels wb * InputChannels wb
                 * 1
                 <= GroupCount WorkBlock * OutputChannels wb
                    * InputChannels wb * KernelSize wb)
      by (apply Z.mul_le_mono_nonneg_l; lia).
    rewrite NchwChannels_order by lia.
    rewrite Z2Nat.id by lia. reflexivity.
Qed.

Lemma NchwExecute_trace_witness :
  NchwExecute 8 NchwExample 1 =
    Some (flat_map (NchwCallsFor 8 NchwExample) (WorkItems 3 2)) /\
  ThreadTraces (NchwExecute 8 NchwExample) 2 =
    Some (flat_map (NchwCallsFor 8 NchwExample) (WorkItems 0 5)) /\
  omap EventChannel (NchwCallsFor 8 NchwExample 4) = [0; 1; 2].
Proof.
  destruct (NchwExecute_trace 8 NchwExample 1 ltac:(by_computation)
              ltac:(by_computation)) as (Hrun & Hall & Hch).
  split; [apply (Hrun 1); by_computation|].
  split; [exact Hall|apply (Hch 4)].
Defined.

(** ** The trace of the pooling executor *)

Section PoolTrace.

Variable BlockSize : Z.
Variable WorkBlock : MLAS_NCHWC_POOL_WORK_BLOCK.

Let wb := PoolBase WorkBlock.
Let Total := PoolTotalWork BlockSize WorkBlock.
Let At := PoolStateAt BlockSize WorkBlock.

Hypothesis Fits : PoolShapeFits BlockSize WorkBlock.

Lemma PoolFits_facts :
  let Blocks :=
    (BatchCount wb * InputChannels wb + BlockSize - 1) / BlockSize in
  0 <= Blocks /\ Total = Blocks * OutputHeight wb /\
  0 <= Total < SizeT.modulus /\
  (BatchCount wb *% InputChannels wb +% BlockSize -% 1) / BlockSize
    *% OutputHeight wb = Total /\
  (1 <= Total ->
   OutputHeight wb < SizeT.modulus /\
   BlockSize * OutputWidth wb < SizeT.modulus /\
   BlockSize * InputSize wb < SizeT.modulus) /\
  (forall w, 0 <= w <= Total ->
     0 <= w * BlockSize < SizeT.modulus /\
     0 <= w * BlockSize * OutputWidth wb < SizeT.modulus) /\
  (forall c, 0 <= c <= Blocks ->
     0 <= c * BlockSize < SizeT.modulus /\
     0 <= c * BlockSize * InputSize wb < SizeT.modulus).
Proof.
  cbv zeta.
  destruct Fits as (HBS & HB & HIC & HO & HIS & HOW & Hsum & Hin & Hout).
  unfold Total, PoolTotalWork in *. cbv zeta in *. unfold wb in *.
  set (bc := BatchCount (PoolBase WorkBlock)) in *.
  set (IC := InputChannels (PoolBase WorkBlock)) in *.
  set (OH := OutputHeight (PoolBase WorkBlock)) in *.
  set (IS := InputSize (PoolBase WorkBlock)) in *.
  set (OW := OutputWidth (PoolBase WorkBlock)) in *.
  clearbody bc IC OH IS OW.
  assert (Hprod : 0 <= bc * IC) by nia.
  pose proof (div_bounds (bc * IC + BlockSize - 1) BlockSize ltac:(lia)
                ltac:(lia)) as Bd.
  assert (Hwrapped : bc *% IC +% BlockSize -% 1 = bc * IC + BlockSize - 1).
  { unfold SizeT.mul, SizeT.add, SizeT.sub.
    rewrite (wrap_small (bc * IC)) by lia.
    rewrite (wrap_small (bc * IC + BlockSize)) by lia.
    apply wrap_small. lia. }
  rewrite Hwrapped.
  set (Blocks := (bc * IC + BlockSize - 1) / BlockSize) in *.
  clearbody Blocks.
  assert (HBl : 0 <= Blocks) by nia.
  assert (Ht0 : 0 <= Blocks * OH) by nia.
  assert (Ht1 : Blocks * OH * 1 <= Blocks * OH * BlockSize)
    by (apply Z.mul_le_mono_nonneg_l; lia).
  assert (Ht2 : Blocks * OH * BlockSize * 1 <= Blocks * OH * BlockSize * OW)
    by (apply Z.mul_le_mono_nonneg_l; nia).
  assert (Hb1 : Blocks * BlockSize * 1 <= Blocks * BlockSize * IS)
    by (apply Z.mul_le_mono_nonneg_l; nia).
  split; [exact HBl|]. split; [reflexivity|]. split; [lia|].
  split; [unfold SizeT.mul; apply wrap_small; lia|].
  split; [|split].
  - intros H1.
    assert (1 <= Blocks) by nia.
    assert (1 * OH <= Blocks * OH) by (apply Z.mul_le_mono_nonneg_r; lia).
    assert (1 * (BlockSize * OW) <= Blocks * OH * (BlockSize * OW))
      by (apply Z.mul_le_mono_nonneg_r; nia).
    assert (1 * (BlockSize * IS) <= Blocks * (BlockSize * IS))
      by (apply Z.mul_le_mono_nonneg_r; nia).
    repeat split; lia.
  - intros w Hw.
    pose proof (scaled w (Blocks * OH) BlockSize Hw ltac:(lia)) as S1.
    pose proof (scaled (w * BlockSize) (Blocks * OH * BlockSize) OW S1
                  ltac:(lia)) as S2.
    lia.
  - intros c Hc.
    pose proof (scaled c Blocks BlockSize Hc ltac:(lia)) as S1.
    pose proof (scaled (c * BlockSize) (Blocks * BlockSize) IS S1
                  ltac:(lia)) as S2.
    lia.
Qed.

Lemma PoolPrepare_At Index :
  1 <= tids wb < 2 ^ 31 -> 0 <= Index < tids wb ->
  PoolPrepare BlockSize WorkBlock Index =
  At (WorkStart wb Total Index) (WorkCount wb Total Index).
Proof.
  intros HT HI.
  pose proof PoolFits_facts as (HBl & ETotal & HTr & Hwrapped & _ & Hw & Hc).
  cbv zeta in HBl, ETotal, Hc.
  destruct Fits as (HBS & _ & _ & HO & _). fold wb in HO.
  destruct (Work_range wb Total Index HT HTr HI) as (Hw0 & Hc0 & Hwc).
  unfold PoolPrepare. fold wb. rewrite Hwrapped.
  unfold WorkStart, WorkCount in *.
  destruct (PartitionWork Index wb Total) as [w r]. cbn [fst snd] in *.
  unfold At, PoolStateAt. fold wb.
  assert (Hq : 0 <= w / OutputHeight wb
               <= (BatchCount wb * InputChannels wb + BlockSize - 1)
                  / BlockSize).
  { split; [apply Z.div_pos; lia|].
    apply Z.div_le_upper_bound; [lia|]. rewrite ETotal in Hwc. lia. }
  destruct (Hc _ Hq) as [C1 C2]. destruct (Hw w ltac:(lia)) as [W1 W2].
  unfold SizeT.mul.
  rewrite (wrap_small (w / OutputHeight wb * BlockSize)) by lia.
  rewrite (wrap_small (w * BlockSize)) by lia.
  rewrite !wrap_small by lia. reflexivity.
Qed.

Lemma PoolBody_At w r :
  0 <= w -> 0 < r -> w + r <= Total ->
  PoolBody BlockSize WorkBlock (At w r)
  = Some (At (w + 1) (r - 1), PoolCallsFor BlockSize WorkBlock w).
Proof.
  intros Hw Hr Hlim.
  pose proof PoolFits_facts as (HBl & ETotal & HTr & _ & Hone & Hwb & Hc).
  cbv zeta in HBl, ETotal, Hc.
  destruct (Hone ltac:(lia)) as (HOHr & HOWr & HISr).
  destruct Fits as (HBS & _ & _ & HO & HIS & HOW & _).
  fold wb in HO, HIS, HOW.
  destruct (div_mod_step w (OutputHeight wb) 1 ltac:(lia) Hw ltac:(lia))
    as [Hsame Hnext].
  { pose proof (Z.mod_pos_bound w (OutputHeight wb) ltac:(lia)). lia. }
  pose proof (Z.mod_pos_bound w (OutputHeight wb) ltac:(lia)) as Hrow.
  unfold PoolCallsFor, PoolRowCalls, PoolBody. fold wb.
  unfold At, PoolStateAt. fold wb.
  cbn [pool_ph pool_Input pool_Output pool_WorkRemaining].
  destruct (if InPadRegion wb (w mod OutputHeight wb) then _ else _)
    as [ih ekh].
  f_equal. f_equal.
  assert (E1 : w mod OutputHeight wb +% 1 = w mod OutputHeight wb + 1)
    by (apply wrap_small; lia).
  assert (E2 : r -% 1 = r - 1) by (apply wrap_small; lia).
  assert (E3 : BlockSize *% OutputWidth wb = BlockSize * OutputWidth wb)
    by (apply wrap_small; nia).
  assert (E4 : BlockSize *% InputSize wb = BlockSize * InputSize wb)
    by (apply wrap_small; nia).
  rewrite E1, E2, E3, E4.
  destruct (Z.eqb_spec (w mod OutputHeight wb + 1) (OutputHeight wb))
    as [E|NE].
  - destruct (Hnext E) as [R1 R2]. rewrite R1, R2. f_equal; lia.
  - destruct (Hsame ltac:(lia)) as [R1 R2]. rewrite R1, R2. f_equal; lia.
Qed.

Lemma PoolExecute_At Index :
  1 <= tids wb < 2 ^ 31 -> 0 <= Index < tids wb ->
  PoolExecute BlockSize WorkBlock Index =
  Some (flat_map (PoolCallsFor BlockSize WorkBlock)
          (WorkItems (WorkStart wb Total Index) (WorkCount wb Total Index))).
Proof.
  intros HT HI.
  pose proof PoolFits_facts as (_ & _ & HTr & _).
  destruct (Work_range wb Total Index HT HTr HI) as (Hw0 & Hc0 & Hwc).
  unfold PoolExecute. rewrite (PoolPrepare_At Index HT HI).
  unfold At at 1. cbn [pool_WorkRemaining PoolStateAt].
  rewrite (while_counted PoolWorkLeft (PoolBody BlockSize WorkBlock) At
             (PoolCallsFor BlockSize WorkBlock) Total).
  - reflexivity.
  - intros w r. reflexivity.
  - intros w r Hw Hr Hlim. now apply PoolBody_At.
  - exact Hw0.
  - lia.
  - exact Hwc.
Qed.

End PoolTrace.

(** X11.  For a pooling whose tensors fit in the address space, the code
    before the loop of thread [Index] puts the state at the first work
    item of the thread's range, the pooling executor runs to completion and
    makes the call of each work item of the range, in order, and the
    threads taken one after the other make the call of every work item
    from 0 to [TotalWork - 1] once. *)
Theorem PoolExecute_trace BlockSize
    (WorkBlock : MLAS_NCHWC_POOL_WORK_BLOCK) :
  PoolShapeFits BlockSize WorkBlock ->
  let wb := PoolBase WorkBlock in
  let Total := PoolTotalWork BlockSize WorkBlock in
  1 <= tids wb < 2 ^ 31 ->
  (forall Index, 0 <= Index < tids wb ->
     PoolPrepare BlockSize WorkBlock Index =
       PoolStateAt BlockSize WorkBlock (WorkStart wb Total Index)
         (WorkCount wb Total Index) /\
     PoolExecute BlockSize WorkBlock Index =
       Some (flat_map (PoolCallsFor BlockSize WorkBlock)
               (WorkItems (WorkStart wb Total Index)
                          (WorkCount wb Total Index)))) /\
  ThreadTraces (PoolExecute BlockSize WorkBlock) (tids wb) =
    Some (flat_map (PoolCallsFor BlockSize WorkBlock) (WorkItems 0 Total)).
Proof.
  intros Fits wb Total HT. split.
  - intros Index HI. split.
    + now apply PoolPrepare_At.
    + now apply PoolExecute_At.
  - apply threads_cover; [exact HT| |].
    + pose proof (PoolFits_facts BlockSize WorkBlock Fits) as (_ & _ & HTr & _).
      exact HTr.
    + intros Index HI. now apply PoolExecute_At.
Qed.

Lemma PoolExecute_trace_witness :
  PoolExecute 8 ThreadedPoolExample 1 =
    Some (flat_map (PoolCallsFor 8 ThreadedPoolExample) (WorkItems 3 2)) /\
  ThreadTraces (PoolExecute 8 ThreadedPoolExample) 2 =
    Some (flat_map (PoolCallsFor 8 ThreadedPoolExample) (WorkItems 0 5)).
Proof.
  destruct (PoolExecute_trace 8 ThreadedPoolExample ltac:(by_computation)
              ltac:(by_computation)) as (Hrun & Hall).
  split; [apply (Hrun 1); by_computation|exact Hall].
Defined.

(** ** The trace of the depthwise executor *)

Lemma depthwise_state_eq (s t : DEPTHWISE_STATE) :
  dws_ph s = dws_ph t -> dws_Group s = dws_Group t ->
  dws_Input s = dws_Input t -> dws_Output s = dws_Output t ->
  dws_Filter s = dws_Filter t -> dws_Bias s = dws_Bias t ->
  dws_WorkRemaining s = dws_WorkRemaining t -> s = t.
Proof. destruct s, t. cbn. intros. subst. reflexivity. Qed.

Section DepthwiseTrace.

Variable BlockSize : Z.
Variable WorkBlock : MLAS_NCHWC_CONV_WORK_BLOCK.

Let wb := ConvBase WorkBlock.
Let Total := DepthwiseTotalWork BlockSize WorkBlock.
Let At := DepthwiseStateAt BlockSize WorkBlock.
Let Blocks := GroupBlockCount BlockSize WorkBlock.

Hypothesis Fits : DepthwiseShapeFits BlockSize WorkBlock.

Lemma DepthwiseFits_facts :
  1 <= Blocks /\ Blocks < SizeT.modulus /\
  0 <= Total < SizeT.modulus /\
  BatchCount wb *% Blocks *% OutputHeight wb = Total /\
  0 <= BatchCount wb * Blocks /\
  (1 <= Total ->
   OutputHeight wb < SizeT.modulus /\
   BlockSize * OutputWidth wb < SizeT.modulus /\
   BlockSize * InputSize wb < SizeT.modulus) /\
  BlockSize * KernelSize wb < SizeT.modulus /\
  BlockSize < SizeT.modulus /\
  (forall w, 0 <= w <= Total ->
     0 <= w * BlockSize < SizeT.modulus /\
     0 <= w * BlockSize * OutputWidth wb < SizeT.modulus) /\
  (forall c, 0 <= c <= BatchCount wb * Blocks ->
     0 <= c * BlockSize < SizeT.modulus /\
     0 <= c * BlockSize * InputSize wb < SizeT.modulus) /\
  (forall g, 0 <= g <= Blocks ->
     0 <= BlockSize * g < SizeT.modulus /\
     0 <= g * BlockSize < SizeT.modulus /\
     0 <= g * BlockSize * KernelSize wb < SizeT.modulus).
Proof.
  destruct Fits as (HBS & HG & HB & HO & HIS & HOW & HKS & Hsum & Hf & Hin &
                    Hout).
  cbv zeta in Hf, Hin, Hout.
  unfold Total, DepthwiseTotalWork in *. fold Blocks in Hf, Hin, Hout |- *.
  assert (EBlocks : Blocks = (GroupCount WorkBlock + BlockSize - 1) / BlockSize).
  { unfold Blocks, GroupBlockCount, SizeT.add, SizeT.sub.
    rewrite (wrap_small (GroupCount WorkBlock + BlockSize)) by lia.
    rewrite wrap_small by lia. reflexivity. }
  pose proof (div_bounds (GroupCount WorkBlock + BlockSize - 1) BlockSize
                ltac:(lia) ltac:(lia)) as Bd.
  rewrite <- EBlocks in Bd. clear EBlocks.
  unfold wb in *.
  set (bc := BatchCount (ConvBase WorkBlock)) in *.
  set (OH := OutputHeight (ConvBase WorkBlock)) in *.
  set (IS := InputSize (ConvBase WorkBlock)) in *.
  set (OW := OutputWidth (ConvBase WorkBlock)) in *.
  set (KS := KernelSize (ConvBase WorkBlock)) in *.
  set (gc := GroupCount WorkBlock) in *.
  clearbody bc OH IS OW KS gc Blocks.
  assert (HBl : 1 <= Blocks) by nia.
  assert (Hbb : 0 <= bc * Blocks) by nia.
  assert (Ht0 : 0 <= bc * Blocks * OH) by nia.
  assert (Ht1 : bc * Blocks * OH * 1 <= bc * Blocks * OH * BlockSize)
    by (apply Z.mul_le_mono_nonneg_l; lia).
  assert (Ht2 : bc * Blocks * OH * BlockSize * 1
                <= bc * Blocks * OH * BlockSize * OW)
    by (apply Z.mul_le_mono_nonneg_l; nia).
  assert (Hb0 : bc * Blocks * 1 <= bc * Blocks * BlockSize)
    by (apply Z.mul_le_mono_nonneg_l; lia).
  assert (Hb1 : bc * Blocks * BlockSize * 1 <= bc * Blocks * BlockSize * IS)
    by (apply Z.mul_le_mono_nonneg_l; nia).
  assert (Hk0 : Blocks * 1 <= Blocks * BlockSize)
    by (apply Z.mul_le_mono_nonneg_l; lia).
  assert (Hk1 : Blocks * BlockSize * 1 <= Blocks * BlockSize * KS)
    by (apply Z.mul_le_mono_nonneg_l; nia).
  assert (Hk2 : 1 * (BlockSize * KS) <= Blocks * (BlockSize * KS))
    by (apply Z.mul_le_mono_nonneg_r; nia).
  assert (Hk3 : 1 * BlockSize <= Blocks * BlockSize)
    by (apply Z.mul_le_mono_nonneg_r; nia).
  split; [exact HBl|]. split; [lia|]. split; [lia|].
  split.
  { unfold SizeT.mul. rewrite (wrap_small (bc * Blocks)).
    - apply wrap_small. lia.
    - assert (bc * Blocks * 1 <= bc * Blocks * OH)
        by (apply Z.mul_le_mono_nonneg_l; lia).
      lia. }
  split; [exact Hbb|]. split; [|split; [lia|split; [lia|split; [|split]]]].
  - intros H1.
    assert (1 <= bc * Blocks) by nia.
    assert (1 * OH <= bc * Blocks * OH)
      by (apply Z.mul_le_mono_nonneg_r; lia).
    assert (1 * (BlockSize * OW) <= bc * Blocks * OH * (BlockSize * OW))
      by (apply Z.mul_le_mono_nonneg_r; nia).
    assert (1 * (BlockSize * IS) <= bc * Blocks * (BlockSize * IS))
      by (apply Z.mul_le_mono_nonneg_r; nia).
    repeat split; lia.
  - intros w Hw.
    pose proof (scaled w (bc * Blocks * OH) BlockSize Hw ltac:(lia)) as S1.
    pose proof (scaled (w * BlockSize) (bc * Blocks * OH * BlockSize) OW S1
                  ltac:(lia)) as S2.
    lia.
  - intros c Hc.
    pose proof (scaled c (bc * Blocks) BlockSize Hc ltac:(lia)) as S1.
    pose proof (scaled (c * BlockSize) (bc * Blocks * BlockSize) IS S1
                  ltac:(lia)) as S2.
    lia.
  - intros g Hg.
    pose proof (scaled g Blocks BlockSize Hg ltac:(lia)) as S1.
    pose proof (scaled (g * BlockSize) (Blocks * BlockSize) KS S1
                  ltac:(lia)) as S2.
    lia.
Qed.

Lemma depthwise_digits w :
  0 <= w <= Total ->
  0 <= w mod OutputHeight wb < OutputHeight wb /\
  0 <= w / OutputHeight wb <= BatchCount wb * Blocks /\
  0 <= w / OutputHeight wb mod Blocks < Blocks.
Proof.
  intros Hw. pose proof DepthwiseFits_facts as (HBl & _).
  destruct Fits as (_ & _ & HB & HO & _). fold wb in HB, HO.
  unfold Total, DepthwiseTotalWork in Hw. fold wb Blocks in Hw.
  split; [apply Z.mod_pos_bound; lia|]. split.
  - split; [apply Z.div_pos; lia|]. apply Z.div_le_upper_bound; lia.
  - apply Z.mod_pos_bound. lia.
Qed.

Lemma DepthwisePrepare_At Index :
  1 <= tids wb < 2 ^ 31 -> 0 <= Index < tids wb ->
  DepthwisePrepare BlockSize WorkBlock Index =
  At (WorkStart wb Total Index) (WorkCount wb Total Index).
Proof.
  intros HT HI.
  pose proof DepthwiseFits_facts
    as (HBl & HBlr & HTr & Hwrapped & _ & _ & _ & _ & Hw & Hc & Hg).
  destruct (Work_range wb Total Index HT HTr HI) as (Hw0 & Hc0 & Hwc).
  unfold DepthwisePrepare. fold wb Blocks. rewrite Hwrapped.
  unfold WorkStart, WorkCount in *.
  destruct (PartitionWork Index wb Total) as [w r]. cbn [fst snd] in *.
  destruct (depthwise_digits w ltac:(lia)) as (Hrow & Him & Hgr).
  unfold At, DepthwiseStateAt. fold wb Blocks.
  destruct (Hc _ Him) as [C1 C2]. destruct (Hw w ltac:(lia)) as [W1 W2].
  destruct (Hg (w / OutputHeight wb mod Blocks) ltac:(lia)) as (G0 & G1 & G2).
  unfold SizeT.mul.
  rewrite (wrap_small (w / OutputHeight wb * BlockSize)) by lia.
  rewrite (wrap_small (w * BlockSize)) by lia.
  rewrite (wrap_small (w / OutputHeight wb mod Blocks * BlockSize)) by lia.
  rewrite !wrap_small by lia. reflexivity.
Qed.

Lemma DepthwiseAdvance_At w r :
  0 <= w -> 0 < r -> w + r <= Total ->
  DepthwiseAdvance BlockSize WorkBlock (At w r) = At (w + 1) (r - 1).
Proof.
  intros Hw Hr Hlim.
  pose proof DepthwiseFits_facts
    as (HBl & HBlr & HTr & _ & _ & Hone & HKr & HBr & _ & _ & Hg).
  destruct (Hone ltac:(lia)) as (HOHr & HOWr & HISr).
  destruct Fits as (HBS & _ & _ & HO & HIS & HOW & HKS & _).
  fold wb in HO, HIS, HOW, HKS.
  destruct (depthwise_digits w ltac:(lia)) as (Hrow & Him & Hgr).
  destruct (div_mod_step w (OutputHeight wb) 1 ltac:(lia) Hw ltac:(lia)
              ltac:(lia)) as [Hsame Hnext].
  destruct (div_mod_step (w / OutputHeight wb) Blocks 1 ltac:(lia)
              ltac:(lia) ltac:(lia) ltac:(lia)) as [Hgsame Hgnext].
  unfold DepthwiseAdvance, At, DepthwiseStateAt,
    Depthwise_BlockedOutputWidth.
  fold wb Blocks.
  cbn [dws_ph dws_Group dws_Input dws_Output dws_Filter dws_Bias
       dws_WorkRemaining].
  set (OH := OutputHeight wb) in *.
  set (row := w mod OH) in *. set (im := w / OH) in *.
  set (g := im mod Blocks) in *.
  assert (E1 : row +% 1 = row + 1) by (apply wrap_small; lia).
  assert (E2 : r -% 1 = r - 1) by (apply wrap_small; lia).
  assert (E3 : BlockSize *% OutputWidth wb = BlockSize * OutputWidth wb)
    by (apply wrap_small; nia).
  assert (E4 : BlockSize *% InputSize wb = BlockSize * InputSize wb)
    by (apply wrap_small; nia).
  assert (E5 : BlockSize *% KernelSize wb = BlockSize * KernelSize wb)
    by (apply wrap_small; nia).
  assert (E6 : g +% 1 = g + 1) by (apply wrap_small; lia).
  rewrite E1, E2, E3, E4, E5, E6.
  destruct (Z.eqb_spec (row + 1) OH) as [E|NE].
  - destruct (Hnext E) as [R1 R2]. rewrite R1, R2.
    destruct (Z.eqb_spec (g + 1) Blocks) as [Eg|Ng].
    + destruct (Hgnext Eg) as [G1 G2]. rewrite G1.
      apply depthwise_state_eq;
        cbn [dws_ph dws_Group dws_Input dws_Output dws_Filter dws_Bias
             dws_WorkRemaining]; try reflexivity; try lia.
      destruct (WorkBlock_Bias WorkBlock); cbn [AdvanceBias];
        [f_equal; lia|reflexivity].
    + destruct (Hgsame ltac:(lia)) as [G1 G2]. rewrite G1.
      apply depthwise_state_eq;
        cbn [dws_ph dws_Group dws_Input dws_Output dws_Filter dws_Bias
             dws_WorkRemaining]; try reflexivity; try lia.
      destruct (WorkBlock_Bias WorkBlock); cbn [AdvanceBias];
        [f_equal; lia|reflexivity].
  - destruct (Hsame ltac:(lia)) as [R1 R2]. rewrite R1, R2.
    apply depthwise_state_eq;
      cbn [dws_ph dws_Group dws_Input dws_Output dws_Filter dws_Bias
           dws_WorkRemaining]; try reflexivity; lia.
Qed.

Lemma DepthwiseExecute_At Index :
  1 <= tids wb < 2 ^ 31 -> 0 <= Index < tids wb ->
  DepthwiseExecute BlockSize WorkBlock Index =
  Some (flat_map (DepthwiseCallsFor BlockSize WorkBlock)
          (WorkItems (WorkStart wb Total Index) (WorkCount wb Total Index))).
Proof.
  intros HT HI.
  pose proof DepthwiseFits_facts as (_ & _ & HTr & _).
  destruct (Work_range wb Total Index HT HTr HI) as (Hw0 & Hc0 & Hwc).
  unfold DepthwiseExecute. rewrite (DepthwisePrepare_At Index HT HI).
  unfold At at 1. cbn [dws_WorkRemaining DepthwiseStateAt].
  rewrite (while_counted (DepthwiseWorkLeft)
             (DepthwiseBody BlockSize WorkBlock) At
             (DepthwiseCallsFor BlockSize WorkBlock) Total).
  - reflexivity.
  - intros w r. reflexivity.
  - intros w r Hw Hr Hlim. unfold DepthwiseBody.
    rewrite DepthwiseAdvance_At by assumption. reflexivity.
  - exact Hw0.
  - lia.
  - exact Hwc.
Qed.

End DepthwiseTrace.

(** X12.  For a depthwise convolution whose tensors fit in the address
    space, the code before the loop of thread [Index] puts the state at the
    first work item of the thread's range (the row and the block of groups
    are the digits of the work index), the depthwise executor runs to
    completion and makes the calls of each work item of the range, in
    order, and the threads taken one after the other make the calls of
    every work item from 0 to [TotalWork - 1] once. *)
Theorem DepthwiseExecute_trace BlockSize
    (WorkBlock : MLAS_NCHWC_CONV_WORK_BLOCK) :
  DepthwiseShapeFits BlockSize WorkBlock ->
  let wb := ConvBase WorkBlock in
  let Total := DepthwiseTotalWork BlockSize WorkBlock in
  1 <= tids wb < 2 ^ 31 ->
  (forall Index, 0 <= Index < tids wb ->
     DepthwisePrepare BlockSize WorkBlock Index =
       DepthwiseStateAt BlockSize WorkBlock (WorkStart wb Total Index)
         (WorkCount wb Total Index) /\
     DepthwiseExecute BlockSize WorkBlock Index =
       Some (flat_map (DepthwiseCallsFor BlockSize WorkBlock)
               (WorkItems (WorkStart wb Total Index)
                          (WorkCount wb Total Index)))) /\
  ThreadTraces (DepthwiseExecute BlockSize WorkBlock) (tids wb) =
    Some (flat_map (DepthwiseCallsFor BlockSize WorkBlock)
            (WorkItems 0 Total)).
Proof.
  intros Fits wb Total HT. split.
  - intros Index HI. split.
    + now apply DepthwisePrepare_At.
    + now apply DepthwiseExecute_At.
  - apply threads_cover; [exact HT| |].
    + pose proof (DepthwiseFits_facts BlockSize WorkBlock Fits)
        as (_ & _ & HTr & _).
      exact HTr.
    + intros Index HI. now apply DepthwiseExecute_At.
Qed.

Lemma DepthwiseExecute_trace_witness :
  (MlasNchwcConv 8 2 ExampleBlock 2 [1; 16; 9; 9] (Some [3; 3]) None
     (Some [1; 1; 1; 1]) (Some [1; 1]) [1; 16; 9; 9] 16 0 100000
     (Some 200000) 300000 MlasReluActivation true).1
  = MLAS_NCHWC_CONV_DEPTHWISE_ALGORITHM /\
  DepthwiseExecute 8 DepthwiseExample 1 =
    Some (flat_map (DepthwiseCallsFor 8 DepthwiseExample) (WorkItems 9 9)) /\
  ThreadTraces (DepthwiseExecute 8 DepthwiseExample) 2 =
    Some (flat_map (DepthwiseCallsFor 8 DepthwiseExample) (WorkItems 0 18)).
Proof.
  split; [reflexivity|].
  destruct (DepthwiseExecute_trace 8 DepthwiseExample ltac:(by_computation)
              ltac:(by_computation)) as (Hrun & Hall).
  split; [apply (Hrun 1); by_computation|exact Hall].
Defined.

(** ** The flag word of the depthwise executor *)

Section DepthwiseFlags.

Variable BlockSize : Z.
Variable WorkBlock : MLAS_NCHWC_CONV_WORK_BLOCK.

Lemma DepthwiseCalls_contract st :
  BiasAsSupplied WorkBlock (dws_Bias st) ->
  Forall (DepthwiseEventContract WorkBlock)
         (DepthwiseCalls BlockSize WorkBlock st).
Proof.
  intros Hs. unfold DepthwiseCalls, DepthwiseKernelFlags.
  destruct (ZeroMode WorkBlock) eqn:EZ;
    destruct (dws_Bias st) eqn:EB;
    destruct (WorkBlock_Activation WorkBlock) eqn:EA;
    cbn [negb ActivationKind_eqb];
    repeat match goal with
    | |- context [Z.lor ?a ?b] =>
        let v := eval vm_compute in (Z.lor a b) in
        change (Z.lor a b) with v
    end;
    repeat match goal with
    | |- context [negb (Z.land ?a ?b =? 0)] =>
        let v := eval vm_compute in (negb (Z.land a b =? 0)) in
        change (negb (Z.land a b =? 0)) with v
    end;
    repeat constructor;
    unfold DepthwiseEventContract, BiasAsSupplied in *;
    cbn [dw_KernelFlags dw_Bias]; rewrite ?EZ, ?EA;
    repeat match goal with
    | |- context [Z.testbit ?f ?k] =>
        let v := eval vm_compute in (Z.testbit f k) in
        change (Z.testbit f k) with v
    end;
    try (intuition (congruence || discriminate || lia)).
Qed.

Lemma DepthwiseAdvance_supplied st :
  BiasAsSupplied WorkBlock (dws_Bias st) ->
  BiasAsSupplied WorkBlock
    (dws_Bias (DepthwiseAdvance BlockSize WorkBlock st)) /\
  dws_WorkRemaining (DepthwiseAdvance BlockSize WorkBlock st)
    = dws_WorkRemaining st -% 1.
Proof.
  intros Hs. unfold DepthwiseAdvance.
  destruct (_ =? OutputHeight _); [destruct (_ =? GroupBlockCount _ _)|];
    cbn [dws_Bias dws_WorkRemaining]; split; try reflexivity;
    try exact Hs.
  - unfold BiasAsSupplied. tauto.
  - unfold BiasAsSupplied in *. destruct (dws_Bias st); cbn [AdvanceBias];
      split; intros H; try discriminate; try tauto.
    destruct Hs as [_ H2]. specialize (H2 H). discriminate.
Qed.

Lemma DepthwiseLoop_runs fuel : forall st,
  0 <= dws_WorkRemaining st <= Z.of_nat fuel ->
  dws_WorkRemaining st < SizeT.modulus ->
  BiasAsSupplied WorkBlock (dws_Bias st) ->
  exists st1 es,
    while DepthwiseWorkLeft (DepthwiseBody BlockSize WorkBlock) fuel st
      = Some (st1, es) /\
    Forall (DepthwiseEventContract WorkBlock) es.
Proof.
  induction fuel as [|fuel IH]; intros st Hfuel Hr Hs; cbn [while];
    unfold DepthwiseWorkLeft at 1;
    destruct (Z.ltb_spec 0 (dws_WorkRemaining st)) as [Hpos|Hzero];
    try lia.
  - exists st, []. split; [reflexivity|constructor].
  - change (DepthwiseBody BlockSize WorkBlock st)
      with (Some (DepthwiseAdvance BlockSize WorkBlock st,
                  DepthwiseCalls BlockSize WorkBlock st)).
    destruct (DepthwiseAdvance_supplied st Hs) as [Hs1 Hw].
    unfold SizeT.sub in Hw. rewrite wrap_small in Hw by lia.
    destruct (IH (DepthwiseAdvance BlockSize WorkBlock st) ltac:(lia)
                ltac:(lia) Hs1) as (st2 & es & -> & HF).
    do 2 eexists. split; [reflexivity|].
    apply Forall_app. split; [|exact HF].
    apply DepthwiseCalls_contract, Hs.
  - exists st, []. split; [reflexivity|constructor].
Qed.

End DepthwiseFlags.

(** X13.  The depthwise executor runs to completion, and in every
    microkernel call it makes each bit of the flag word is set exactly when
    its condition holds: bit 0 when [ZeroMode] is false, bit 1 when the
    bias pointer is not null (the pointer being null exactly when the
    caller's is), bit 2 for ReLU, bit 3 for a kind that is neither identity
    nor ReLU; no other bit is set.  [MlasActivation] is called for one
    filter block, and only for a kind that is neither identity nor
    ReLU. *)
Theorem DepthwiseExecute_flags BlockSize
    (WorkBlock : MLAS_NCHWC_CONV_WORK_BLOCK) (Index : Z) :
  let wb := ConvBase WorkBlock in
  1 <= BlockSize -> 1 <= tids wb -> 1 <= OutputHeight wb ->
  1 <= GroupBlockCount BlockSize WorkBlock ->
  exists es,
    DepthwiseExecute BlockSize WorkBlock Index = Some es /\
    Forall (DepthwiseEventContract WorkBlock) es.
Proof.
  intros wb _ _ _ _. unfold DepthwiseExecute.
  assert (Hr : SizeT.InRange
                 (dws_WorkRemaining
                    (DepthwisePrepare BlockSize WorkBlock Index)) /\
               BiasAsSupplied WorkBlock
                 (dws_Bias (DepthwisePrepare BlockSize WorkBlock Index))).
  { unfold DepthwisePrepare.
    match goal with
    | |- context [PartitionWork Index ?w ?W] =>
        pose proof (PartitionWork_remaining_range Index w W
                      ltac:(apply wrap_range)) as Hr;
        destruct (PartitionWork Index w W) as [WorkIndex WorkRemaining0]
    end.
    cbn [dws_WorkRemaining dws_Bias snd] in *. split; [exact Hr|].
    unfold BiasAsSupplied. destruct (WorkBlock_Bias WorkBlock);
      cbn [AdvanceBias]; split; intros H; try discriminate; reflexivity. }
  destruct Hr as [Hr Hs]. unfold SizeT.InRange in Hr.
  destruct (DepthwiseLoop_runs BlockSize WorkBlock
              (Z.to_nat (dws_WorkRemaining
                           (DepthwisePrepare BlockSize WorkBlock Index)))
              (DepthwisePrepare BlockSize WorkBlock Index)
              ltac:(lia) ltac:(lia) Hs) as (st1 & es & -> & HF).
  exists es. auto.
Qed.

Lemma DepthwiseExecute_flags_witness :
  exists es,
    DepthwiseExecute 8 DepthwiseExample 0 = Some es /\
    Forall (DepthwiseEventContract DepthwiseExample) es.
Proof.
  apply (DepthwiseExecute_flags 8 DepthwiseExample 0); by_computation.
Defined.

(** ** The flag word, bit by bit *)

Section ExactFlags.

Variable BlockSize : Z.
Variable WorkBlock : MLAS_NCHWC_CONV_WORK_BLOCK.

Let wb := ConvBase WorkBlock.
Let Exact := EventFlagsExact WorkBlock.
Let Supplied (st : GROUPED_CONV_STATE) := BiasAsSupplied WorkBlock (Bias st).

Lemma ConvKernelFlags_exact ic step bias :
  0 <= ic -> 0 <= step < SizeT.modulus ->
  ic + step <= SizeT.modulus + InputChannels wb - 1 ->
  InputChannels wb < SizeT.modulus ->
  let KernelFlags :=
    ConvKernelFlags WorkBlock ic (ic +% step =? InputChannels wb) bias in
  FlagsExact WorkBlock ic step bias KernelFlags /\
  (forall output n w, Forall Exact (FusedActivation KernelFlags output n w)).
Proof.
  intros Hic Hstep Hsum HC.
  assert (Hfinal : (ic +% step =? InputChannels wb) = true
                   <-> ic + step = InputChannels wb).
  { rewrite Z.eqb_eq. unfold SizeT.add.
    pose proof (wrap_range (ic + step)) as Hr.
    destruct (Z_lt_dec (ic + step) SizeT.modulus) as [Hlt|Hge].
    - rewrite wrap_small by lia. tauto.
    - rewrite wrap_carry; [|pose proof modulus_eq; lia]. lia. }
  cbv zeta. unfold FlagsExact, ConvKernelFlags, FusedActivation. fold wb.
  destruct (ic +% step =? InputChannels wb);
    [assert (Hf : ic + step = InputChannels wb) by (apply Hfinal; reflexivity)
    |assert (Hf : ic + step <> InputChannels wb)
       by (intros E; apply Hfinal in E; discriminate)];
    clear Hfinal;
    destruct (Z.eqb_spec ic 0) as [Hz|Hz];
    destruct (ZeroMode WorkBlock);
    destruct bias;
    destruct (WorkBlock_Activation WorkBlock) eqn:EA;
    cbn [negb orb andb ActivationKind_eqb];
    repeat match goal with
    | |- context [Z.lor ?a ?b] =>
        let v := eval vm_compute in (Z.lor a b) in
        change (Z.lor a b) with v
    end;
    repeat match goal with
    | |- context [negb (Z.land ?a ?b =? 0)] =>
        let v := eval vm_compute in (negb (Z.land a b =? 0)) in
        change (negb (Z.land a b =? 0)) with v
    end;
    repeat match goal with
    | |- context [Z.testbit ?f ?k] =>
        let v := eval vm_compute in (Z.testbit f k) in
        change (Z.testbit f k) with v
    end;
    (split;
     [intuition (congruence || discriminate || lia)
     |intros output n w; repeat constructor;
      unfold Exact, EventFlagsExact; rewrite ?EA;
      try split; try discriminate]).
Qed.

Lemma NchwcRows_exact st ic KernelFlags input n : forall work output,
  Supplied st ->
  FlagsExact WorkBlock ic BlockSize (Bias st) KernelFlags ->
  (forall o c w, Forall Exact (FusedActivation KernelFlags o c w)) ->
  Forall Exact (NchwcRows BlockSize WorkBlock st ic KernelFlags input n
                  work output).
Proof.
  induction n as [|n IH]; intros work output Hs Hf Ha; cbn [NchwcRows].
  - constructor.
  - constructor; [split; [exact Hf|exact Hs]|]. apply Forall_app. split.
    + apply Ha.
    + apply IH; assumption.
Qed.

Lemma NchwcBody_exact st st1 es :
  1 <= BlockSize < SizeT.modulus -> 0 <= InputChannels wb < SizeT.modulus ->
  Supplied st ->
  NchwcBody BlockSize WorkBlock st = Some (st1, es) ->
  Supplied st1 /\ Forall Exact es.
Proof.
  intros HB HC Hs. unfold NchwcBody. fold wb.
  destruct (while _ _ _ _) as [[ic2 es2]|] eqn:Hw; [|discriminate].
  intros H. injection H as <- <-.
  split; [apply (CompleteWork_supplied BlockSize WorkBlock HB HC), Hs|].
  eapply (while_Forall _ _ (fun ic => 0 <= ic < SizeT.modulus) Exact) in Hw.
  - tauto.
  - intros ic ic1 es0 Hr Hc Hb. apply Z.ltb_lt in Hc.
    unfold NchwcChannelBody in Hb. injection Hb as <- <-.
    split; [apply wrap_range|].
    destruct (ConvKernelFlags_exact ic BlockSize (Bias st)) as [Hf Ha];
      [lia..|].
    apply NchwcRows_exact; assumption.
  - pose proof modulus_eq. lia.
Qed.

Lemma NchwChannels_exact st ih ekh output n : forall icc input filter,
  Supplied st ->
  0 <= icc -> icc + Z.of_nat n <= InputChannels wb ->
  InputChannels wb < SizeT.modulus ->
  Forall Exact (NchwChannels BlockSize WorkBlock st ih ekh output n icc input
                  filter).
Proof.
  induction n as [|n IH]; intros icc input filter Hs Hicc Hn HC;
    cbn [NchwChannels].
  - constructor.
  - destruct (ConvKernelFlags_exact icc 1 (Bias st)) as [Hf Ha];
      [pose proof modulus_eq; lia..|].
    constructor.
    + split; [exact Hf|exact Hs].
    + apply Forall_app. split.
      * apply Ha.
      * unfold SizeT.add. rewrite wrap_small by lia.
        apply IH; [exact Hs|lia..].
Qed.

Lemma PointwiseBody_exact st st1 es :
  1 <= BlockSize < SizeT.modulus -> 0 <= InputChannels wb < SizeT.modulus ->
  Supplied st ->
  PointwiseBody BlockSize WorkBlock st = Some (st1, es) ->
  Supplied st1 /\ Forall Exact es.
Proof.
  intros HB HC Hs. unfold PointwiseBody. fold wb.
  destruct (while _ _ _ _) as [[cs2 es2]|] eqn:Hw; [|discriminate].
  intros H. injection H as <- <-.
  split; [apply (CompleteWork_supplied BlockSize WorkBlock HB HC), Hs|].
  eapply (while_Forall _ _
            (fun cs : POINTWISE_CHANNEL_STATE => 0 <= cs.1.1 < SizeT.modulus)
            Exact) in Hw.
  - tauto.
  - intros [[ic input] filter] cs1 es0 Hr Hc Hb. cbn [fst] in Hr, Hc.
    apply Z.ltb_lt in Hc. unfold PointwiseChannelBody in Hb.
    injection Hb as <- <-. cbn [fst]. split; [apply wrap_range|].
    fold wb.
    pose proof (wrap_range (InputChannels wb - ic)) as Hrange.
    fold (InputChannels wb -% ic) in Hrange.
    destruct (ConvKernelFlags_exact ic
                (Z.min (InputChannels wb -% ic) MaximumInputChannelBatch)
                (Bias st)) as [Hf Ha];
      [unfold MaximumInputChannelBatch; pose proof modulus_eq; lia..|].
    constructor; [split; [exact Hf|exact Hs]|apply Ha].
  - cbn [fst]. pose proof modulus_eq. lia.
Qed.

End ExactFlags.

(** X14.  With a block size of at least 1 and channel and row counts in
    range, the NCHWc, NCHW and pointwise executors run to completion, and
    in every microkernel call they make the flag word is exact: bit 1 is
    set if and only if the channel index plus the channel step equals
    [InputChannels] and the bias pointer is not null, bit 2 if and only if
    it is that call and the kind is ReLU, bit 3 if and only if it is that
    call and the kind is neither identity nor ReLU, bit 0 if and only if
    the channel index is nonzero or [ZeroMode] is false, and no other bit
    is set.  [MlasActivation] is called only for a kind that is neither
    identity nor ReLU. *)
Theorem KernelFlags_set_exactly_on_final_writer BlockSize
    (WorkBlock : MLAS_NCHWC_CONV_WORK_BLOCK) Index :
  let wb := ConvBase WorkBlock in
  1 <= BlockSize < SizeT.modulus -> 0 <= InputChannels wb ->
  InputChannels wb + BlockSize <= SizeT.modulus ->
  1 <= OutputHeight wb < SizeT.modulus ->
  1 <= tids wb -> 1 <= GroupCount WorkBlock ->
  1 <= FilterSetCount BlockSize WorkBlock ->
  exists nchwc nchw pointwise,
    NchwcExecute BlockSize WorkBlock Index = Some nchwc /\
    NchwExecute BlockSize WorkBlock Index = Some nchw /\
    PointwiseExecute BlockSize WorkBlock Index = Some pointwise /\
    Forall (EventFlagsExact WorkBlock) (nchwc ++ nchw ++ pointwise).
Proof.
  intros wb HB HC Hfit HOH _ _ _.
  destruct (NchwcExecute_terminates BlockSize WorkBlock)
    with (Index := Index) as [t1 H1]; try assumption; try lia.
  destruct (NchwExecute_terminates BlockSize WorkBlock)
    with (Index := Index) as [t2 H2]; try assumption; try lia.
  destruct (PointwiseExecute_terminates BlockSize WorkBlock)
    with (Index := Index) as [t3 H3]; try assumption; try lia.
  exists t1, t2, t3. repeat split; try assumption.
  assert (HCr : 0 <= InputChannels (ConvBase WorkBlock) < SizeT.modulus)
    by (fold wb; lia).
  pose proof (PrepareWork_supplied BlockSize WorkBlock HB HCr Index) as Hs0.
  rewrite !Forall_app. repeat split.
  - unfold NchwcExecute in H1.
    destruct (while _ _ _ _) as [[st2 es2]|] eqn:Hw; [|discriminate].
    injection H1 as <-.
    eapply (while_Forall _ _
              (fun st => BiasAsSupplied WorkBlock (Bias st))
              (EventFlagsExact WorkBlock)) in Hw; [tauto| |exact Hs0].
    intros s s1 es0 Hs _ Hb.
    exact (NchwcBody_exact BlockSize WorkBlock s s1 es0 HB HCr Hs Hb).
  - unfold NchwExecute in H2.
    destruct (while _ _ _ _) as [[st2 es2]|] eqn:Hw; [|discriminate].
    injection H2 as <-.
    eapply (while_Forall _ _
              (fun st => BiasAsSupplied WorkBlock (Bias st))
              (EventFlagsExact WorkBlock)) in Hw; [tauto| |exact Hs0].
    intros s s1 es0 Hs _ Hb. unfold NchwBody in Hb. injection Hb as <- <-.
    split; [apply (CompleteWork_supplied BlockSize WorkBlock HB HCr), Hs|].
    apply NchwChannels_exact; [exact Hs|lia..].
  - unfold PointwiseExecute in H3.
    destruct (while _ _ _ _) as [[st2 es2]|] eqn:Hw; [|discriminate].
    injection H3 as <-.
    eapply (while_Forall _ _
              (fun st => BiasAsSupplied WorkBlock (Bias st))
              (EventFlagsExact WorkBlock)) in Hw; [tauto| |exact Hs0].
    intros s s1 es0 Hs _ Hb.
    exact (PointwiseBody_exact BlockSize WorkBlock s s1 es0 HB HCr Hs Hb).
Qed.

Lemma KernelFlags_set_exactly_on_final_writer_witness :
  exists nchwc nchw pointwise,
    NchwcExecute 8 GroupedExample 0 = Some nchwc /\
    NchwExecute 8 GroupedExample 0 = Some nchw /\
    PointwiseExecute 8 GroupedExample 0 = Some pointwise /\
    Forall (EventFlagsExact GroupedExample) (nchwc ++ nchw ++ pointwise).
Proof.
  apply (KernelFlags_set_exactly_on_final_writer 8 GroupedExample 0);
    by_computation.
Defined.
